(** * MO-Book with AMPL: the scenario-based optimization notebooks

    A shallow embedding of the executable content of the notebooks:
    the pandas computations of the pop-up shop (expected demand, EVM),
    the AMPL models [pop.mod], [pop_evpi.mod], the BIM production model
    and its dual, [lad_regression.mod] and the objective of [opf_ldr.mod],
    together with the Python glue that binds data to them and prints the
    results.

    Numbers.  Python floats and AMPL reals are modelled by exact rationals
    ([Q]); the decimal literals of the notebooks ([0.10], [0.60], ...) are
    read as the rationals they denote.  Equality of numbers is [Qeq].

    Solver.  HiGHS and cbc are external processes.  A model is embedded as
    its feasible set and its objective; a solve that reports an optimal
    solution is any point of the feasible set at which the objective is
    extremal ([LP.optimal]). *)

From Stdlib Require Import ZArith QArith Qminmax Qabs Qround Lqa Lia List
  String Bool.
Import ListNotations.
Open Scope Q_scope.

(* ------------------------------------------------------------------ *)
(** ** Python [sum] and element-wise series arithmetic *)

Module Series.

(** A pandas Series / numpy vector of numbers. *)
Definition Series := list Q.

(** Python's built-in [sum]: starts from 0 and adds from the left. *)
Definition sum (s : Series) : Q := fold_left Qplus s 0.

(** Element-wise binary operation on two aligned series. *)
Fixpoint zip_with (op : Q -> Q -> Q) (a b : Series) : Series :=
  match a, b with
  | x :: a', y :: b' => op x y :: zip_with op a' b'
  | _, _ => []
  end.

Definition mul := zip_with Qmult.
Definition sub := zip_with Qminus.
Definition add := zip_with Qplus.
(** [df[[a, b]].min(axis=1)] *)
Definition row_min := zip_with Qmin.
(** scalar * series *)
Definition scale (k : Q) (a : Series) : Series := map (Qmult k) a.

Lemma fold_left_Qplus_acc (s : Series) (acc : Q) :
  fold_left Qplus s acc == acc + fold_left Qplus s 0.
Proof.
  revert acc. induction s as [|a s IH]; intros acc; simpl.
  - lra.
  - rewrite (IH (acc + a)), (IH (0 + a)). lra.
Qed.

Lemma sum_nil : sum [] == 0.
Proof. reflexivity. Qed.

Lemma sum_cons (a : Q) (s : Series) : sum (a :: s) == a + sum s.
Proof.
  unfold sum. simpl. rewrite fold_left_Qplus_acc. lra.
Qed.

Lemma sum_app (s t : Series) : sum (s ++ t) == sum s + sum t.
Proof.
  induction s as [|a s IH]; simpl.
  - rewrite sum_nil. lra.
  - rewrite !sum_cons, IH. lra.
Qed.

Lemma zip_with_map {A} (op : Q -> Q -> Q) (g h : A -> Q) (l : list A) :
  zip_with op (map g l) (map h l) = map (fun a => op (g a) (h a)) l.
Proof.
  induction l as [|a l IH]; simpl; [reflexivity | now rewrite IH].
Qed.

(** Sums of point-wise related families. *)
Lemma sum_map_le {A} (g h : A -> Q) (l : list A) :
  (forall a, In a l -> g a <= h a) -> sum (map g l) <= sum (map h l).
Proof.
  induction l as [|a l IH]; intros Hgh; simpl.
  - rewrite sum_nil. lra.
  - rewrite !sum_cons.
    assert (g a <= h a) by (apply Hgh; now left).
    assert (sum (map g l) <= sum (map h l))
      by (apply IH; intros; apply Hgh; now right).
    lra.
Qed.

Lemma sum_map_ext {A} (g h : A -> Q) (l : list A) :
  (forall a, In a l -> g a == h a) -> sum (map g l) == sum (map h l).
Proof.
  intros Hgh. apply Qle_antisym; apply sum_map_le; intros a Ha;
    rewrite (Hgh a Ha); lra.
Qed.

Lemma sum_map_nonneg {A} (g : A -> Q) (l : list A) :
  (forall a, In a l -> 0 <= g a) -> 0 <= sum (map g l).
Proof.
  induction l as [|a l IH]; intros Hg; simpl.
  - rewrite sum_nil. lra.
  - rewrite sum_cons.
    assert (0 <= g a) by (apply Hg; now left).
    assert (0 <= sum (map g l)) by (apply IH; intros; apply Hg; now right).
    lra.
Qed.

Lemma sum_map_scale {A} (k : Q) (g : A -> Q) (l : list A) :
  sum (map (fun a => k * g a) l) == k * sum (map g l).
Proof.
  induction l as [|a l IH]; simpl.
  - rewrite sum_nil. lra.
  - rewrite !sum_cons, IH. lra.
Qed.

Lemma sum_map_plus {A} (g h : A -> Q) (l : list A) :
  sum (map (fun a => g a + h a) l) == sum (map g l) + sum (map h l).
Proof.
  induction l as [|a l IH]; simpl.
  - rewrite !sum_nil. lra.
  - rewrite !sum_cons, IH. lra.
Qed.

End Series.

(* ------------------------------------------------------------------ *)
(** ** Python dictionaries with string keys

  A [dict] keeps its keys in insertion order; assigning to a key that is
  already present replaces the value in place.  A dictionary display
  [{k1: v1, k2: v2, ...}] inserts its items from left to right. *)

Module Dict.
Section WithValue.
Context {V : Type}.

Definition dict : Type := list (string * V).

Fixpoint set (k : string) (v : V) (d : dict) : dict :=
  match d with
  | [] => [(k, v)]
  | (k', v') :: d' =>
      if String.eqb k k' then (k, v) :: d' else (k', v') :: set k v d'
  end.

Definition literal (items : list (string * V)) : dict :=
  fold_left (fun d kv => set (fst kv) (snd kv) d) items [].

Fixpoint get (k : string) (d : dict) : option V :=
  match d with
  | [] => None
  | (k', v') :: d' => if String.eqb k k' then Some v' else get k d'
  end.

Definition keys (d : dict) : list string := map fst d.
Definition values (d : dict) : list V := map snd d.

Lemma in_keys_set (k k0 : string) (v : V) (d : dict) :
  In k0 (keys (set k v d)) -> k0 = k \/ In k0 (keys d).
Proof.
  induction d as [|[k' v'] d IH]; simpl.
  - intros [H|[]]; now left.
  - destruct (String.eqb_spec k k') as [->|Hne]; simpl.
    + intros [H|H]; [now left | now right; right].
    + intros [H|H]; [now right; left|].
      destruct (IH H) as [H'|H']; [now left | now right; right].
Qed.

Lemma NoDup_keys_set (k : string) (v : V) (d : dict) :
  NoDup (keys d) -> NoDup (keys (set k v d)).
Proof.
  induction d as [|[k' v'] d IH]; simpl; intros Hnd.
  - constructor; [intros [] | constructor].
  - inversion Hnd as [|? ? Hnotin Hnd']; subst.
    destruct (String.eqb_spec k k') as [->|Hne]; simpl.
    + now constructor.
    + constructor; [|now apply IH].
      intros Hin. destruct (in_keys_set _ _ _ _ Hin) as [H|H].
      * now apply Hne.
      * now apply Hnotin.
Qed.

(** The keys of a dictionary display are pairwise distinct. *)
Lemma NoDup_keys_literal (items : list (string * V)) :
  NoDup (keys (literal items)).
Proof.
  unfold literal.
  assert (H : forall d0, NoDup (keys d0) ->
            NoDup (keys (fold_left (fun d kv => set (fst kv) (snd kv) d)
                                   items d0))).
  { induction items as [|[k v] items IH]; intros d0 Hd0; simpl.
    - exact Hd0.
    - apply IH. now apply NoDup_keys_set. }
  apply H. constructor.
Qed.

Lemma get_in (k : string) (v : V) (d : dict) :
  NoDup (keys d) -> In (k, v) d -> get k d = Some v.
Proof.
  induction d as [|[k' v'] d IH]; simpl; intros Hnd Hin.
  - destruct Hin.
  - inversion Hnd as [|? ? Hnotin Hnd']; subst.
    destruct Hin as [Heq|Hin].
    + inversion Heq; subst. now rewrite String.eqb_refl.
    + destruct (String.eqb_spec k k') as [->|Hne].
      * exfalso. apply Hnotin. change k' with (fst (k', v)).
        now apply in_map.
      * now apply IH.
Qed.

End WithValue.
End Dict.

(* ------------------------------------------------------------------ *)
(** ** Optimization models and what a solve returns *)

Module LP.

Inductive Sense := maximize | minimize.

(** A bound model over the variable space [A]. *)
Record Model (A : Type) := {
  sense : Sense;
  objective : A -> Q;
  feasible : A -> Prop
}.
Arguments sense {A} _.
Arguments objective {A} _ _.
Arguments feasible {A} _ _.

(** [at_least_as_good sn u v]: objective value [u] is no worse than [v]. *)
Definition at_least_as_good (sn : Sense) (u v : Q) : Prop :=
  match sn with
  | maximize => v <= u
  | minimize => u <= v
  end.

Definition optimal {A} (M : Model A) (a : A) : Prop :=
  feasible M a /\
  forall b, feasible M b ->
            at_least_as_good (sense M) (objective M a) (objective M b).

Definition optimal_value {A} (M : Model A) (v : Q) : Prop :=
  exists a, optimal M a /\ objective M a == v.

(** The model has one optimal solution, [a]: every feasible point that
    is at least as good as [a] is [a]; [same] is the equality of
    assignments. *)
Definition unique_optimum {A} (same : A -> A -> Prop) (M : Model A) (a : A)
  : Prop :=
  feasible M a /\
  forall b, feasible M b ->
            at_least_as_good (sense M) (objective M b) (objective M a) ->
            same b a.

(** What AMPL holds after [ampl.solve()]: the value of [solve_result]
    and the current values of the variables. *)
Record SolveResult (A : Type) := {
  solve_result : string;
  values : A
}.
Arguments solve_result {A} _.
Arguments values {A} _.

(** The contract of a solve that prints "optimal solution". *)
Definition solved {A} (M : Model A) (res : SolveResult A) : Prop :=
  solve_result res = "solved"%string /\ optimal M (values res).

Lemma optimal_objective_unique {A} (M : Model A) (a b : A) :
  optimal M a -> optimal M b -> objective M a == objective M b.
Proof.
  intros [Fa Ha] [Fb Hb].
  specialize (Ha b Fb). specialize (Hb a Fa).
  destruct (sense M); simpl in *; lra.
Qed.

Lemma optimal_value_unique {A} (M : Model A) (u v : Q) :
  optimal_value M u -> optimal_value M v -> u == v.
Proof.
  intros (a & Ha & Hu) (b & Hb & Hv).
  rewrite <- Hu, <- Hv. now apply optimal_objective_unique.
Qed.

Lemma unique_optimum_only {A} (same : A -> A -> Prop) (M : Model A)
      (a b : A) :
  unique_optimum same M a -> optimal M b -> same b a.
Proof.
  intros [Fa Ha] [Fb Hb]. apply (Ha b Fb). apply Hb. exact Fa.
Qed.

End LP.

(** One instance of an indexed AMPL constraint [s.t. name {s in S}: ...]. *)
Record Constraint (A : Type) := {
  cname : string;
  cindex : string;
  holds : A -> Prop
}.
Arguments cname {A} _.
Arguments cindex {A} _.
Arguments holds {A} _ _.

(** What a Python cell evaluation ends in. *)
Inductive Outcome (A : Type) :=
| Returned (a : A)
| Raised (exn : string).
Arguments Returned {A} a.
Arguments Raised {A} exn.

(* ------------------------------------------------------------------ *)
(** ** Pop-up shop: scenario data, EVM, [pop.mod], [pop_evpi.mod] *)

Module PopUpShop.
Import Series.

(** One entry of the [scenarios] dictionary:
    [{"probability": ..., "demand": ...}]. *)
Record Scenario := {
  probability : Q;
  demand : Q
}.

Abbreviation dict := (@Dict.dict).

(** Price information: sales price, unit cost, salvage value. *)
Record Prices := {
  r : Q;
  c : Q;
  w : Q
}.

(** [r = 40], [c = 12], [w = 2]. *)
Definition prices : Prices := {| r := 40; c := 12; w := 2 |}.

(** The [scenarios] dictionary of the notebook, as displayed. *)
Definition scenarios_items : list (string * Scenario) :=
  [ ("sunny skies"%string, {| probability := 0.10; demand := 650 |});
    ("good weather"%string, {| probability := 0.60; demand := 400 |});
    ("poor weather"%string, {| probability := 0.30; demand := 200 |}) ].

Definition scenarios : dict Scenario := Dict.literal scenarios_items.

(** [pd.DataFrame.from_dict(scenarios).T]: one row per key of the
    dictionary, in key order, one column per field. *)
Record DataFrame := {
  index : list string;
  col_probability : Series;
  col_demand : Series
}.

Definition from_dict_T (sc : dict Scenario) : DataFrame :=
  {| index := Dict.keys sc;
     col_probability := map probability (Dict.values sc);
     col_demand := map demand (Dict.values sc) |}.

(** The columns of the frame are the fields of the entries: a dictionary
    without entries gives a frame without rows and without columns. *)
Definition columns (df : DataFrame) : list string :=
  match index df with
  | [] => []
  | _ :: _ => ["probability"; "demand"]%string
  end.

(** [df[name]]: the column, or a [KeyError] when the frame has none of
    that name. *)
Definition getitem (df : DataFrame) (name : string) : Outcome Series :=
  if existsb (String.eqb name) (columns df)
  then Returned (if String.eqb name "probability" then col_probability df
                 else col_demand df)
  else Raised "KeyError".

(** [sum(df["probability"] * df["demand"])] on a frame that has both
    columns. *)
Definition expected_demand (df : DataFrame) : Q :=
  sum (mul (col_probability df) (col_demand df)).

(** The scenario cell: builds the frame, reads its two columns, left
    operand first, and prints the expected demand.  The cell has no
    [raise] and no [assert]; the only exception is the [KeyError] of a
    column that is not there. *)
Definition scenario_cell (items : list (string * Scenario))
  : Outcome (DataFrame * Q) :=
  let df := from_dict_T (Dict.literal items) in
  match getitem df "probability" with
  | Raised exn => Raised exn
  | Returned weights =>
      match getitem df "demand" with
      | Raised exn => Raised exn
      | Returned demands => Returned (df, sum (mul weights demands))
      end
  end.

(** The EVM cell: columns added to the frame, then the weighted sum. *)
Definition col_order (df : DataFrame) : Series :=
  map (fun _ => expected_demand df) (index df).

Definition col_sold (df : DataFrame) : Series :=
  row_min (col_demand df) (col_order df).

Definition col_salvage (df : DataFrame) : Series :=
  sub (col_order df) (col_sold df).

Definition col_profit (pr : Prices) (df : DataFrame) : Series :=
  sub (add (scale (r pr) (col_sold df)) (scale (w pr) (col_salvage df)))
      (scale (c pr) (col_order df)).

Definition EVM (pr : Prices) (df : DataFrame) : Q :=
  sum (mul (col_probability df) (col_profit pr df)).

(** A valid scenario set: non-negative weights that sum to one. *)
Definition valid_probabilities (sc : dict Scenario) : Prop :=
  Forall (fun s => 0 <= probability s) (Dict.values sc) /\
  sum (map probability (Dict.values sc)) == 1.

(** Weights that sum to one within the tolerance [1e-6]. *)
Definition valid_within_tolerance (sc : dict Scenario) : Prop :=
  Forall (fun s => 0 <= probability s) (Dict.values sc) /\
  Qabs (sum (map probability (Dict.values sc)) - 1) <= 1e-6.

(** *** Data bound to the AMPL models by [ampl.set_data(scenarios_df, "S")]

    The index of the frame becomes the set [S]; the columns renamed to
    [p] and [d] become the parameters indexed over [S]. *)
Record Data := {
  S : list string;
  p : string -> Q;
  d : string -> Q
}.

Definition param (idx : list string) (col : Series) (s : string) : Q :=
  match Dict.get s (combine idx col) with
  | Some v => v
  | None => 0
  end.

Definition set_data (df : DataFrame) : Data :=
  {| S := index df;
     p := param (index df) (col_probability df);
     d := param (index df) (col_demand df) |}.

(** *** [pop.mod] *)
Module Pop.

(** [var x >= 0; var y{S} >= 0; var f{S};] *)
Record Vars := {
  x : Q;
  y : string -> Q;
  f : string -> Q
}.

Definition bounds (dat : Data) (v : Vars) : Prop :=
  0 <= x v /\ Forall (fun s => 0 <= y v s) (S dat).

(** [s.t. profit {s in S}: f[s] == r * y[s] + w * (x - y[s]) - c * x;] *)
Definition profit (pr : Prices) (s : string) : Constraint Vars :=
  {| cname := "profit"; cindex := s;
     holds := fun v => f v s == r pr * y v s + w pr * (x v - y v s) - c pr * x v |}.

(** [s.t. sales_less_than_order {s in S}: y[s] <= x;] *)
Definition sales_less_than_order (s : string) : Constraint Vars :=
  {| cname := "sales_less_than_order"; cindex := s;
     holds := fun v => y v s <= x v |}.

(** [s.t. sales_less_than_demand {s in S}: y[s] <= d[s];] *)
Definition sales_less_than_demand (dat : Data) (s : string)
  : Constraint Vars :=
  {| cname := "sales_less_than_demand"; cindex := s;
     holds := fun v => y v s <= d dat s |}.

(** The constraint instances of the bound model, family by family. *)
Definition constraints (pr : Prices) (dat : Data) : list (Constraint Vars) :=
  map (profit pr) (S dat)
  ++ map sales_less_than_order (S dat)
  ++ map (sales_less_than_demand dat) (S dat).

(** [maximize EV: sum{s in S} p[s] * f[s];] with its list of terms. *)
Definition EV_terms (dat : Data) (v : Vars) : list (string * Q) :=
  map (fun s => (s, p dat s * f v s)) (S dat).

Definition EV (dat : Data) (v : Vars) : Q :=
  sum (map snd (EV_terms dat v)).

Definition model (pr : Prices) (dat : Data) : LP.Model Vars :=
  {| LP.sense := LP.maximize;
     LP.objective := EV dat;
     LP.feasible := fun v =>
       bounds dat v /\ Forall (fun k => holds k v) (constraints pr dat) |}.

End Pop.

(** *** [pop_evpi.mod]: the order is indexed by the scenario *)
Module PopEvpi.

(** [var x{S} >= 0; var y{S} >= 0; var f{S};] *)
Record Vars := {
  x : string -> Q;
  y : string -> Q;
  f : string -> Q
}.

Definition bounds (dat : Data) (v : Vars) : Prop :=
  Forall (fun s => 0 <= x v s) (S dat) /\
  Forall (fun s => 0 <= y v s) (S dat).

(** [s.t. profit {s in S}:
       f[s] == r * y[s] + w * (x[s] - y[s]) - c * x[s];] *)
Definition profit (pr : Prices) (s : string) : Constraint Vars :=
  {| cname := "profit"; cindex := s;
     holds := fun v =>
       f v s == r pr * y v s + w pr * (x v s - y v s) - c pr * x v s |}.

(** [s.t. sales_less_than_order {s in S}: y[s] <= x[s];] *)
Definition sales_less_than_order (s : string) : Constraint Vars :=
  {| cname := "sales_less_than_order"; cindex := s;
     holds := fun v => y v s <= x v s |}.

(** [s.t. sales_less_than_demand {s in S}: y[s] <= d[s];] *)
Definition sales_less_than_demand (dat : Data) (s : string)
  : Constraint Vars :=
  {| cname := "sales_less_than_demand"; cindex := s;
     holds := fun v => y v s <= d dat s |}.

Definition constraints (pr : Prices) (dat : Data) : list (Constraint Vars) :=
  map (profit pr) (S dat)
  ++ map sales_less_than_order (S dat)
  ++ map (sales_less_than_demand dat) (S dat).

Definition EV_terms (dat : Data) (v : Vars) : list (string * Q) :=
  map (fun s => (s, p dat s * f v s)) (S dat).

Definition EV (dat : Data) (v : Vars) : Q :=
  sum (map snd (EV_terms dat v)).

Definition model (pr : Prices) (dat : Data) : LP.Model Vars :=
  {| LP.sense := LP.maximize;
     LP.objective := EV dat;
     LP.feasible := fun v =>
       bounds dat v /\ Forall (fun k => holds k v) (constraints pr dat) |}.

End PopEvpi.

(** The derived metrics of the summary. *)
Definition VSS (evss evm : Q) : Q := evss - evm.
Definition VPI (evpi evss : Q) : Q := evpi - evss.

(** *** The cells that solve and print

    What a cell writes: one [Line] per [print] or [display] call. *)
Inductive Item :=
| Text (t : string)
| Number (q : Q)
| Frame (idx : list string) (columns : list (string * Series)).

Definition Line := list Item.





(** The EVM cell: the frame with its added columns, then the metric.  No
    solve takes place in this cell. *)
Definition evm_report (pr : Prices) (sc : dict Scenario) : list Line :=
  let df := from_dict_T sc in
  [ [Frame (index df)
       [("probability"%string, col_probability df);
        ("demand"%string, col_demand df);
        ("order"%string, col_order df);
        ("sold"%string, col_sold df);
        ("salvage"%string, col_salvage df);
        ("profit"%string, col_profit pr df)]];
    [Text "Expected value of the mean demand (EVM) ="; Number (EVM pr df)] ].

(** The lines of a report that carry a metric: a label, then a number. *)
Definition is_metric_line (ln : Line) : bool :=
  match ln with
  | Text _ :: Number _ :: _ => true
  | _ => false
  end.

Definition metric_lines (rep : list Line) : list Line :=
  filter is_metric_line rep.





(** *** Integrality

    The narrative asks for [x] and [y_s] in Z_+.  [pop_integer_model] is
    [pop.mod] itself with these requirements added ([f_s] stays real);
    it is not the program the narrative displays, which follows as
    [integer_model]. *)
Definition integral (q : Q) : Prop := exists z : Z, q == inject_Z z.

Definition pop_integer_model (pr : Prices) (dat : Data) : LP.Model Pop.Vars :=
  {| LP.sense := LP.maximize;
     LP.objective := Pop.EV dat;
     LP.feasible := fun v =>
       LP.feasible (Pop.model pr dat) v /\
       integral (Pop.x v) /\
       Forall (fun s => integral (Pop.y v s)) (S dat) |}.

(** The integer program as the narrative states it:
    [max sum_s p_s f_s] subject to
    [f_s = r y_s + w (d_s - y_s) - c x], [y_s <= x], [y_s <= d_s],
    [y_s in Z_+], [x in Z_+].  Its profit constraint takes the salvage
    on [d_s - y_s], where [pop.mod] takes it on the unsold items
    [x - y_s]. *)
Definition integer_model (pr : Prices) (dat : Data) : LP.Model Pop.Vars :=
  {| LP.sense := LP.maximize;
     LP.objective := Pop.EV dat;
     LP.feasible := fun v =>
       (integral (Pop.x v) /\ 0 <= Pop.x v) /\
       Forall (fun s =>
                 (integral (Pop.y v s) /\ 0 <= Pop.y v s) /\
                 Pop.f v s == r pr * Pop.y v s + w pr * (d dat s - Pop.y v s)
                              - c pr * Pop.x v /\
                 Pop.y v s <= Pop.x v /\
                 Pop.y v s <= d dat s) (S dat) |}.

(** Two assignments of [pop.mod] agree on the variables the model has. *)
Definition same_on (dat : Data) (u v : Pop.Vars) : Prop :=
  Pop.x u == Pop.x v /\
  Forall (fun s => Pop.y u s == Pop.y v s /\ Pop.f u s == Pop.f v s) (S dat).

(** *** The frame and the bound data, row by row *)

(** Profit of one scenario with demand [dem] when [order] items were
    ordered: the row-wise content of the [sold], [salvage] and [profit]
    columns. *)
Definition row_profit (pr : Prices) (order dem : Q) : Q :=
  r pr * Qmin dem order + w pr * (order - Qmin dem order) - c pr * order.

Lemma expected_demand_rows (sc : dict Scenario) :
  expected_demand (from_dict_T sc)
  = sum (map (fun kv => probability (snd kv) * demand (snd kv)) sc).
Proof.
  unfold expected_demand, from_dict_T, mul, Dict.values; simpl.
  now rewrite !map_map, zip_with_map.
Qed.

Lemma EVM_rows (pr : Prices) (sc : dict Scenario) :
  EVM pr (from_dict_T sc)
  = sum (map (fun kv => probability (snd kv)
                        * row_profit pr (expected_demand (from_dict_T sc))
                                     (demand (snd kv))) sc).
Proof.
  unfold EVM, col_profit, col_salvage, col_sold, col_order.
  set (ed := expected_demand (from_dict_T sc)).
  unfold from_dict_T, mul, sub, add, row_min, scale, Dict.values, Dict.keys;
    simpl.
  rewrite !map_map.
  repeat (rewrite ?zip_with_map, ?map_map).
  reflexivity.
Qed.

Lemma combine_columns {A} (g : Scenario -> A) (sc : dict Scenario) :
  combine (Dict.keys sc) (map g (Dict.values sc))
  = map (fun kv => (fst kv, g (snd kv))) sc.
Proof.
  unfold Dict.keys, Dict.values.
  induction sc as [|[k v] sc IH]; simpl; [reflexivity | now rewrite IH].
Qed.

Lemma param_row (g : Scenario -> Q) (sc : dict Scenario)
      (k : string) (v : Scenario) :
  NoDup (Dict.keys sc) -> In (k, v) sc ->
  param (Dict.keys sc) (map g (Dict.values sc)) k = g v.
Proof.
  intros Hnd Hin. unfold param. rewrite combine_columns.
  rewrite (Dict.get_in k (g v)); [reflexivity | | ].
  - unfold Dict.keys in *. rewrite map_map. simpl. exact Hnd.
  - apply (in_map (fun kv => (fst kv, g (snd kv))) _ _ Hin).
Qed.

Lemma p_row (sc : dict Scenario) (k : string) (v : Scenario) :
  NoDup (Dict.keys sc) -> In (k, v) sc ->
  p (set_data (from_dict_T sc)) k = probability v.
Proof. intros; simpl; now apply param_row. Qed.

Lemma d_row (sc : dict Scenario) (k : string) (v : Scenario) :
  NoDup (Dict.keys sc) -> In (k, v) sc ->
  d (set_data (from_dict_T sc)) k = demand v.
Proof. intros; simpl; now apply param_row. Qed.

Lemma in_S_row (sc : dict Scenario) (s : string) :
  In s (S (set_data (from_dict_T sc))) -> exists v, In (s, v) sc.
Proof.
  simpl. unfold Dict.keys. rewrite in_map_iff.
  intros [[k v] [Hk Hin]]. simpl in Hk. subst. now exists v.
Qed.

Lemma row_in_S (sc : dict Scenario) (k : string) (v : Scenario) :
  In (k, v) sc -> In k (S (set_data (from_dict_T sc))).
Proof.
  intros Hin. simpl. unfold Dict.keys.
  change k with (fst (k, v)). now apply in_map.
Qed.

(** The weighted sum of the objective, read along the rows of the frame. *)
Lemma weighted_sum_rows (sc : dict Scenario) (g : string -> Q) :
  NoDup (Dict.keys sc) ->
  sum (map (fun s => p (set_data (from_dict_T sc)) s * g s)
           (S (set_data (from_dict_T sc))))
  == sum (map (fun kv => probability (snd kv) * g (fst kv)) sc).
Proof.
  intros Hnd.
  change (S (set_data (from_dict_T sc))) with (map fst sc).
  rewrite map_map. apply sum_map_ext. intros [k v] Hin. simpl fst; simpl snd.
  rewrite (p_row sc k v Hnd Hin). reflexivity.
Qed.

(** *** Feasibility of the two models, constraint by constraint *)

Lemma Pop_feasible_iff (pr : Prices) (dat : Data) (v : Pop.Vars) :
  LP.feasible (Pop.model pr dat) v <->
  0 <= Pop.x v /\
  forall s, In s (S dat) ->
    0 <= Pop.y v s /\
    Pop.f v s == r pr * Pop.y v s + w pr * (Pop.x v - Pop.y v s)
                 - c pr * Pop.x v /\
    Pop.y v s <= Pop.x v /\
    Pop.y v s <= d dat s.
Proof.
  simpl. unfold Pop.bounds, Pop.constraints.
  rewrite !Forall_app, !Forall_map, !Forall_forall. simpl.
  split.
  - intros [[Hx Hy] (Hp & Ho & Hd)]. split; [exact Hx|].
    intros s Hs. auto.
  - intros [Hx H]. repeat split; try exact Hx; intros s Hs; now apply H.
Qed.

Lemma PopEvpi_feasible_iff (pr : Prices) (dat : Data) (v : PopEvpi.Vars) :
  LP.feasible (PopEvpi.model pr dat) v <->
  forall s, In s (S dat) ->
    0 <= PopEvpi.x v s /\
    0 <= PopEvpi.y v s /\
    PopEvpi.f v s == r pr * PopEvpi.y v s
                     + w pr * (PopEvpi.x v s - PopEvpi.y v s)
                     - c pr * PopEvpi.x v s /\
    PopEvpi.y v s <= PopEvpi.x v s /\
    PopEvpi.y v s <= d dat s.
Proof.
  simpl. unfold PopEvpi.bounds, PopEvpi.constraints.
  rewrite !Forall_app, !Forall_map, !Forall_forall. simpl.
  split.
  - intros [[Hx Hy] (Hp & Ho & Hd)]. intros s Hs. auto 6.
  - intros H. repeat split; intros s Hs; now apply H.
Qed.

Lemma Pop_EV_sum (dat : Data) (v : Pop.Vars) :
  Pop.EV dat v = sum (map (fun s => p dat s * Pop.f v s) (S dat)).
Proof. unfold Pop.EV, Pop.EV_terms. now rewrite map_map. Qed.

Lemma PopEvpi_EV_sum (dat : Data) (v : PopEvpi.Vars) :
  PopEvpi.EV dat v = sum (map (fun s => p dat s * PopEvpi.f v s) (S dat)).
Proof. unfold PopEvpi.EV, PopEvpi.EV_terms. now rewrite map_map. Qed.

(** *** The mean-demand plan and the here-and-now plan inside the models *)

(** Ordering [order] items and selling what the demand allows, as a
    point of [pop.mod]. *)
Definition plan (pr : Prices) (dat : Data) (order : Q) : Pop.Vars :=
  {| Pop.x := order;
     Pop.y := fun s => Qmin (d dat s) order;
     Pop.f := fun s => row_profit pr order (d dat s) |}.

(** The decision evaluated by the EVM cell. *)
Definition evm_plan (pr : Prices) (df : DataFrame) : Pop.Vars :=
  plan pr (set_data df) (expected_demand df).

(** Ordering exactly the demand of each scenario, as a point of
    [pop_evpi.mod]. *)
Definition hindsight_plan (pr : Prices) (dat : Data) : PopEvpi.Vars :=
  {| PopEvpi.x := d dat;
     PopEvpi.y := d dat;
     PopEvpi.f := fun s => row_profit pr (d dat s) (d dat s) |}.

(** A here-and-now plan, as a point of [pop_evpi.mod]: the same order in
    every scenario. *)
Definition lift (v : Pop.Vars) : PopEvpi.Vars :=
  {| PopEvpi.x := fun _ => Pop.x v;
     PopEvpi.y := Pop.y v;
     PopEvpi.f := Pop.f v |}.

Lemma expected_demand_nonneg (sc : dict Scenario) :
  (forall k v, In (k, v) sc -> 0 <= probability v) ->
  (forall k v, In (k, v) sc -> 0 <= demand v) ->
  0 <= expected_demand (from_dict_T sc).
Proof.
  intros Hp Hd. rewrite expected_demand_rows.
  apply sum_map_nonneg. intros [k v] Hin. simpl.
  apply Qmult_le_0_compat; eauto.
Qed.

Lemma demand_nonneg_of_feasible (pr : Prices) (sc : dict Scenario)
      (a : Pop.Vars) :
  NoDup (Dict.keys sc) ->
  LP.feasible (Pop.model pr (set_data (from_dict_T sc))) a ->
  forall k v, In (k, v) sc -> 0 <= demand v.
Proof.
  intros Hnd Ha k v Hin.
  apply Pop_feasible_iff in Ha. destruct Ha as [_ Ha].
  destruct (Ha k (row_in_S sc k v Hin)) as (Hy & _ & _ & Hd).
  rewrite (d_row sc k v Hnd Hin) in Hd. lra.
Qed.

Lemma plan_feasible (pr : Prices) (sc : dict Scenario) (order : Q) :
  NoDup (Dict.keys sc) ->
  0 <= order ->
  (forall k v, In (k, v) sc -> 0 <= demand v) ->
  LP.feasible (Pop.model pr (set_data (from_dict_T sc)))
              (plan pr (set_data (from_dict_T sc)) order).
Proof.
  intros Hnd Hord Hd. apply Pop_feasible_iff.
  unfold plan. cbn [Pop.x Pop.y Pop.f].
  split; [exact Hord|].
  intros s Hs. destruct (in_S_row sc s Hs) as [v Hin].
  rewrite (d_row sc s v Hnd Hin).
  split; [|split; [|split]].
  - apply Q.min_glb; [eauto | exact Hord].
  - unfold row_profit. reflexivity.
  - apply Q.le_min_r.
  - apply Q.le_min_l.
Qed.

Lemma evm_plan_feasible (pr : Prices) (sc : dict Scenario) :
  NoDup (Dict.keys sc) ->
  (forall k v, In (k, v) sc -> 0 <= probability v) ->
  (forall k v, In (k, v) sc -> 0 <= demand v) ->
  LP.feasible (Pop.model pr (set_data (from_dict_T sc)))
              (evm_plan pr (from_dict_T sc)).
Proof.
  intros Hnd Hp Hd. apply plan_feasible; auto.
  now apply expected_demand_nonneg.
Qed.

Lemma evm_plan_value (pr : Prices) (sc : dict Scenario) :
  NoDup (Dict.keys sc) ->
  Pop.EV (set_data (from_dict_T sc)) (evm_plan pr (from_dict_T sc))
  == EVM pr (from_dict_T sc).
Proof.
  intros Hnd. rewrite Pop_EV_sum, EVM_rows.
  unfold evm_plan, plan. cbn [Pop.f].
  rewrite (weighted_sum_rows sc
             (fun s => row_profit pr (expected_demand (from_dict_T sc))
                                  (d (set_data (from_dict_T sc)) s)) Hnd).
  apply sum_map_ext. intros [k v] Hin. cbn [fst snd].
  rewrite (d_row sc k v Hnd Hin). reflexivity.
Qed.

Lemma lift_feasible (pr : Prices) (dat : Data) (v : Pop.Vars) :
  LP.feasible (Pop.model pr dat) v ->
  LP.feasible (PopEvpi.model pr dat) (lift v).
Proof.
  rewrite Pop_feasible_iff, PopEvpi_feasible_iff.
  intros [Hx H] s Hs. destruct (H s Hs) as (Hy & Hf & Ho & Hd).
  unfold lift. cbn [PopEvpi.x PopEvpi.y PopEvpi.f]. auto 6.
Qed.

Lemma lift_value (dat : Data) (v : Pop.Vars) :
  PopEvpi.EV dat (lift v) = Pop.EV dat v.
Proof. reflexivity. Qed.

(** EVM is the value of a feasible plan of [pop.mod], so it cannot exceed
    the optimum; weights must be non-negative for the plan to be feasible. *)
Lemma EVM_le_EVSS (pr : Prices) (sc : dict Scenario) (a : Pop.Vars) :
  NoDup (Dict.keys sc) ->
  Forall (fun s => 0 <= probability s) (Dict.values sc) ->
  LP.optimal (Pop.model pr (set_data (from_dict_T sc))) a ->
  EVM pr (from_dict_T sc) <= Pop.EV (set_data (from_dict_T sc)) a.
Proof.
  intros Hnd Hp [Fa Ha].
  assert (Hp' : forall k v, In (k, v) sc -> 0 <= probability v).
  { intros k v Hin. rewrite Forall_forall in Hp. apply Hp.
    unfold Dict.values. change v with (snd (k, v)). now apply in_map. }
  pose proof (demand_nonneg_of_feasible pr sc a Hnd Fa) as Hd.
  specialize (Ha _ (evm_plan_feasible pr sc Hnd Hp' Hd)).
  simpl in Ha. rewrite evm_plan_value in Ha by exact Hnd. exact Ha.
Qed.

(** Indexing the order by the scenario relaxes the here-and-now model. *)
Lemma EVSS_le_EVPI (pr : Prices) (dat : Data)
      (a : Pop.Vars) (b : PopEvpi.Vars) :
  LP.optimal (Pop.model pr dat) a ->
  LP.optimal (PopEvpi.model pr dat) b ->
  Pop.EV dat a <= PopEvpi.EV dat b.
Proof.
  intros [Fa _] [_ Hb].
  specialize (Hb _ (lift_feasible pr dat a Fa)).
  simpl in Hb. rewrite lift_value in Hb. exact Hb.
Qed.

(** *** A scenario set with one scenario *)

Definition single (name : string) (dmd : Q) : list (string * Scenario) :=
  [ (name, {| probability := 1; demand := dmd |}) ].

Section SingleScenario.
Variables (pr : Prices) (name : string) (dmd : Q).
Hypothesis salvage_below_cost : w pr <= c pr.
Hypothesis cost_below_price : c pr <= r pr.

Let sc : dict Scenario := Dict.literal (single name dmd).
Let df : DataFrame := from_dict_T sc.
Let dat : Data := set_data df.

Lemma single_rows : sc = single name dmd.
Proof. reflexivity. Qed.

Lemma single_params : S dat = [name] /\ p dat name = 1 /\ d dat name = dmd.
Proof.
  assert (Hnd : NoDup (Dict.keys sc)) by apply Dict.NoDup_keys_literal.
  assert (Hin : In (name, {| probability := 1; demand := dmd |}) sc)
    by (now left).
  split; [reflexivity|]. split.
  - apply (p_row sc name _ Hnd Hin).
  - apply (d_row sc name _ Hnd Hin).
Qed.

Lemma single_EVM : EVM pr df == (r pr - c pr) * dmd.
Proof.
  unfold df. rewrite EVM_rows, expected_demand_rows, single_rows.
  cbn [single map fst snd probability demand].
  unfold row_profit.
  set (e := sum [1 * dmd]).
  assert (He : e == dmd) by (unfold e; rewrite sum_cons, sum_nil; ring).
  assert (Hm : Qmin dmd e == dmd)
    by (apply Q.min_l; rewrite He; apply Qle_refl).
  rewrite sum_cons, sum_nil, Hm, He. ring.
Qed.

Lemma single_EVPI_le (b : PopEvpi.Vars) :
  LP.feasible (PopEvpi.model pr dat) b ->
  PopEvpi.EV dat b <= (r pr - c pr) * dmd.
Proof.
  destruct single_params as (HS & Hp & Hd).
  rewrite PopEvpi_feasible_iff, PopEvpi_EV_sum, HS.
  intros H. destruct (H name (or_introl eq_refl)) as (Hx & Hy & Hf & Ho & Hdem).
  cbn [map]. rewrite sum_cons, sum_nil, Hp, Hf.
  rewrite Hd in Hdem.
  assert (H1 : 0 <= (c pr - w pr) * (PopEvpi.x b name - PopEvpi.y b name))
    by (apply Qmult_le_0_compat; lra).
  assert (H2 : 0 <= (r pr - c pr) * (dmd - PopEvpi.y b name))
    by (apply Qmult_le_0_compat; lra).
  lra.
Qed.

Lemma single_valid : valid_probabilities sc.
Proof.
  rewrite single_rows. split.
  - repeat constructor. simpl. lra.
  - cbn. reflexivity.
Qed.

(** With one scenario the three values coincide. *)
Lemma single_coincide (a : Pop.Vars) (b : PopEvpi.Vars) :
  LP.optimal (Pop.model pr dat) a ->
  LP.optimal (PopEvpi.model pr dat) b ->
  EVM pr df == Pop.EV dat a /\ Pop.EV dat a == PopEvpi.EV dat b.
Proof.
  intros Ha Hb.
  assert (Hnd : NoDup (Dict.keys sc)) by apply Dict.NoDup_keys_literal.
  pose proof (EVM_le_EVSS pr sc a Hnd (proj1 single_valid) Ha) as H1.
  pose proof (EVSS_le_EVPI pr dat a b Ha Hb) as H2.
  pose proof (single_EVPI_le b (proj1 Hb)) as H3.
  pose proof single_EVM as H4.
  fold df dat in H1. split; lra.
Qed.

(** With a non-negative demand both models have an optimal solution. *)
Lemma single_solvable :
  0 <= dmd ->
  LP.optimal (Pop.model pr dat) (plan pr dat dmd) /\
  LP.optimal (PopEvpi.model pr dat) (lift (plan pr dat dmd)).
Proof.
  intros Hdmd.
  assert (Hnd : NoDup (Dict.keys sc)) by apply Dict.NoDup_keys_literal.
  assert (Fa : LP.feasible (Pop.model pr dat) (plan pr dat dmd)).
  { apply plan_feasible; [exact Hnd | exact Hdmd |].
    intros k v [Heq|[]]. inversion Heq; subst. exact Hdmd. }
  assert (Hval : Pop.EV dat (plan pr dat dmd) == (r pr - c pr) * dmd).
  { destruct single_params as (HS & Hp & Hd).
    rewrite Pop_EV_sum, HS. cbn [map plan Pop.f].
    rewrite sum_cons, sum_nil, Hp, Hd. unfold row_profit.
    rewrite (Q.min_l dmd dmd (Qle_refl dmd)). ring. }
  assert (Hb : LP.optimal (PopEvpi.model pr dat) (lift (plan pr dat dmd))).
  { split; [now apply lift_feasible|].
    intros b Fb. cbn [LP.at_least_as_good LP.sense LP.objective PopEvpi.model].
    rewrite lift_value, Hval. now apply single_EVPI_le. }
  split; [|exact Hb].
  split; [exact Fa|].
  intros a' Fa'. cbn [LP.at_least_as_good LP.sense LP.objective Pop.model].
  destruct Hb as [_ Hb].
  specialize (Hb _ (lift_feasible pr dat a' Fa')).
  cbn [LP.at_least_as_good LP.sense LP.objective PopEvpi.model] in Hb.
  rewrite !lift_value in Hb. exact Hb.
Qed.

End SingleScenario.

(** *** The pop-up shop instance *)

Definition popup_df : DataFrame := from_dict_T scenarios.
Definition popup_data : Data := set_data popup_df.

Lemma S_popup :
  S popup_data = ["sunny skies"; "good weather"; "poor weather"]%string.
Proof. reflexivity. Qed.

Lemma p_popup :
  p popup_data "sunny skies" = 0.10 /\
  p popup_data "good weather" = 0.60 /\
  p popup_data "poor weather" = 0.30.
Proof. repeat split; reflexivity. Qed.

Lemma d_popup :
  d popup_data "sunny skies" = 650 /\
  d popup_data "good weather" = 400 /\
  d popup_data "poor weather" = 200.
Proof. repeat split; reflexivity. Qed.

(** The constraints of [pop.mod] on the instance, written out. *)
Lemma Pop_feasible_popup (v : Pop.Vars) :
  LP.feasible (Pop.model prices popup_data) v <->
  0 <= Pop.x v /\
  (0 <= Pop.y v "sunny skies" /\
   Pop.f v "sunny skies" == 40 * Pop.y v "sunny skies"
      + 2 * (Pop.x v - Pop.y v "sunny skies") - 12 * Pop.x v /\
   Pop.y v "sunny skies" <= Pop.x v /\ Pop.y v "sunny skies" <= 650) /\
  (0 <= Pop.y v "good weather" /\
   Pop.f v "good weather" == 40 * Pop.y v "good weather"
      + 2 * (Pop.x v - Pop.y v "good weather") - 12 * Pop.x v /\
   Pop.y v "good weather" <= Pop.x v /\ Pop.y v "good weather" <= 400) /\
  (0 <= Pop.y v "poor weather" /\
   Pop.f v "poor weather" == 40 * Pop.y v "poor weather"
      + 2 * (Pop.x v - Pop.y v "poor weather") - 12 * Pop.x v /\
   Pop.y v "poor weather" <= Pop.x v /\ Pop.y v "poor weather" <= 200).
Proof.
  rewrite Pop_feasible_iff, S_popup.
  destruct d_popup as (d1 & d2 & d3).
  split.
  - intros [Hx H]. split; [exact Hx|].
    pose proof (H "sunny skies"%string (or_introl eq_refl)) as H1.
    pose proof (H "good weather"%string (or_intror (or_introl eq_refl))) as H2.
    pose proof (H "poor weather"%string
                  (or_intror (or_intror (or_introl eq_refl)))) as H3.
    rewrite d1 in H1. rewrite d2 in H2. rewrite d3 in H3.
    exact (conj H1 (conj H2 H3)).
  - intros (Hx & H1 & H2 & H3). split; [exact Hx|].
    intros s [<-|[<-|[<-|[]]]].
    + rewrite d1. exact H1.
    + rewrite d2. exact H2.
    + rewrite d3. exact H3.
Qed.

Lemma Pop_EV_popup (v : Pop.Vars) :
  Pop.EV popup_data v
  == 0.10 * Pop.f v "sunny skies" + 0.60 * Pop.f v "good weather"
     + 0.30 * Pop.f v "poor weather".
Proof.
  rewrite Pop_EV_sum, S_popup.
  destruct p_popup as (p1 & p2 & p3).
  cbn [map]. rewrite p1, p2, p3, !sum_cons, sum_nil. lra.
Qed.

Lemma PopEvpi_feasible_popup (v : PopEvpi.Vars) :
  LP.feasible (PopEvpi.model prices popup_data) v <->
  (0 <= PopEvpi.x v "sunny skies" /\ 0 <= PopEvpi.y v "sunny skies" /\
   PopEvpi.f v "sunny skies" == 40 * PopEvpi.y v "sunny skies"
      + 2 * (PopEvpi.x v "sunny skies" - PopEvpi.y v "sunny skies")
      - 12 * PopEvpi.x v "sunny skies" /\
   PopEvpi.y v "sunny skies" <= PopEvpi.x v "sunny skies" /\
   PopEvpi.y v "sunny skies" <= 650) /\
  (0 <= PopEvpi.x v "good weather" /\ 0 <= PopEvpi.y v "good weather" /\
   PopEvpi.f v "good weather" == 40 * PopEvpi.y v "good weather"
      + 2 * (PopEvpi.x v "good weather" - PopEvpi.y v "good weather")
      - 12 * PopEvpi.x v "good weather" /\
   PopEvpi.y v "good weather" <= PopEvpi.x v "good weather" /\
   PopEvpi.y v "good weather" <= 400) /\
  (0 <= PopEvpi.x v "poor weather" /\ 0 <= PopEvpi.y v "poor weather" /\
   PopEvpi.f v "poor weather" == 40 * PopEvpi.y v "poor weather"
      + 2 * (PopEvpi.x v "poor weather" - PopEvpi.y v "poor weather")
      - 12 * PopEvpi.x v "poor weather" /\
   PopEvpi.y v "poor weather" <= PopEvpi.x v "poor weather" /\
   PopEvpi.y v "poor weather" <= 200).
Proof.
  rewrite PopEvpi_feasible_iff, S_popup.
  destruct d_popup as (d1 & d2 & d3).
  split.
  - intros H.
    pose proof (H "sunny skies"%string (or_introl eq_refl)) as H1.
    pose proof (H "good weather"%string (or_intror (or_introl eq_refl))) as H2.
    pose proof (H "poor weather"%string
                  (or_intror (or_intror (or_introl eq_refl)))) as H3.
    rewrite d1 in H1. rewrite d2 in H2. rewrite d3 in H3.
    exact (conj H1 (conj H2 H3)).
  - intros (H1 & H2 & H3).
    intros s [<-|[<-|[<-|[]]]].
    + rewrite d1. exact H1.
    + rewrite d2. exact H2.
    + rewrite d3. exact H3.
Qed.

Lemma PopEvpi_EV_popup (v : PopEvpi.Vars) :
  PopEvpi.EV popup_data v
  == 0.10 * PopEvpi.f v "sunny skies" + 0.60 * PopEvpi.f v "good weather"
     + 0.30 * PopEvpi.f v "poor weather".
Proof.
  rewrite PopEvpi_EV_sum, S_popup.
  destruct p_popup as (p1 & p2 & p3).
  cbn [map]. rewrite p1, p2, p3, !sum_cons, sum_nil. lra.
Qed.

(** The here-and-now optimum of the instance: order 400 items. *)
Definition evss_plan : Pop.Vars := plan prices popup_data 400.

Lemma evss_plan_values :
  Pop.x evss_plan = 400 /\
  (Pop.y evss_plan "sunny skies" = 400 /\
   Pop.y evss_plan "good weather" = 400 /\
   Pop.y evss_plan "poor weather" = 200) /\
  (Pop.f evss_plan "sunny skies" == 11200 /\
   Pop.f evss_plan "good weather" == 11200 /\
   Pop.f evss_plan "poor weather" == 3600).
Proof. repeat split; vm_compute; reflexivity. Qed.

Lemma evss_plan_optimal : LP.optimal (Pop.model prices popup_data) evss_plan.
Proof.
  destruct evss_plan_values as (Hx & (Hy1 & Hy2 & Hy3) & (Hf1 & Hf2 & Hf3)).
  split.
  - apply Pop_feasible_popup.
    rewrite Hx, Hy1, Hy2, Hy3, Hf1, Hf2, Hf3. lra.
  - intros b Hb. apply Pop_feasible_popup in Hb.
    cbn [LP.at_least_as_good LP.sense LP.objective Pop.model].
    rewrite !Pop_EV_popup, Hf1, Hf2, Hf3. lra.
Qed.

Lemma evss_plan_value : Pop.EV popup_data evss_plan == 8920.
Proof.
  destruct evss_plan_values as (_ & _ & (Hf1 & Hf2 & Hf3)).
  rewrite Pop_EV_popup, Hf1, Hf2, Hf3. lra.
Qed.

(** The perfect-information optimum of the instance. *)
Definition evpi_plan : PopEvpi.Vars := hindsight_plan prices popup_data.

Lemma evpi_plan_values :
  (PopEvpi.x evpi_plan "sunny skies" = 650 /\
   PopEvpi.x evpi_plan "good weather" = 400 /\
   PopEvpi.x evpi_plan "poor weather" = 200) /\
  (PopEvpi.y evpi_plan "sunny skies" = 650 /\
   PopEvpi.y evpi_plan "good weather" = 400 /\
   PopEvpi.y evpi_plan "poor weather" = 200) /\
  (PopEvpi.f evpi_plan "sunny skies" == 18200 /\
   PopEvpi.f evpi_plan "good weather" == 11200 /\
   PopEvpi.f evpi_plan "poor weather" == 5600).
Proof. repeat split; vm_compute; reflexivity. Qed.

Lemma evpi_plan_optimal :
  LP.optimal (PopEvpi.model prices popup_data) evpi_plan.
Proof.
  destruct evpi_plan_values
    as ((Hx1 & Hx2 & Hx3) & (Hy1 & Hy2 & Hy3) & (Hf1 & Hf2 & Hf3)).
  split.
  - apply PopEvpi_feasible_popup.
    rewrite Hx1, Hx2, Hx3, Hy1, Hy2, Hy3, Hf1, Hf2, Hf3. lra.
  - intros b Hb. apply PopEvpi_feasible_popup in Hb.
    cbn [LP.at_least_as_good LP.sense LP.objective PopEvpi.model].
    rewrite !PopEvpi_EV_popup, Hf1, Hf2, Hf3. lra.
Qed.

Lemma evpi_plan_value : PopEvpi.EV popup_data evpi_plan == 10220.
Proof.
  destruct evpi_plan_values as (_ & _ & (Hf1 & Hf2 & Hf3)).
  rewrite PopEvpi_EV_popup, Hf1, Hf2, Hf3. lra.
Qed.

Lemma scenarios_valid : valid_probabilities scenarios.
Proof.
  split.
  - repeat constructor; simpl; lra.
  - vm_compute. reflexivity.
Qed.

(** *** The instance as an integer program *)

Lemma scenarios_rows : scenarios = scenarios_items.
Proof. reflexivity. Qed.

Lemma scenarios_demand_nonneg (k : string) (v : Scenario) :
  In (k, v) scenarios -> 0 <= demand v.
Proof.
  rewrite scenarios_rows.
  intros [H|[H|[H|[]]]]; inversion H; subst; simpl; lra.
Qed.

Lemma optimal_is_evss_plan (v : Pop.Vars) :
  LP.optimal (Pop.model prices popup_data) v -> same_on popup_data v evss_plan.
Proof.
  intros Hv.
  pose proof (LP.optimal_objective_unique _ _ _ Hv evss_plan_optimal) as Hobj.
  cbn [LP.objective Pop.model] in Hobj.
  rewrite evss_plan_value, Pop_EV_popup in Hobj.
  destruct Hv as [Fv _]. apply Pop_feasible_popup in Fv.
  destruct evss_plan_values as (Hx & (Hy1 & Hy2 & Hy3) & (Hf1 & Hf2 & Hf3)).
  unfold same_on. rewrite S_popup, Hx.
  split; [lra|].
  repeat constructor.
  - rewrite Hy1. lra.
  - rewrite Hf1. lra.
  - rewrite Hy2. lra.
  - rewrite Hf2. lra.
  - rewrite Hy3. lra.
  - rewrite Hf3. lra.
Qed.

Lemma integral_proper (u v : Q) : u == v -> integral v -> integral u.
Proof. intros Huv [z Hz]. exists z. now rewrite Huv. Qed.

Lemma evss_plan_integral :
  integral (Pop.x evss_plan) /\
  Forall (fun s => integral (Pop.y evss_plan s)) (S popup_data).
Proof.
  destruct evss_plan_values as (Hx & (Hy1 & Hy2 & Hy3) & _).
  rewrite S_popup, Hx. split; [now exists 400%Z|].
  repeat constructor.
  - rewrite Hy1. now exists 400%Z.
  - rewrite Hy2. now exists 400%Z.
  - rewrite Hy3. now exists 200%Z.
Qed.

Lemma evss_plan_integer_optimal :
  LP.optimal (pop_integer_model prices popup_data) evss_plan.
Proof.
  destruct evss_plan_optimal as [Fa Ha].
  split.
  - split; [exact Fa | exact evss_plan_integral].
  - intros b [Fb _]. exact (Ha b Fb).
Qed.

(** On the instance the two formulations have the same optimal solutions. *)
Lemma relaxation_equivalent (v : Pop.Vars) :
  LP.optimal (Pop.model prices popup_data) v <->
  LP.optimal (pop_integer_model prices popup_data) v.
Proof.
  split.
  - intros Hv. pose proof (optimal_is_evss_plan v Hv) as [Hx Hy].
    destruct evss_plan_integral as [Ix Iy].
    destruct Hv as [Fv Hv].
    split.
    + split; [exact Fv|]. split.
      * exact (integral_proper _ _ Hx Ix).
      * rewrite Forall_forall in *. intros s Hs.
        destruct (Hy s Hs) as [Hys _].
        exact (integral_proper _ _ Hys (Iy s Hs)).
    + intros b [Fb _]. exact (Hv b Fb).
  - intros [[Fv _] Hv]. split; [exact Fv|].
    intros b Fb.
    destruct evss_plan_optimal as [_ Ha].
    specialize (Ha b Fb).
    specialize (Hv evss_plan (proj1 evss_plan_integer_optimal)).
    cbn [LP.at_least_as_good LP.sense LP.objective Pop.model pop_integer_model]
      in *.
    lra.
Qed.

(** The variables of [pop.mod] are not restricted to integers: ordering
    half an item is feasible. *)
Lemma half_order_feasible :
  LP.feasible (Pop.model prices popup_data) (plan prices popup_data (1 # 2))
  /\ ~ integral (Pop.x (plan prices popup_data (1 # 2))).
Proof.
  split.
  - apply (plan_feasible prices scenarios (1 # 2)).
    + apply Dict.NoDup_keys_literal.
    + lra.
    + exact scenarios_demand_nonneg.
  - cbn [plan Pop.x]. intros [z Hz].
    unfold Qeq, inject_Z in Hz. simpl in Hz. lia.
Qed.

(** *** The instances of a constraint family *)







(** *** What the reports contain *)



Lemma evm_report_metric (pr : Prices) (sc : dict Scenario) :
  metric_lines (evm_report pr sc)
  = [[Text "Expected value of the mean demand (EVM) =";
      Number (EVM pr (from_dict_T sc))]].
Proof. reflexivity. Qed.


(** The stated integer program has the same optimal order, 400, but
    another optimal value: its profit differs from that of [pop.mod] by
    [w (d_s - x)] in every scenario. *)
Definition stated_plan : Pop.Vars :=
  {| Pop.x := 400;
     Pop.y := fun s => Qmin (d popup_data s) 400;
     Pop.f := fun s => 40 * Qmin (d popup_data s) 400
                       + 2 * (d popup_data s - Qmin (d popup_data s) 400)
                       - 12 * 400 |}.

Lemma integer_model_value :
  LP.optimal (integer_model prices popup_data) stated_plan /\
  Pop.EV popup_data stated_plan == 8850.
Proof.
  assert (Hval : (Pop.y stated_plan "sunny skies" = 400 /\
                  Pop.y stated_plan "good weather" = 400 /\
                  Pop.y stated_plan "poor weather" = 200) /\
                 (Pop.f stated_plan "sunny skies" == 11700 /\
                  Pop.f stated_plan "good weather" == 11200 /\
                  Pop.f stated_plan "poor weather" == 3200))
    by (repeat split; vm_compute; reflexivity).
  destruct Hval as ((Hy1 & Hy2 & Hy3) & (Hf1 & Hf2 & Hf3)).
  destruct d_popup as (d1 & d2 & d3).
  assert (Hobj : Pop.EV popup_data stated_plan == 8850)
    by (rewrite Pop_EV_popup, Hf1, Hf2, Hf3; lra).
  split; [|exact Hobj]. split.
  - cbn [LP.feasible integer_model]. rewrite S_popup.
    rewrite !Forall_cons_iff, Forall_nil_iff.
    rewrite Hy1, Hy2, Hy3, Hf1, Hf2, Hf3, d1, d2, d3.
    cbn [Pop.x stated_plan prices r c w].
    assert (integral 400) by (now exists 400%Z).
    assert (integral 200) by (now exists 200%Z).
    repeat split; try assumption; lra.
  - intros v Fv.
    cbn [LP.at_least_as_good LP.sense LP.objective integer_model].
    rewrite Hobj, Pop_EV_popup.
    cbn [LP.feasible integer_model] in Fv. rewrite S_popup in Fv.
    rewrite !Forall_cons_iff, Forall_nil_iff, d1, d2, d3 in Fv.
    cbn [prices r c w] in Fv.
    destruct Fv as ((_ & Hx) & ((_ & Hy1') & Hf1' & Ho1 & Hd1)
                    & ((_ & Hy2') & Hf2' & Ho2 & Hd2)
                    & ((_ & Hy3') & Hf3' & Ho3 & Hd3) & _).
    lra.
Qed.

(** Every optimal solution of the stated integer program orders 400 and
    has the value 8850. *)
Lemma integer_model_optimum (v : Pop.Vars) :
  LP.optimal (integer_model prices popup_data) v ->
  Pop.x v == 400 /\ Pop.EV popup_data v == 8850.
Proof.
  intros Hv.
  pose proof (LP.optimal_objective_unique _ _ _ Hv (proj1 integer_model_value))
    as Hobj.
  cbn [LP.objective integer_model] in Hobj.
  rewrite (proj2 integer_model_value) in Hobj.
  split; [|exact Hobj].
  rewrite Pop_EV_popup in Hobj.
  destruct Hv as [Fv _].
  destruct d_popup as (d1 & d2 & d3).
  cbn [LP.feasible integer_model] in Fv. rewrite S_popup in Fv.
  rewrite !Forall_cons_iff, Forall_nil_iff, d1, d2, d3 in Fv.
  cbn [prices r c w] in Fv.
  destruct Fv as ((_ & Hx) & ((_ & Hy1) & Hf1 & Ho1 & Hd1)
                  & ((_ & Hy2) & Hf2 & Ho2 & Hd2)
                  & ((_ & Hy3) & Hf3 & Ho3 & Hd3) & _).
  apply Qle_antisym; lra.
Qed.

(** The optimal solution of [pop.mod] does not satisfy the profit
    constraint of the stated integer program. *)
Lemma evss_plan_not_stated :
  ~ LP.feasible (integer_model prices popup_data) evss_plan.
Proof.
  intros Fv.
  destruct evss_plan_values as (Hx & (Hy1 & _) & (Hf1 & _)).
  destruct d_popup as (d1 & _).
  cbn [LP.feasible integer_model] in Fv. rewrite S_popup in Fv.
  rewrite Forall_cons_iff, d1, Hy1, Hx, Hf1 in Fv.
  cbn [prices r c w] in Fv.
  destruct Fv as (_ & (_ & Hf & _) & _). lra.
Qed.

Example expected_demand_popup :
  expected_demand (from_dict_T scenarios) == 365.
Proof. vm_compute. reflexivity. Qed.

Example EVM_popup : EVM prices (from_dict_T scenarios) == 8339.
Proof. vm_compute. reflexivity. Qed.

End PopUpShop.

(* ------------------------------------------------------------------ *)
(** ** BIM production planning and its dual *)

Module Bim.

(** [var x1 >= 0; var x2 >= 0;] *)
Record Vars := {
  x1 : Q;
  x2 : Q
}.

(** [maximize profit: 12 * x1 + 9 * x2;] *)
Definition profit (v : Vars) : Q := 12 * x1 v + 9 * x2 v.

Definition silicon (v : Vars) : Prop := x1 v <= 1000.
Definition germanium (v : Vars) : Prop := x2 v <= 1500.
Definition plastic (v : Vars) : Prop := x1 v + x2 v <= 1750.
Definition copper (v : Vars) : Prop := 4 * x1 v + 2 * x2 v <= 4800.

Definition model : LP.Model Vars :=
  {| LP.sense := LP.maximize;
     LP.objective := profit;
     LP.feasible := fun v =>
       (0 <= x1 v /\ 0 <= x2 v) /\
       silicon v /\ germanium v /\ plastic v /\ copper v |}.

Definition same (u v : Vars) : Prop := x1 u == x1 v /\ x2 u == x2 v.

(** The production plan printed by the notebook. *)
Definition plan : Vars := {| x1 := 650; x2 := 1100 |}.

(** [bim_dual.mod] *)
Module Dual.

(** [var y1 >= 0; ... var y4 >= 0;] *)
Record Vars := {
  y1 : Q;
  y2 : Q;
  y3 : Q;
  y4 : Q
}.

(** [minimize obj: 1000 * y1 + 1500 * y2 + 1750 * y3 + 4800 * y4;] *)
Definition obj (v : Vars) : Q :=
  1000 * y1 v + 1500 * y2 v + 1750 * y3 v + 4800 * y4 v.

(** [s.t. x1: y1 + y3 + 4 * y4 >= 12;] *)
Definition x1 (v : Vars) : Prop := 12 <= y1 v + y3 v + 4 * y4 v.
(** [s.t. x2: y2 + y3 + 2 * y4 >= 9;] *)
Definition x2 (v : Vars) : Prop := 9 <= y2 v + y3 v + 2 * y4 v.

Definition model : LP.Model Vars :=
  {| LP.sense := LP.minimize;
     LP.objective := obj;
     LP.feasible := fun v =>
       (0 <= y1 v /\ 0 <= y2 v /\ 0 <= y3 v /\ 0 <= y4 v) /\
       x1 v /\ x2 v |}.

(** The multipliers printed by the notebook. *)
Definition multipliers : Vars := {| y1 := 0; y2 := 0; y3 := 6; y4 := 1.5 |}.

End Dual.

Lemma plan_unique_optimum : LP.unique_optimum same model plan.
Proof.
  split.
  - cbv [LP.feasible model silicon germanium plastic copper plan x1 x2]. lra.
  - intros b Fb Hb.
    cbv [LP.feasible LP.objective LP.sense LP.at_least_as_good model
         silicon germanium plastic copper profit plan same x1 x2] in *.
    destruct b as [b1 b2]. lra.
Qed.

Lemma plan_optimal : LP.optimal model plan.
Proof.
  split.
  - exact (proj1 plan_unique_optimum).
  - intros b Fb.
    cbv [LP.feasible LP.objective LP.sense LP.at_least_as_good model
         silicon germanium plastic copper profit plan x1 x2] in *.
    destruct b as [b1 b2]. lra.
Qed.

Lemma multipliers_optimal : LP.optimal Dual.model Dual.multipliers.
Proof.
  split.
  - cbv [LP.feasible Dual.model Dual.x1 Dual.x2 Dual.multipliers
         Dual.y1 Dual.y2 Dual.y3 Dual.y4]. lra.
  - intros b Fb.
    cbv [LP.feasible LP.objective LP.sense LP.at_least_as_good Dual.model
         Dual.x1 Dual.x2 Dual.obj Dual.multipliers
         Dual.y1 Dual.y2 Dual.y3 Dual.y4] in *.
    destruct b as [b1 b2 b3 b4]. lra.
Qed.

End Bim.

(* ------------------------------------------------------------------ *)
(** ** LAD regression: [lad_regression.mod] and [lad_regression(X, y)] *)

Module Lad.
Import Series.

(** The arrays passed to [lad_regression]: [X] as its rows, [y] as a
    vector.  [X.shape] is [(n, k)]. *)
Definition shape (X : list (list Q)) : nat * nat :=
  (List.length X, match X with [] => O | row :: _ => List.length row end).

(** [set I; set J; param y{I}; param X{I, J};] *)
Record Data := {
  I : list nat;
  J : list nat;
  y : nat -> Q;
  X : nat -> nat -> Q
}.

(** The data set by [lad_regression]: [I = range(n)], [J = range(k)],
    zero-based. *)
Definition bind (Xs : list (list Q)) (ys : list Q) : Data :=
  let (n, k) := shape Xs in
  {| I := seq 0 n;
     J := seq 0 k;
     y := fun i => nth i ys 0;
     X := fun i j => nth j (nth i Xs []) 0 |}.

(** [var ep{I} >= 0; var em{I} >= 0; var m{J} >= 0; var b;] *)
Record Vars := {
  ep : nat -> Q;
  em : nat -> Q;
  m : nat -> Q;
  b : Q
}.

(** [s.t. residuals {i in I}:
       ep[i] - em[i] == y[i] - sum{j in J}(X[i, j] * m[j]) - b;] *)
Definition residuals (dat : Data) (v : Vars) (i : nat) : Prop :=
  ep v i - em v i
  == y dat i - sum (map (fun j => X dat i j * m v j) (J dat)) - b v.

(** [minimize sum_of_abs_errors: sum{i in I}(ep[i] + em[i]);] *)
Definition sum_of_abs_errors (dat : Data) (v : Vars) : Q :=
  sum (map (fun i => ep v i + em v i) (I dat)).

Definition model (dat : Data) : LP.Model Vars :=
  {| LP.sense := LP.minimize;
     LP.objective := sum_of_abs_errors dat;
     LP.feasible := fun v =>
       Forall (fun i => 0 <= ep v i) (I dat) /\
       Forall (fun i => 0 <= em v i) (I dat) /\
       Forall (fun j => 0 <= m v j) (J dat) /\
       Forall (residuals dat v) (I dat) |}.

(** [lad_regression(X, y)] returns the AMPL object after the solve: any
    result the solver may report for the model bound to [(X, y)]. *)
Definition lad_regression (Xs : list (list Q)) (ys : list Q)
           (res : LP.SolveResult Vars) : Prop :=
  LP.solved (model (bind Xs ys)) res.

(** The formulation of the accompanying text: the same problem with real
    coefficients [m_1, ..., m_k], that is, without [m >= 0]. *)
Definition text_model (dat : Data) : LP.Model Vars :=
  {| LP.sense := LP.minimize;
     LP.objective := sum_of_abs_errors dat;
     LP.feasible := fun v =>
       Forall (fun i => 0 <= ep v i) (I dat) /\
       Forall (fun i => 0 <= em v i) (I dat) /\
       Forall (residuals dat v) (I dat) |}.

(** Two results assign the same values to the variables of the model. *)
Definition same_assignment (dat : Data) (u v : Vars) : Prop :=
  Forall (fun i => ep u i == ep v i /\ em u i == em v i) (I dat) /\
  Forall (fun j => m u j == m v j) (J dat) /\
  b u == b v.

(** *** Two points on a falling line: [(0, 1)] and [(1, 0)] *)
Definition falling_X : list (list Q) := [[0]; [1]].
Definition falling_y : list Q := [1; 0].
Definition falling : Data := bind falling_X falling_y.

(** *** One observation with a zero regressor *)
Definition flat_X : list (list Q) := [[0]].
Definition flat_y : list Q := [0].
Definition flat : Data := bind flat_X flat_y.

Definition fit (slope intercept : Q) (e_plus e_minus : nat -> Q) : Vars :=
  {| ep := e_plus; em := e_minus; m := fun _ => slope; b := intercept |}.

Lemma slopes_nonneg (dat : Data) (v : Vars) :
  LP.feasible (model dat) v -> forall j, In j (J dat) -> 0 <= m v j.
Proof.
  intros (_ & _ & Hm & _) j Hj. rewrite Forall_forall in Hm. now apply Hm.
Qed.

Lemma falling_feasible_iff (v : Vars) :
  LP.feasible (model falling) v <->
  (0 <= ep v 0%nat /\ 0 <= ep v 1%nat) /\
  (0 <= em v 0%nat /\ 0 <= em v 1%nat) /\
  0 <= m v 0%nat /\
  ep v 0%nat - em v 0%nat == 1 - 0 * m v 0%nat - b v /\
  ep v 1%nat - em v 1%nat == 0 - 1 * m v 0%nat - b v.
Proof.
  cbn [LP.feasible model falling bind shape falling_X falling_y List.length seq
       I J].
  unfold residuals.
  cbn [falling bind shape falling_X falling_y List.length seq I J X y nth map].
  rewrite !Forall_cons_iff, !Forall_nil_iff. cbn [nth].
  rewrite !sum_cons, !sum_nil.
  intuition lra.
Qed.

Lemma falling_text_feasible_iff (v : Vars) :
  LP.feasible (text_model falling) v <->
  (0 <= ep v 0%nat /\ 0 <= ep v 1%nat) /\
  (0 <= em v 0%nat /\ 0 <= em v 1%nat) /\
  ep v 0%nat - em v 0%nat == 1 - 0 * m v 0%nat - b v /\
  ep v 1%nat - em v 1%nat == 0 - 1 * m v 0%nat - b v.
Proof.
  cbn [LP.feasible text_model falling bind shape falling_X falling_y
       List.length seq I J].
  unfold residuals.
  cbn [falling bind shape falling_X falling_y List.length seq I J X y nth map].
  rewrite !Forall_cons_iff, !Forall_nil_iff. cbn [nth].
  rewrite !sum_cons, !sum_nil.
  intuition lra.
Qed.

Lemma falling_objective (v : Vars) :
  sum_of_abs_errors falling v
  == ep v 0%nat + em v 0%nat + (ep v 1%nat + em v 1%nat).
Proof.
  unfold sum_of_abs_errors.
  cbn [falling bind shape falling_X List.length seq I map].
  rewrite !sum_cons, !sum_nil. lra.
Qed.

(** The fit the implemented model reaches on the falling line: slope 0,
    intercept 1, the second point one unit above the line. *)
Definition falling_fit : Vars :=
  fit 0 1 (fun _ => 0) (fun i => if Nat.eqb i 1 then 1 else 0).

(** The fit of the text's formulation: the line through both points. *)
Definition falling_line : Vars := fit (-1) 1 (fun _ => 0) (fun _ => 0).

Lemma falling_fit_optimal : LP.optimal (model falling) falling_fit.
Proof.
  split.
  - apply falling_feasible_iff. cbn. lra.
  - intros v Fv. apply falling_feasible_iff in Fv.
    cbn [LP.at_least_as_good LP.sense LP.objective model].
    rewrite !falling_objective. cbn. lra.
Qed.

Lemma falling_line_optimal : LP.optimal (text_model falling) falling_line.
Proof.
  split.
  - apply falling_text_feasible_iff. cbn. lra.
  - intros v Fv. apply falling_text_feasible_iff in Fv.
    cbn [LP.at_least_as_good LP.sense LP.objective text_model].
    rewrite !falling_objective. cbn. lra.
Qed.

Lemma falling_text_optimum (v : Vars) :
  LP.optimal (text_model falling) v ->
  m v 0%nat == -1 /\ b v == 1 /\ sum_of_abs_errors falling v == 0.
Proof.
  intros Hv.
  pose proof (LP.optimal_objective_unique _ _ _ Hv falling_line_optimal)
    as Hobj.
  cbn [LP.objective text_model] in Hobj.
  rewrite !falling_objective in *.
  destruct Hv as [Fv _]. apply falling_text_feasible_iff in Fv.
  cbn in Hobj. repeat split; lra.
Qed.

Lemma falling_model_optimum (v : Vars) :
  LP.optimal (model falling) v ->
  0 <= m v 0%nat /\ sum_of_abs_errors falling v == 1.
Proof.
  intros Hv.
  pose proof (LP.optimal_objective_unique _ _ _ Hv falling_fit_optimal)
    as Hobj.
  cbn [LP.objective model] in Hobj.
  rewrite !falling_objective in *.
  destruct Hv as [Fv _]. apply falling_feasible_iff in Fv.
  cbn in Hobj. repeat split; lra.
Qed.

(** On the flat data set every slope fits equally well. *)
Lemma flat_optimal (slope : Q) :
  0 <= slope ->
  LP.optimal (model flat) (fit slope 0 (fun _ => 0) (fun _ => 0)).
Proof.
  intros Hs.
  assert (Hobj : forall v, sum_of_abs_errors flat v
                           == ep v 0%nat + em v 0%nat).
  { intros v. unfold sum_of_abs_errors.
    cbn [flat bind shape flat_X List.length seq I map].
    rewrite !sum_cons, !sum_nil. lra. }
  split.
  - cbn [LP.feasible model flat bind shape flat_X flat_y List.length seq I J].
    unfold residuals.
    cbn [flat bind shape flat_X flat_y List.length seq I J X y nth map].
    rewrite !Forall_cons_iff, !Forall_nil_iff. cbn [nth].
    rewrite !sum_cons, !sum_nil. cbn. intuition lra.
  - intros v (Hp & Hm & _).
    cbn [LP.at_least_as_good LP.sense LP.objective model].
    rewrite !Hobj.
    cbn [flat bind shape flat_X List.length seq I] in Hp, Hm.
    rewrite !Forall_cons_iff in Hp, Hm. cbn. lra.
Qed.

End Lad.

(* ------------------------------------------------------------------ *)
(** ** Economic dispatch with participation factors: the objective of
       [opf_ldr.mod] and the scenario glue *)

Module Opf.
Import Series.

(** One sampled scenario: the imbalance of every node, a Python dict
    keyed by node id. *)
Definition Imbalance := list (Z * Q).

(** [totalimbalances = {t: sum(imbalances[t].values()) ...}] *)
Definition totalimbalances (imbalances : list Imbalance) (t : nat) : Q :=
  sum (map snd (nth t imbalances [])).

(** [abstotalimbalances = {t: abs(totalimbalances[t]) ...}] *)
Definition abstotalimbalances (imbalances : list Imbalance) (t : nat) : Q :=
  Qabs (totalimbalances imbalances t).

(** The nodes table: the columns of [nodes_df] the objective reads. *)
Record Nodes := {
  V : list Z;
  is_generator : Z -> Q;
  energy_type : Z -> string;
  c : Z -> Q
}.

(** The sets and parameters of [opf_ldr.mod] the objective reads. *)
Record Data := {
  nodes : Nodes;
  T : list nat;
  abs_total_imbalance : nat -> Q
}.

(** [param nT := card(T);] *)
Definition nT (dat : Data) : Q := inject_Z (Z.of_nat (List.length (T dat))).

(** The data bound by [OPF_participationfactors(network, imbalances,
    totalimbalances, abstotalimbalances)]:
    [ampl.set["T"] = list(range(nimbalances))] with
    [nimbalances = len(imbalances)], and
    [ampl.param["abs_total_imbalance"] = abstotalimbalances]. *)
Definition bind (net : Nodes) (imbalances : list Imbalance)
           (abstotal : nat -> Q) : Data :=
  {| nodes := net;
     T := seq 0 (List.length imbalances);
     abs_total_imbalance := abstotal |}.

(** The call of the notebook on the sampled scenarios. *)
Definition bind_samples (net : Nodes) (imbalances : list Imbalance) : Data :=
  bind net imbalances (abstotalimbalances imbalances).

(** The variables the objective mentions:
    [var p{i in V} >= p_min[i], <= p_max[i]; var alpha{V} >= 0, <= 1;] *)
Record Vars := {
  p : Z -> Q;
  alpha : Z -> Q
}.

(** [{i in V: is_generator[i] == 1}] *)
Definition generators (net : Nodes) : list Z :=
  filter (fun i => Qeq_bool (is_generator net i) 1) (V net).

(** [{i in V: energy_type[i] == "coal" or energy_type[i] == "gas"}] *)
Definition conventional (net : Nodes) : list Z :=
  filter (fun i => String.eqb (energy_type net i) "coal"
                   || String.eqb (energy_type net i) "gas")%bool (V net).

(** [sum{i in V: is_generator[i] == 1} c[i] * p[i]] *)
Definition first_stage (dat : Data) (v : Vars) : Q :=
  sum (map (fun i => c (nodes dat) i * p v i) (generators (nodes dat))).

(** [sum{t in T, i in V: ...} 2 * c[i] * alpha[i] * abs_total_imbalance[t]],
    [t] in the outer position. *)
Definition second_stage_total (dat : Data) (v : Vars) : Q :=
  sum (flat_map
         (fun t => map (fun i => 2 * c (nodes dat) i * alpha v i
                                 * abs_total_imbalance dat t)
                       (conventional (nodes dat)))
         (T dat)).

(** [minimize obj: ... + 1 / nT * sum{...} ...;]  AMPL cannot evaluate
    [1 / nT] when [T] is empty. *)
Definition obj (dat : Data) (v : Vars) : option Q :=
  if Qeq_bool (nT dat) 0 then None
  else Some (first_stage dat v + 1 / nT dat * second_stage_total dat v).

(** The recourse cost of one sampled scenario. *)
Definition scenario_cost (dat : Data) (v : Vars) (t : nat) : Q :=
  sum (map (fun i => 2 * c (nodes dat) i * alpha v i
                     * abs_total_imbalance dat t)
           (conventional (nodes dat))).

(** The weight the objective gives to every sample. *)
Definition weight (dat : Data) : Q := 1 / nT dat.

Lemma second_stage_by_scenario (dat : Data) (v : Vars) :
  second_stage_total dat v == sum (map (scenario_cost dat v) (T dat)).
Proof.
  unfold second_stage_total.
  induction (T dat) as [|t ts IH]; cbn [flat_map map].
  - reflexivity.
  - rewrite sum_app, sum_cons, IH. reflexivity.
Qed.

Lemma nT_bind (net : Nodes) (imbalances : list Imbalance)
      (abstotal : nat -> Q) :
  nT (bind net imbalances abstotal)
  = inject_Z (Z.of_nat (List.length imbalances)).
Proof. unfold nT, bind. cbn [T]. now rewrite length_seq. Qed.

Lemma nT_positive (net : Nodes) (imbalances : list Imbalance)
      (abstotal : nat -> Q) :
  imbalances <> [] -> 0 < nT (bind net imbalances abstotal).
Proof.
  intros Hne. rewrite nT_bind.
  destruct imbalances as [|im ims]; [congruence|].
  unfold Qlt, inject_Z. cbn [Qnum Qden List.length]. lia.
Qed.

End Opf.

(* ------------------------------------------------------------------ *)
(** ** Properties of the notebooks *)

(** C1.  For every scenario dictionary with non-negative weights that sum
    to one and every choice of prices, whenever the solves of [pop.mod]
    and [pop_evpi.mod] return optimal solutions, the value computed by
    the EVM cell, the objective of [pop.mod] (EVSS) and the objective of
    [pop_evpi.mod] (EVPI) satisfy EVM <= EVSS <= EVPI, so VSS and VPI are
    non-negative.  On the pop-up shop data EVM = 8339, the optimal value
    of [pop.mod] is 8920, the optimal value of [pop_evpi.mod] is 10220,
    VSS = 581 and VPI = 1300. *)
Theorem metrics_ordered :
  (forall (pr : PopUpShop.Prices)
          (items : list (string * PopUpShop.Scenario))
          (a : PopUpShop.Pop.Vars) (b : PopUpShop.PopEvpi.Vars),
      let sc := Dict.literal items in
      let df := PopUpShop.from_dict_T sc in
      let dat := PopUpShop.set_data df in
      let evm := PopUpShop.EVM pr df in
      let evss := PopUpShop.Pop.EV dat a in
      let evpi := PopUpShop.PopEvpi.EV dat b in
      PopUpShop.valid_probabilities sc ->
      LP.optimal (PopUpShop.Pop.model pr dat) a ->
      LP.optimal (PopUpShop.PopEvpi.model pr dat) b ->
      evm <= evss /\ evss <= evpi /\
      0 <= PopUpShop.VSS evss evm /\ 0 <= PopUpShop.VPI evpi evss)
  /\
  (PopUpShop.EVM PopUpShop.prices PopUpShop.popup_df == 8339.0 /\
   LP.optimal_value
     (PopUpShop.Pop.model PopUpShop.prices PopUpShop.popup_data) 8920.0 /\
   LP.optimal_value
     (PopUpShop.PopEvpi.model PopUpShop.prices PopUpShop.popup_data) 10220.0 /\
   PopUpShop.VSS 8920.0 8339.0 == 581 /\
   PopUpShop.VPI 10220.0 8920.0 == 1300).
Proof.
  split.
  - intros pr items a b sc df dat evm evss evpi [Hp _] Ha Hb.
    assert (Hnd : NoDup (Dict.keys sc)) by apply Dict.NoDup_keys_literal.
    pose proof (PopUpShop.EVM_le_EVSS pr sc a Hnd Hp Ha) as H1.
    pose proof (PopUpShop.EVSS_le_EVPI pr dat a b Ha Hb) as H2.
    subst evm evss evpi dat df.
    unfold PopUpShop.VSS, PopUpShop.VPI. repeat split; lra.
  - split; [|split; [|split; [|split]]].
    + vm_compute. reflexivity.
    + exists PopUpShop.evss_plan. split.
      * exact PopUpShop.evss_plan_optimal.
      * cbn [LP.objective PopUpShop.Pop.model].
        rewrite PopUpShop.evss_plan_value. reflexivity.
    + exists PopUpShop.evpi_plan. split.
      * exact PopUpShop.evpi_plan_optimal.
      * cbn [LP.objective PopUpShop.PopEvpi.model].
        rewrite PopUpShop.evpi_plan_value. reflexivity.
    + vm_compute. reflexivity.
    + vm_compute. reflexivity.
Qed.

(** The ordering of the metrics, applied to the pop-up shop data and the
    optimal solutions printed by the notebook. *)
Lemma metrics_ordered_popup :
  PopUpShop.EVM PopUpShop.prices PopUpShop.popup_df
  <= PopUpShop.Pop.EV PopUpShop.popup_data PopUpShop.evss_plan /\
  PopUpShop.Pop.EV PopUpShop.popup_data PopUpShop.evss_plan
  <= PopUpShop.PopEvpi.EV PopUpShop.popup_data PopUpShop.evpi_plan /\
  0 <= PopUpShop.VSS
         (PopUpShop.Pop.EV PopUpShop.popup_data PopUpShop.evss_plan)
         (PopUpShop.EVM PopUpShop.prices PopUpShop.popup_df) /\
  0 <= PopUpShop.VPI
         (PopUpShop.PopEvpi.EV PopUpShop.popup_data PopUpShop.evpi_plan)
         (PopUpShop.Pop.EV PopUpShop.popup_data PopUpShop.evss_plan).
Proof.
  exact (proj1 metrics_ordered PopUpShop.prices PopUpShop.scenarios_items
               PopUpShop.evss_plan PopUpShop.evpi_plan
               PopUpShop.scenarios_valid
               PopUpShop.evss_plan_optimal PopUpShop.evpi_plan_optimal).
Defined.

(** *** The dictionary against the display it was written as *)









(** C6.  For every scenario set with exactly one scenario, of probability
    one, and the prices of the notebook: whenever the two solves return
    optimal solutions, EVM = EVSS = EVPI and VSS = VPI = 0; and when the
    demand is non-negative both models do have an optimal solution. *)
Theorem single_scenario_metrics_coincide :
  forall (name : string) (dmd : Q),
    let sc := Dict.literal (PopUpShop.single name dmd) in
    let df := PopUpShop.from_dict_T sc in
    let dat := PopUpShop.set_data df in
    (forall (a : PopUpShop.Pop.Vars) (b : PopUpShop.PopEvpi.Vars),
        LP.optimal (PopUpShop.Pop.model PopUpShop.prices dat) a ->
        LP.optimal (PopUpShop.PopEvpi.model PopUpShop.prices dat) b ->
        let evm := PopUpShop.EVM PopUpShop.prices df in
        let evss := PopUpShop.Pop.EV dat a in
        let evpi := PopUpShop.PopEvpi.EV dat b in
        evm == evss /\ evss == evpi /\
        PopUpShop.VSS evss evm == 0 /\ PopUpShop.VPI evpi evss == 0)
    /\
    (0 <= dmd ->
     exists (a : PopUpShop.Pop.Vars) (b : PopUpShop.PopEvpi.Vars),
       LP.optimal (PopUpShop.Pop.model PopUpShop.prices dat) a /\
       LP.optimal (PopUpShop.PopEvpi.model PopUpShop.prices dat) b).
Proof.
  intros name dmd sc df dat.
  assert (Hwc : PopUpShop.w PopUpShop.prices <= PopUpShop.c PopUpShop.prices)
    by (simpl; lra).
  assert (Hcr : PopUpShop.c PopUpShop.prices <= PopUpShop.r PopUpShop.prices)
    by (simpl; lra).
  split.
  - intros a b Ha Hb evm evss evpi.
    destruct (PopUpShop.single_coincide PopUpShop.prices name dmd Hwc Hcr
                a b Ha Hb) as [H1 H2].
    subst evm evss evpi dat df sc.
    unfold PopUpShop.VSS, PopUpShop.VPI. repeat split; lra.
  - intros Hdmd.
    destruct (PopUpShop.single_solvable PopUpShop.prices name dmd Hwc Hcr Hdmd)
      as [Ha Hb].
    eexists. eexists. split; [exact Ha | exact Hb].
Qed.

(** The single-scenario statement at the "good weather" scenario alone
    (demand 400, probability 1) and its optimal plans. *)
Lemma single_scenario_good_weather :
  let dat := PopUpShop.set_data
               (PopUpShop.from_dict_T
                  (Dict.literal (PopUpShop.single "good weather" 400))) in
  let a := PopUpShop.plan PopUpShop.prices dat 400 in
  let evm := PopUpShop.EVM PopUpShop.prices
               (PopUpShop.from_dict_T
                  (Dict.literal (PopUpShop.single "good weather" 400))) in
  let evss := PopUpShop.Pop.EV dat a in
  let evpi := PopUpShop.PopEvpi.EV dat (PopUpShop.lift a) in
  evm == evss /\ evss == evpi /\
  PopUpShop.VSS evss evm == 0 /\ PopUpShop.VPI evpi evss == 0.
Proof.
  assert (Hwc : PopUpShop.w PopUpShop.prices <= PopUpShop.c PopUpShop.prices)
    by (simpl; lra).
  assert (Hcr : PopUpShop.c PopUpShop.prices <= PopUpShop.r PopUpShop.prices)
    by (simpl; lra).
  assert (Hd : 0 <= 400) by lra.
  destruct (PopUpShop.single_solvable PopUpShop.prices "good weather" 400
              Hwc Hcr Hd) as [Ha Hb].
  exact (proj1 (single_scenario_metrics_coincide "good weather" 400)
               _ _ Ha Hb).
Defined.

(** C10, as stated, fails: on the pop-up shop data the integer program
    the narrative states has the optimal value 8850, not the 8920 of the
    model the code solves, and the optimal solution of the code's model
    does not satisfy its profit constraint. *)
Lemma stated_integer_program_differs :
  LP.optimal_value
    (PopUpShop.Pop.model PopUpShop.prices PopUpShop.popup_data) 8920 /\
  LP.optimal_value
    (PopUpShop.integer_model PopUpShop.prices PopUpShop.popup_data) 8850 /\
  ~ LP.optimal_value
      (PopUpShop.integer_model PopUpShop.prices PopUpShop.popup_data) 8920 /\
  ~ (forall v : PopUpShop.Pop.Vars,
        LP.optimal (PopUpShop.Pop.model PopUpShop.prices PopUpShop.popup_data) v
        <->
        LP.optimal
          (PopUpShop.integer_model PopUpShop.prices PopUpShop.popup_data) v).
Proof.
  assert (Hstated : LP.optimal_value
                      (PopUpShop.integer_model PopUpShop.prices
                                               PopUpShop.popup_data) 8850).
  { exists PopUpShop.stated_plan. split.
    - exact (proj1 PopUpShop.integer_model_value).
    - exact (proj2 PopUpShop.integer_model_value). }
  split; [|split; [exact Hstated|split]].
  - exists PopUpShop.evss_plan. split.
    + exact PopUpShop.evss_plan_optimal.
    + exact PopUpShop.evss_plan_value.
  - intros H.
    pose proof (LP.optimal_value_unique _ _ _ H Hstated) as Heq.
    revert Heq. vm_compute. discriminate.
  - intros H.
    apply PopUpShop.evss_plan_not_stated.
    exact (proj1 (proj1 (H PopUpShop.evss_plan) PopUpShop.evss_plan_optimal)).
Qed.

(** C10, amended.  [pop.mod] declares [x] and [y] as continuous
    non-negative variables (ordering half an item is feasible), while the
    narrative asks for integers.  On the pop-up shop data the optimum of
    the model the code solves is the integral plan [x = 400],
    [y = (400, 400, 200)] with value 8920, and adding the integrality
    requirements to [pop.mod] changes neither the optimal solutions nor
    the optimal value.  The integer program as the narrative states it,
    with the salvage on [d_s - y_s], is another program: every optimal
    solution of it orders 400 as well, but its optimal value is 8850. *)
Theorem popup_relaxation_integral :
  (LP.feasible (PopUpShop.Pop.model PopUpShop.prices PopUpShop.popup_data)
               (PopUpShop.plan PopUpShop.prices PopUpShop.popup_data (1 # 2))
   /\ ~ PopUpShop.integral
        (PopUpShop.Pop.x
           (PopUpShop.plan PopUpShop.prices PopUpShop.popup_data (1 # 2))))
  /\
  (LP.optimal (PopUpShop.Pop.model PopUpShop.prices PopUpShop.popup_data)
              PopUpShop.evss_plan /\
   PopUpShop.Pop.x PopUpShop.evss_plan == 400 /\
   PopUpShop.integral (PopUpShop.Pop.x PopUpShop.evss_plan) /\
   Forall (fun s => PopUpShop.integral (PopUpShop.Pop.y PopUpShop.evss_plan s))
          (PopUpShop.S PopUpShop.popup_data))
  /\
  (LP.optimal_value
     (PopUpShop.Pop.model PopUpShop.prices PopUpShop.popup_data) 8920 /\
   LP.optimal_value
     (PopUpShop.pop_integer_model PopUpShop.prices PopUpShop.popup_data) 8920)
  /\
  (forall v : PopUpShop.Pop.Vars,
      (LP.optimal (PopUpShop.Pop.model PopUpShop.prices PopUpShop.popup_data) v
       -> PopUpShop.Pop.x v == 400)
      /\
      (LP.optimal (PopUpShop.Pop.model PopUpShop.prices PopUpShop.popup_data) v
       <->
       LP.optimal
         (PopUpShop.pop_integer_model PopUpShop.prices PopUpShop.popup_data)
         v))
  /\
  (LP.optimal_value
     (PopUpShop.integer_model PopUpShop.prices PopUpShop.popup_data) 8850 /\
   forall v : PopUpShop.Pop.Vars,
     LP.optimal
       (PopUpShop.integer_model PopUpShop.prices PopUpShop.popup_data) v ->
     PopUpShop.Pop.x v == 400 /\
     PopUpShop.Pop.EV PopUpShop.popup_data v == 8850).
Proof.
  split; [exact PopUpShop.half_order_feasible|].
  split.
  { split; [exact PopUpShop.evss_plan_optimal|].
    split; [now rewrite (proj1 PopUpShop.evss_plan_values)|].
    exact PopUpShop.evss_plan_integral. }
  split.
  { split; exists PopUpShop.evss_plan; split.
    - exact PopUpShop.evss_plan_optimal.
    - exact PopUpShop.evss_plan_value.
    - exact PopUpShop.evss_plan_integer_optimal.
    - exact PopUpShop.evss_plan_value. }
  split.
  { intros v. split.
    - intros Hv. destruct (PopUpShop.optimal_is_evss_plan v Hv) as [Hx _].
      now rewrite Hx, (proj1 PopUpShop.evss_plan_values).
    - apply PopUpShop.relaxation_equivalent. }
  split.
  - exists PopUpShop.stated_plan. split.
    + exact (proj1 PopUpShop.integer_model_value).
    + exact (proj2 PopUpShop.integer_model_value).
  - exact PopUpShop.integer_model_optimum.
Qed.

(** The optimal order of the printed solution, through the equivalence of
    [pop.mod] with and without integrality. *)
Lemma popup_relaxation_integral_evss_plan :
  PopUpShop.Pop.x PopUpShop.evss_plan == 400.
Proof.
  exact (proj1 (proj1 (proj2 (proj2 (proj2 popup_relaxation_integral)))
                 PopUpShop.evss_plan)
               PopUpShop.evss_plan_optimal).
Defined.

(** A scenario dictionary whose weights sum to 0.9. *)
Definition underweight_items : list (string * PopUpShop.Scenario) :=
  [ ("sunny skies"%string,
     {| PopUpShop.probability := 0.10; PopUpShop.demand := 650 |});
    ("good weather"%string,
     {| PopUpShop.probability := 0.50; PopUpShop.demand := 400 |});
    ("poor weather"%string,
     {| PopUpShop.probability := 0.30; PopUpShop.demand := 200 |}) ].

(** A dictionary display with at least one item gives a dictionary with
    at least one key. *)
Lemma set_not_empty {V} (k : string) (v : V) (d : @Dict.dict V) :
  Dict.set k v d <> [].
Proof.
  destruct d as [|[k' v'] d]; cbn [Dict.set]; [discriminate|].
  destruct (String.eqb k k'); discriminate.
Qed.

Lemma literal_not_empty {V} (items : list (string * V)) :
  items <> [] -> Dict.literal items <> [].
Proof.
  unfold Dict.literal.
  assert (H : forall (l : list (string * V)) d0,
             d0 <> [] ->
             fold_left (fun d kv => Dict.set (fst kv) (snd kv) d) l d0 <> []).
  { induction l as [|kv l IH]; intros d0 Hd0; cbn [fold_left];
      [exact Hd0 | apply IH, set_not_empty]. }
  destruct items as [|kv items]; [congruence|]. intros _.
  cbn [fold_left]. apply H, set_not_empty.
Qed.

(** On a frame with at least one row the cell reads both columns. *)
Lemma scenario_cell_rows (items : list (string * PopUpShop.Scenario)) :
  items <> [] ->
  PopUpShop.scenario_cell items
  = Returned (PopUpShop.from_dict_T (Dict.literal items),
              PopUpShop.expected_demand
                (PopUpShop.from_dict_T (Dict.literal items))).
Proof.
  intros Hne. pose proof (literal_not_empty items Hne) as Hsc.
  unfold PopUpShop.scenario_cell, PopUpShop.getitem, PopUpShop.columns,
    PopUpShop.from_dict_T.
  destruct (Dict.literal items) as [|kv sc]; [congruence|].
  reflexivity.
Qed.

(** C2, as stated, fails: the dictionary with weights 0.10, 0.50, 0.30 is
    not valid within the tolerance, yet the scenario cell returns; the
    frame holds the weights as given and the expected demand is their
    plain weighted sum, 325 (not 325 / 0.9). *)
Lemma underweight_accepted :
  ~ PopUpShop.valid_within_tolerance (Dict.literal underweight_items) /\
  (forall exn, PopUpShop.scenario_cell underweight_items <> Raised exn) /\
  exists df ed,
    PopUpShop.scenario_cell underweight_items = Returned (df, ed) /\
    PopUpShop.col_probability df = [0.10; 0.50; 0.30] /\
    ed == 325.
Proof.
  split; [|split].
  - intros [_ H]. vm_compute in H. apply H. reflexivity.
  - intros exn. rewrite scenario_cell_rows by discriminate. discriminate.
  - eexists. eexists.
    split; [apply scenario_cell_rows; discriminate|]. split.
    + reflexivity.
    + vm_compute. reflexivity.
Qed.

(** C2, amended.  The scenario cell validates nothing.  For every
    dictionary display with at least one scenario it returns, whatever
    the weights are: the frame holds the weights exactly as given, the
    parameter [p] bound to the models reads the same weights, and the
    expected demand is the plain weighted sum of the demands.  Only the
    dictionary without any scenario makes the cell end in an exception,
    the [KeyError] of the missing column, which says nothing about
    weights. *)
Theorem scenario_cell_accepts_any_weights :
  forall items : list (string * PopUpShop.Scenario),
    let sc := Dict.literal items in
    (items = [] -> PopUpShop.scenario_cell items = Raised "KeyError") /\
    (items <> [] ->
     exists df ed,
       PopUpShop.scenario_cell items = Returned (df, ed) /\
       PopUpShop.col_probability df
       = map PopUpShop.probability (Dict.values sc) /\
       (forall k v, In (k, v) sc ->
                    PopUpShop.p (PopUpShop.set_data df) k
                    = PopUpShop.probability v) /\
       ed = Series.sum (map (fun kv => PopUpShop.probability (snd kv)
                                       * PopUpShop.demand (snd kv)) sc)).
Proof.
  intros items sc. split.
  - intros ->. reflexivity.
  - intros Hne.
    exists (PopUpShop.from_dict_T sc), (PopUpShop.expected_demand
                                          (PopUpShop.from_dict_T sc)).
    split; [exact (scenario_cell_rows items Hne)|].
    split; [reflexivity|]. split.
    + intros k v Hin. apply PopUpShop.p_row; [|exact Hin].
      apply Dict.NoDup_keys_literal.
    + apply PopUpShop.expected_demand_rows.
Qed.

(** The cell on the underweight dictionary: the model parameter of
    "good weather" is the weight as given, 0.50. *)
Lemma underweight_good_weather :
  exists df ed,
    PopUpShop.scenario_cell underweight_items = Returned (df, ed) /\
    PopUpShop.p (PopUpShop.set_data df) "good weather" = 0.50.
Proof.
  assert (Hne : underweight_items <> []) by discriminate.
  destruct (proj2 (scenario_cell_accepts_any_weights underweight_items) Hne)
    as (df & ed & Hcell & _ & Hp & _).
  exists df, ed. split; [exact Hcell|].
  apply (Hp "good weather"%string
            {| PopUpShop.probability := 0.50; PopUpShop.demand := 400 |}).
  right. left. reflexivity.
Defined.





(** C4.  The BIM model has the unique optimal solution [x = (650, 1100)]
    with profit 17700: every solve that ends solved returns it; the dual
    model has the same optimal value 17700, reached at
    [y = (0, 0, 6, 1.5)]. *)
Theorem bim_optimum_and_dual :
  LP.optimal Bim.model Bim.plan /\
  Bim.x1 Bim.plan == 650 /\ Bim.x2 Bim.plan == 1100 /\
  (forall res : LP.SolveResult Bim.Vars,
      LP.solved Bim.model res ->
      Bim.x1 (LP.values res) == 650 /\ Bim.x2 (LP.values res) == 1100 /\
      Bim.profit (LP.values res) == 17700) /\
  LP.optimal_value Bim.model 17700 /\
  LP.optimal Bim.Dual.model Bim.Dual.multipliers /\
  LP.optimal_value Bim.Dual.model 17700.
Proof.
  split; [exact Bim.plan_optimal|].
  split; [reflexivity|]. split; [reflexivity|].
  split.
  - intros res [_ Hres].
    pose proof (LP.unique_optimum_only Bim.same Bim.model Bim.plan
                  (LP.values res) Bim.plan_unique_optimum Hres) as [H1 H2].
    cbn [Bim.plan Bim.x1 Bim.x2] in H1, H2.
    unfold Bim.profit. repeat split; lra.
  - split; [|split].
    + exists Bim.plan. split; [exact Bim.plan_optimal|].
      vm_compute. reflexivity.
    + exact Bim.multipliers_optimal.
    + exists Bim.Dual.multipliers. split; [exact Bim.multipliers_optimal|].
      vm_compute. reflexivity.
Qed.

(** The BIM statement at the result the notebook prints. *)
Lemma bim_printed_result :
  Bim.x1 Bim.plan == 650 /\ Bim.x2 Bim.plan == 1100 /\
  Bim.profit Bim.plan == 17700.
Proof.
  exact (proj1 (proj2 (proj2 (proj2 bim_optimum_and_dual)))
               {| LP.solve_result := "solved"; LP.values := Bim.plan |}
               (conj eq_refl Bim.plan_optimal)).
Defined.

(** Sum of a constant over a list. *)
Lemma sum_map_const {A} (k : Q) (l : list A) :
  Series.sum (map (fun _ => k) l)
  == inject_Z (Z.of_nat (List.length l)) * k.
Proof.
  induction l as [|a l IH].
  - cbn. ring.
  - cbn [map List.length]. rewrite Series.sum_cons, IH.
    rewrite Nat2Z.inj_succ. unfold Z.succ. rewrite inject_Z_plus. ring.
Qed.

(** *** The sample average, worded from the specification

    The specification describes the SAA objective as the empirical
    average of the per-scenario costs, every sample with the weight
    [1/T].  It is written here over the list of samples and the nodes of
    the table themselves, independently of the index sets and sums of the
    model, to be compared with the objective of [opf_ldr.mod]. *)
Module Saa.

(** The total imbalance of one sampled scenario. *)
Fixpoint total (sample : Opf.Imbalance) : Q :=
  match sample with
  | [] => 0
  | (_, q) :: rest => q + total rest
  end.

(** The production cost: each generator pays [c] per unit scheduled. *)
Fixpoint production_cost (net : Opf.Nodes) (v : Opf.Vars) (nodes : list Z)
  : Q :=
  match nodes with
  | [] => 0
  | i :: rest =>
      (if Qeq_bool (Opf.is_generator net i) 1
       then Opf.c net i * Opf.p v i else 0)
      + production_cost net v rest
  end.

(** The recourse cost in one sample: each coal or gas node pays
    [2 c alpha] per unit of the absolute total imbalance of the sample. *)
Fixpoint recourse_cost (net : Opf.Nodes) (v : Opf.Vars) (nodes : list Z)
         (sample : Opf.Imbalance) : Q :=
  match nodes with
  | [] => 0
  | i :: rest =>
      (if (String.eqb (Opf.energy_type net i) "coal"
           || String.eqb (Opf.energy_type net i) "gas")%bool
       then 2 * Opf.c net i * Opf.alpha v i * Qabs (total sample) else 0)
      + recourse_cost net v rest sample
  end.

(** The cost of the dispatch in one sampled scenario. *)
Definition scenario_cost (net : Opf.Nodes) (v : Opf.Vars)
           (sample : Opf.Imbalance) : Q :=
  production_cost net v (Opf.V net) + recourse_cost net v (Opf.V net) sample.

(** The empirical average: every entry with the weight [1/T], [T] the
    number of entries. *)
Definition empirical_average (costs : list Q) : Q :=
  fold_right
    (fun cost acc => 1 / inject_Z (Z.of_nat (List.length costs)) * cost + acc)
    0 costs.

End Saa.

Lemma saa_total (sample : Opf.Imbalance) :
  Series.sum (map snd sample) == Saa.total sample.
Proof.
  induction sample as [|[k q] sample IH]; cbn [map snd Saa.total].
  - reflexivity.
  - rewrite Series.sum_cons, IH. reflexivity.
Qed.

Lemma saa_production_cost (net : Opf.Nodes) (v : Opf.Vars) (nodes : list Z) :
  Series.sum
    (map (fun i => Opf.c net i * Opf.p v i)
         (filter (fun i => Qeq_bool (Opf.is_generator net i) 1) nodes))
  == Saa.production_cost net v nodes.
Proof.
  induction nodes as [|i nodes IH]; cbn [filter map Saa.production_cost].
  - reflexivity.
  - destruct (Qeq_bool (Opf.is_generator net i) 1); cbn [map].
    + rewrite Series.sum_cons, IH. reflexivity.
    + rewrite IH. ring.
Qed.

Lemma saa_recourse_cost (net : Opf.Nodes) (v : Opf.Vars) (nodes : list Z)
      (sample : Opf.Imbalance) (ab : Q) :
  ab == Qabs (Saa.total sample) ->
  Series.sum
    (map (fun i => 2 * Opf.c net i * Opf.alpha v i * ab)
         (filter (fun i => (String.eqb (Opf.energy_type net i) "coal"
                            || String.eqb (Opf.energy_type net i) "gas")%bool)
                 nodes))
  == Saa.recourse_cost net v nodes sample.
Proof.
  intros Hab.
  induction nodes as [|i nodes IH]; cbn [filter map Saa.recourse_cost].
  - reflexivity.
  - destruct (String.eqb (Opf.energy_type net i) "coal"
              || String.eqb (Opf.energy_type net i) "gas")%bool; cbn [map].
    + rewrite Series.sum_cons, IH, Hab. reflexivity.
    + rewrite IH. ring.
Qed.

(** A sum over the positions of a list is the sum over its entries. *)
Lemma map_nth_positions {A B} (g : A -> B) (l : list A) (default : A) :
  map (fun t => g (nth t l default)) (seq 0 (List.length l)) = map g l.
Proof.
  induction l as [|a l IH]; cbn [List.length seq map nth]; [reflexivity|].
  f_equal. rewrite <- seq_shift, map_map. exact IH.
Qed.

Lemma empirical_average_sum (costs : list Q) :
  Saa.empirical_average costs
  == Series.sum
       (map (fun cost => 1 / inject_Z (Z.of_nat (List.length costs)) * cost)
            costs).
Proof.
  unfold Saa.empirical_average.
  generalize (1 / inject_Z (Z.of_nat (List.length costs))) as k. intros k.
  induction costs as [|cost costs IH]; cbn [fold_right map].
  - reflexivity.
  - rewrite Series.sum_cons, IH. reflexivity.
Qed.

(** C7.  When the model is bound to T >= 1 sampled scenarios, its set
    [T] holds one index per sample, the objective is defined, and its
    value is the empirical average, over the samples themselves, of the
    cost of the dispatch in each sample: every sample of the list enters
    once, multiplied by exactly 1/T, and the weights add up to one.
    Equivalently it is the production cost plus the sum over the samples
    of 1/T times the recourse cost of the sample. *)
Theorem saa_objective_equal_weights :
  forall (net : Opf.Nodes) (imbalances : list Opf.Imbalance) (v : Opf.Vars),
    imbalances <> [] ->
    let dat := Opf.bind_samples net imbalances in
    let n := inject_Z (Z.of_nat (List.length imbalances)) in
    Opf.T dat = seq 0 (List.length imbalances) /\
    (forall t sample,
        nth_error imbalances t = Some sample ->
        In t (Opf.T dat) /\
        Opf.abs_total_imbalance dat t == Qabs (Saa.total sample)) /\
    Series.sum (map (fun _ => 1 / n) imbalances) == 1 /\
    exists value,
      Opf.obj dat v = Some value /\
      value == Saa.empirical_average
                 (map (Saa.scenario_cost net v) imbalances) /\
      value == Series.sum
                 (map (fun sample => 1 / n * Saa.scenario_cost net v sample)
                      imbalances) /\
      value == Saa.production_cost net v (Opf.V net)
               + Series.sum
                   (map (fun sample =>
                           1 / n * Saa.recourse_cost net v (Opf.V net) sample)
                        imbalances).
Proof.
  intros net imbalances v Hne dat n.
  pose proof (Opf.nT_positive net imbalances
                              (Opf.abstotalimbalances imbalances) Hne) as Hpos.
  pose proof (Opf.nT_bind net imbalances
                          (Opf.abstotalimbalances imbalances)) as HnT.
  change (Opf.bind net imbalances (Opf.abstotalimbalances imbalances))
    with dat in Hpos, HnT.
  fold n in HnT. rewrite HnT in Hpos.
  assert (Hone : Series.sum (map (fun _ => 1 / n) imbalances) == 1).
  { rewrite sum_map_const. fold n. field. lra. }
  assert (Habs : forall t,
             Opf.abs_total_imbalance dat t
             == Qabs (Saa.total (nth t imbalances []))).
  { intros t. cbn [dat Opf.bind_samples Opf.bind Opf.abs_total_imbalance].
    unfold Opf.abstotalimbalances, Opf.totalimbalances.
    now rewrite saa_total. }
  assert (Hsecond :
            Opf.second_stage_total dat v
            == Series.sum
                 (map (Saa.recourse_cost net v (Opf.V net)) imbalances)).
  { rewrite Opf.second_stage_by_scenario.
    rewrite <- (map_nth_positions (Saa.recourse_cost net v (Opf.V net))
                                  imbalances []).
    change (Opf.T dat) with (seq 0 (List.length imbalances)).
    apply Series.sum_map_ext. intros t _.
    unfold Opf.scenario_cost, Opf.conventional.
    apply (saa_recourse_cost net v (Opf.V net) (nth t imbalances [])).
    apply Habs. }
  assert (Hfirst : Opf.first_stage dat v
                   == Saa.production_cost net v (Opf.V net)).
  { unfold Opf.first_stage, Opf.generators. apply saa_production_cost. }
  split; [reflexivity|].
  split.
  { intros t sample Ht. split.
    - change (Opf.T dat) with (seq 0 (List.length imbalances)).
      apply in_seq. split; [lia|]. cbn.
      apply nth_error_Some. congruence.
    - rewrite Habs. now rewrite (nth_error_nth imbalances t [] Ht). }
  split; [exact Hone|].
  unfold Opf.obj.
  destruct (Qeq_bool (Opf.nT dat) 0) eqn:Hz.
  - apply Qeq_bool_iff in Hz. rewrite HnT in Hz. lra.
  - eexists. split; [reflexivity|].
    assert (Hsplit :
              Opf.first_stage dat v
              + 1 / Opf.nT dat * Opf.second_stage_total dat v
              == Saa.production_cost net v (Opf.V net)
                 + Series.sum
                     (map (fun sample =>
                             1 / n * Saa.recourse_cost net v (Opf.V net)
                                                       sample)
                          imbalances)).
    { rewrite Hfirst, Hsecond, HnT, Series.sum_map_scale. reflexivity. }
    assert (Havg :
              Series.sum
                (map (fun sample => 1 / n * Saa.scenario_cost net v sample)
                     imbalances)
              == Saa.production_cost net v (Opf.V net)
                 + Series.sum
                     (map (fun sample =>
                             1 / n * Saa.recourse_cost net v (Opf.V net)
                                                       sample)
                          imbalances)).
    { unfold Saa.scenario_cost.
      rewrite (Series.sum_map_ext
                 (fun sample =>
                    1 / n * (Saa.production_cost net v (Opf.V net)
                             + Saa.recourse_cost net v (Opf.V net) sample))
                 (fun sample =>
                    Saa.production_cost net v (Opf.V net) * (1 / n)
                    + 1 / n * Saa.recourse_cost net v (Opf.V net) sample))
        by (intros; ring).
      rewrite (Series.sum_map_plus
                 (fun _ => Saa.production_cost net v (Opf.V net) * (1 / n))
                 (fun sample =>
                    1 / n * Saa.recourse_cost net v (Opf.V net) sample)).
      rewrite (Series.sum_map_scale
                 (Saa.production_cost net v (Opf.V net)) (fun _ => 1 / n)),
        Hone.
      ring. }
    split; [|split; [|exact Hsplit]].
    + rewrite empirical_average_sum, length_map, map_map. fold n.
      rewrite Havg. exact Hsplit.
    + rewrite Havg. exact Hsplit.
Qed.

(** A network with one gas plant and one wind farm. *)
Definition two_nodes : Opf.Nodes :=
  {| Opf.V := [1%Z; 2%Z];
     Opf.is_generator := fun _ => 1;
     Opf.energy_type := fun i => if Z.eqb i 1 then "gas"%string
                                 else "wind"%string;
     Opf.c := fun i => if Z.eqb i 1 then 30 else 0 |}.

(** Two sampled imbalances of the wind farm, [+1/2] and [-1/2]. *)
Definition two_samples : list Opf.Imbalance :=
  [ [(1%Z, 0); (2%Z, 1 # 2)]; [(1%Z, 0); (2%Z, - (1 # 2))] ].

Definition dispatch : Opf.Vars :=
  {| Opf.p := fun _ => 10;
     Opf.alpha := fun i => if Z.eqb i 1 then 1 else 0 |}.

(** The SAA statement on two samples: each weighs one half, and the
    objective, 330, is the average of the two scenario costs. *)
Lemma saa_two_samples :
  exists value,
    Opf.obj (Opf.bind_samples two_nodes two_samples) dispatch = Some value /\
    value == Saa.empirical_average
               (map (Saa.scenario_cost two_nodes dispatch) two_samples) /\
    value == 330.
Proof.
  assert (Hne : two_samples <> []) by discriminate.
  destruct (saa_objective_equal_weights two_nodes two_samples dispatch Hne)
    as (_ & _ & _ & value & Hobj & Havg & _).
  exists value. split; [exact Hobj|]. split; [exact Havg|].
  rewrite Havg. vm_compute. reflexivity.
Defined.

(** *** Two runs of [lad_regression]

    The function as a sequence of statements on the state of the
    notebook.  The solver is a program outside the repository: a
    deterministic solver is a function of what AMPL hands it, the object
    with its model, data, options and current solution. *)
Module LadRun.

(** An [AMPL] object, as far as [lad_regression] uses it. *)
Record Ampl := {
  model_file : option string;
  set_I : list nat;
  set_J : list nat;
  param_y : list Q;
  param_X : list (list Q);
  option_solver : option string;
  solution : option (LP.SolveResult Lad.Vars)
}.

(** The state of the notebook: the global [SOLVER] and the [AMPL] objects
    created so far, each named by its position. *)
Record World := {
  SOLVER : string;
  objects : list Ampl
}.

Definition Solver : Type := Ampl -> LP.SolveResult Lad.Vars.

(** [AMPL()] *)
Definition new_ampl : Ampl :=
  {| model_file := None; set_I := []; set_J := []; param_y := [];
     param_X := []; option_solver := None; solution := None |}.

(** [ampl.read(file)] *)
Definition read (file : string) (a : Ampl) : Ampl :=
  {| model_file := Some file; set_I := set_I a; set_J := set_J a;
     param_y := param_y a; param_X := param_X a;
     option_solver := option_solver a; solution := solution a |}.

(** [ampl.set["I"] = range(n)] and [ampl.set["J"] = range(k)] *)
Definition assign_I (n : nat) (a : Ampl) : Ampl :=
  {| model_file := model_file a; set_I := seq 0 n; set_J := set_J a;
     param_y := param_y a; param_X := param_X a;
     option_solver := option_solver a; solution := solution a |}.

Definition assign_J (k : nat) (a : Ampl) : Ampl :=
  {| model_file := model_file a; set_I := set_I a; set_J := seq 0 k;
     param_y := param_y a; param_X := param_X a;
     option_solver := option_solver a; solution := solution a |}.

(** [ampl.param["y"] = y] and [ampl.param["X"] = X] *)
Definition assign_y (ys : list Q) (a : Ampl) : Ampl :=
  {| model_file := model_file a; set_I := set_I a; set_J := set_J a;
     param_y := ys; param_X := param_X a;
     option_solver := option_solver a; solution := solution a |}.

Definition assign_X (Xs : list (list Q)) (a : Ampl) : Ampl :=
  {| model_file := model_file a; set_I := set_I a; set_J := set_J a;
     param_y := param_y a; param_X := Xs;
     option_solver := option_solver a; solution := solution a |}.

(** [ampl.option["solver"] = name] *)
Definition assign_solver (name : string) (a : Ampl) : Ampl :=
  {| model_file := model_file a; set_I := set_I a; set_J := set_J a;
     param_y := param_y a; param_X := param_X a;
     option_solver := Some name; solution := solution a |}.

(** [ampl.solve()] *)
Definition solve (solver : Solver) (a : Ampl) : Ampl :=
  {| model_file := model_file a; set_I := set_I a; set_J := set_J a;
     param_y := param_y a; param_X := param_X a;
     option_solver := option_solver a; solution := Some (solver a) |}.

(** The sets and parameters of the object, as the model reads them. *)
Definition data (a : Ampl) : Lad.Data :=
  {| Lad.I := set_I a;
     Lad.J := set_J a;
     Lad.y := fun i => nth i (param_y a) 0;
     Lad.X := fun i j => nth j (nth i (param_X a) []) 0 |}.

(** [lad_regression(X, y)], run in the state [w]: the object it returns
    and the state it leaves. *)
Definition lad_regression (solver : Solver) (Xs : list (list Q))
           (ys : list Q) (w : World) : nat * World :=
  let ampl := new_ampl in
  let ampl := read "lad_regression.mod" ampl in
  let (n, k) := Lad.shape Xs in
  let ampl := assign_I n ampl in
  let ampl := assign_J k ampl in
  let ampl := assign_y ys ampl in
  let ampl := assign_X Xs ampl in
  let ampl := assign_solver (SOLVER w) ampl in
  let ampl := solve solver ampl in
  (List.length (objects w),
   {| SOLVER := SOLVER w; objects := objects w ++ [ampl] |}).

End LadRun.

(** What one call of [lad_regression] leaves: a new object, bound to the
    data of the call, holding the answer of the solver to an object that
    depends on the arguments and on [SOLVER] only. *)
Lemma lad_regression_run (solver : LadRun.Solver) (Xs : list (list Q))
      (ys : list Q) (w : LadRun.World) :
  exists a : LadRun.Ampl,
    LadRun.lad_regression solver Xs ys w
    = (List.length (LadRun.objects w),
       {| LadRun.SOLVER := LadRun.SOLVER w;
          LadRun.objects := LadRun.objects w ++ [LadRun.solve solver a] |}) /\
    LadRun.data a = Lad.bind Xs ys /\
    LadRun.option_solver a = Some (LadRun.SOLVER w) /\
    LadRun.solution a = None /\
    forall w' : LadRun.World,
      LadRun.SOLVER w' = LadRun.SOLVER w ->
      LadRun.lad_regression solver Xs ys w'
      = (List.length (LadRun.objects w'),
         {| LadRun.SOLVER := LadRun.SOLVER w';
            LadRun.objects := LadRun.objects w' ++ [LadRun.solve solver a] |}).
Proof.
  unfold LadRun.lad_regression, Lad.bind.
  destruct (Lad.shape Xs) as [n k].
  eexists. split; [reflexivity|].
  split; [reflexivity|]. split; [reflexivity|]. split; [reflexivity|].
  intros w' ->. reflexivity.
Qed.

(** C8.  Two calls of [lad_regression] on the same arrays, with the same
    [SOLVER] and a deterministic solver, return two distinct objects
    bound to the same model and options and holding the same result:
    the same objective value and the same value of every variable; the
    second call does not touch the object of the first.  Whatever the
    solver, two solves of one bound model that both end "solved" return
    the same objective value, and the same value of every variable when
    the optimum is unique, as for the BIM model and for [pop.mod] on the
    data of the notebook. *)
Theorem two_solves_agree :
  (forall (solver : LadRun.Solver) (w : LadRun.World)
          (Xs : list (list Q)) (ys : list Q),
      let run1 := LadRun.lad_regression solver Xs ys w in
      let run2 := LadRun.lad_regression solver Xs ys (snd run1) in
      fst run1 <> fst run2 /\
      exists (a1 a2 : LadRun.Ampl) (res : LP.SolveResult Lad.Vars),
        nth_error (LadRun.objects (snd run1)) (fst run1) = Some a1 /\
        nth_error (LadRun.objects (snd run2)) (fst run1) = Some a1 /\
        nth_error (LadRun.objects (snd run2)) (fst run2) = Some a2 /\
        LadRun.data a1 = Lad.bind Xs ys /\
        LadRun.data a2 = Lad.bind Xs ys /\
        LadRun.option_solver a1 = Some (LadRun.SOLVER w) /\
        LadRun.option_solver a2 = Some (LadRun.SOLVER w) /\
        LadRun.solution a1 = Some res /\
        LadRun.solution a2 = Some res)
  /\
  (forall (Xs : list (list Q)) (ys : list Q)
          (r1 r2 : LP.SolveResult Lad.Vars),
      Lad.lad_regression Xs ys r1 -> Lad.lad_regression Xs ys r2 ->
      Lad.sum_of_abs_errors (Lad.bind Xs ys) (LP.values r1)
      == Lad.sum_of_abs_errors (Lad.bind Xs ys) (LP.values r2))
  /\
  (forall (A : Type) (M : LP.Model A) (r1 r2 : LP.SolveResult A),
      LP.solved M r1 -> LP.solved M r2 ->
      LP.objective M (LP.values r1) == LP.objective M (LP.values r2) /\
      forall (same : A -> A -> Prop) (a : A),
        LP.unique_optimum same M a ->
        same (LP.values r1) a /\ same (LP.values r2) a)
  /\
  (forall r1 r2 : LP.SolveResult Bim.Vars,
      LP.solved Bim.model r1 -> LP.solved Bim.model r2 ->
      Bim.x1 (LP.values r1) == Bim.x1 (LP.values r2) /\
      Bim.x2 (LP.values r1) == Bim.x2 (LP.values r2) /\
      Bim.profit (LP.values r1) == Bim.profit (LP.values r2))
  /\
  (forall r1 r2 : LP.SolveResult PopUpShop.Pop.Vars,
      LP.solved (PopUpShop.Pop.model PopUpShop.prices PopUpShop.popup_data) r1 ->
      LP.solved (PopUpShop.Pop.model PopUpShop.prices PopUpShop.popup_data) r2 ->
      PopUpShop.same_on PopUpShop.popup_data (LP.values r1) (LP.values r2) /\
      PopUpShop.Pop.EV PopUpShop.popup_data (LP.values r1)
      == PopUpShop.Pop.EV PopUpShop.popup_data (LP.values r2)).
Proof.
  split; [|split; [|split; [|split]]].
  - intros solver w Xs ys run1 run2.
    destruct (lad_regression_run solver Xs ys w)
      as (a & Hrun & Hdata & Hopt & _ & Hany).
    assert (Hrun2 : run2
                    = (List.length (LadRun.objects (snd run1)),
                       {| LadRun.SOLVER := LadRun.SOLVER (snd run1);
                          LadRun.objects :=
                            LadRun.objects (snd run1)
                            ++ [LadRun.solve solver a] |})).
    { unfold run2. apply Hany. unfold run1. now rewrite Hrun. }
    unfold run1 in *. rewrite Hrun in *. rewrite Hrun2.
    cbn [fst snd LadRun.objects].
    split; [rewrite length_app; cbn [List.length]; lia|].
    exists (LadRun.solve solver a), (LadRun.solve solver a), (solver a).
    assert (Hlast : forall l : list LadRun.Ampl,
               nth_error (l ++ [LadRun.solve solver a]) (List.length l)
               = Some (LadRun.solve solver a)).
    { intros l. rewrite nth_error_app2 by lia.
      now rewrite Nat.sub_diag. }
    split; [apply Hlast|].
    split; [rewrite nth_error_app1
              by (rewrite length_app; cbn [List.length]; lia);
            apply Hlast|].
    split; [apply Hlast|].
    repeat split; auto.
  - intros Xs ys r1 r2 [_ H1] [_ H2].
    exact (LP.optimal_objective_unique _ _ _ H1 H2).
  - intros A M r1 r2 [_ H1] [_ H2]. split.
    + now apply LP.optimal_objective_unique.
    + intros same a Ha. split; now apply (LP.unique_optimum_only same M a).
  - intros r1 r2 [_ H1] [_ H2].
    destruct (LP.unique_optimum_only Bim.same Bim.model Bim.plan _
                Bim.plan_unique_optimum H1) as [A1 A2].
    destruct (LP.unique_optimum_only Bim.same Bim.model Bim.plan _
                Bim.plan_unique_optimum H2) as [B1 B2].
    unfold Bim.profit. rewrite A1, A2, B1, B2. repeat split; reflexivity.
  - intros r1 r2 [_ H1] [_ H2].
    destruct (PopUpShop.optimal_is_evss_plan _ H1) as [Hx1 Hs1].
    destruct (PopUpShop.optimal_is_evss_plan _ H2) as [Hx2 Hs2].
    split.
    + split; [now rewrite Hx1, Hx2|].
      rewrite Forall_forall in *. intros s Hs.
      destruct (Hs1 s Hs) as [Y1 F1]. destruct (Hs2 s Hs) as [Y2 F2].
      split; [now rewrite Y1, Y2 | now rewrite F1, F2].
    + exact (LP.optimal_objective_unique _ _ _ H1 H2).
Qed.

(** Two reports of the BIM optimum, written with different fractions. *)
Definition bim_first_run : LP.SolveResult Bim.Vars :=
  {| LP.solve_result := "solved"; LP.values := Bim.plan |}.

Definition bim_second_run : LP.SolveResult Bim.Vars :=
  {| LP.solve_result := "solved";
     LP.values := {| Bim.x1 := 1300 # 2; Bim.x2 := 2200 # 2 |} |}.

Lemma bim_second_run_solved : LP.solved Bim.model bim_second_run.
Proof.
  split; [reflexivity|]. split.
  - cbv [LP.feasible LP.values bim_second_run Bim.model Bim.silicon
         Bim.germanium Bim.plastic Bim.copper Bim.x1 Bim.x2]. lra.
  - intros b Fb. destruct Bim.plan_optimal as [_ H]. specialize (H b Fb).
    cbv [LP.objective LP.sense LP.at_least_as_good LP.values bim_second_run
         Bim.model Bim.profit Bim.plan Bim.x1 Bim.x2] in *. lra.
Qed.

(** Two solves of the BIM model agree. *)
Lemma two_solves_agree_bim :
  Bim.x1 (LP.values bim_first_run) == Bim.x1 (LP.values bim_second_run) /\
  Bim.x2 (LP.values bim_first_run) == Bim.x2 (LP.values bim_second_run) /\
  Bim.profit (LP.values bim_first_run)
  == Bim.profit (LP.values bim_second_run).
Proof.
  exact (proj1 (proj2 (proj2 (proj2 two_solves_agree)))
               bim_first_run bim_second_run
               (conj eq_refl Bim.plan_optimal) bim_second_run_solved).
Defined.

(** C9.  Every slope returned by [lad_regression] is non-negative, since
    the model declares [var m{J} >= 0].  On the two points [(0, 1)] and
    [(1, 0)] the formulation of the text, with real coefficients, has the
    optimal fit of slope -1 and error 0, while every solve of the
    implemented model returns a non-negative slope and error 1; both
    optimal solutions exist. *)
Theorem lad_slopes_nonnegative :
  (forall (Xs : list (list Q)) (ys : list Q) (res : LP.SolveResult Lad.Vars),
      Lad.lad_regression Xs ys res ->
      forall j, In j (Lad.J (Lad.bind Xs ys)) -> 0 <= Lad.m (LP.values res) j)
  /\
  ((exists res, Lad.lad_regression Lad.falling_X Lad.falling_y res) /\
   (exists v, LP.optimal (Lad.text_model Lad.falling) v) /\
   forall (res : LP.SolveResult Lad.Vars) (v : Lad.Vars),
     Lad.lad_regression Lad.falling_X Lad.falling_y res ->
     LP.optimal (Lad.text_model Lad.falling) v ->
     Lad.m v 0%nat == -1 /\
     0 <= Lad.m (LP.values res) 0%nat /\
     ~ Lad.m (LP.values res) 0%nat == Lad.m v 0%nat /\
     Lad.sum_of_abs_errors Lad.falling v == 0 /\
     Lad.sum_of_abs_errors Lad.falling (LP.values res) == 1).
Proof.
  split.
  - intros Xs ys res [_ [Fres _]] j Hj.
    exact (Lad.slopes_nonneg _ _ Fres j Hj).
  - split; [|split].
    + exists {| LP.solve_result := "solved"; LP.values := Lad.falling_fit |}.
      split; [reflexivity | exact Lad.falling_fit_optimal].
    + exists Lad.falling_line. exact Lad.falling_line_optimal.
    + intros res v [_ Hres] Hv.
      destruct (Lad.falling_text_optimum v Hv) as (Hm & _ & Hobj).
      destruct (Lad.falling_model_optimum _ Hres) as (Hm' & Hobj').
      repeat split; try assumption. lra.
Qed.

(** The slope returned on the falling line is non-negative. *)
Lemma lad_falling_slope :
  0 <= Lad.m Lad.falling_fit 0%nat.
Proof.
  exact (proj1 lad_slopes_nonnegative Lad.falling_X Lad.falling_y
               {| LP.solve_result := "solved"; LP.values := Lad.falling_fit |}
               (conj eq_refl Lad.falling_fit_optimal)
               0%nat (or_introl eq_refl)).
Defined.

(* ------------------------------------------------------------------ *)
(** ** LAD regression: the fitted values and what the optimum means *)

Module LadFit.
Import Series.

(** [enumerate(l)] *)
Definition enumerate {A} (l : list A) : list (nat * A) :=
  combine (seq 0 (List.length l)) l.

(** [m_m = list(m.var["m"].to_dict().values())]: the slopes in the order
    of [J]; [m_b = m.var["b"].value()]. *)
Definition m_m (dat : Lad.Data) (v : Lad.Vars) : list Q :=
  map (Lad.m v) (Lad.J dat).

Definition m_b (v : Lad.Vars) : Q := Lad.b v.

(** [y_fit = np.array([sum(x[j] * v for j, v in enumerate(m_m)) + m_b
                        for x in X])] *)
Definition y_fit (Xs : list (list Q)) (slopes : list Q) (intercept : Q)
  : list Q :=
  map (fun x => sum (map (fun jv => nth (fst jv) x 0 * snd jv)
                         (enumerate slopes))
                + intercept) Xs.

(** The fitted values of a result of [lad_regression(X, y)]. *)
Definition fitted (Xs : list (list Q)) (ys : list Q) (v : Lad.Vars)
  : list Q :=
  y_fit Xs (m_m (Lad.bind Xs ys) v) (m_b v).

(** [y - y_fit] at observation [i]. *)
Definition residual (Xs : list (list Q)) (ys : list Q) (v : Lad.Vars)
           (i : nat) : Q :=
  nth i ys 0 - nth i (fitted Xs ys v) 0.

(** The sum of the absolute residuals of a fit. *)
Definition abs_error (Xs : list (list Q)) (ys : list Q) (v : Lad.Vars) : Q :=
  sum (map (fun i => Qabs (residual Xs ys v i)) (seq 0 (List.length Xs))).

(** The fit with given slopes and intercept, its errors split into
    their positive and negative parts. *)
Definition split_errors (Xs : list (list Q)) (ys : list Q)
           (slope : nat -> Q) (intercept : Q) : Lad.Vars :=
  let v0 := {| Lad.ep := fun _ => 0; Lad.em := fun _ => 0;
               Lad.m := slope; Lad.b := intercept |} in
  {| Lad.ep := fun i => Qmax (residual Xs ys v0 i) 0;
     Lad.em := fun i => Qmax (- residual Xs ys v0 i) 0;
     Lad.m := slope;
     Lad.b := intercept |}.

Lemma bind_sets (Xs : list (list Q)) (ys : list Q) :
  Lad.I (Lad.bind Xs ys) = seq 0 (List.length Xs) /\
  Lad.J (Lad.bind Xs ys) = seq 0 (snd (Lad.shape Xs)) /\
  (forall i, Lad.y (Lad.bind Xs ys) i = nth i ys 0) /\
  (forall i j, Lad.X (Lad.bind Xs ys) i j = nth j (nth i Xs []) 0).
Proof. unfold Lad.bind, Lad.shape. cbn. repeat split. Qed.

Lemma enumerate_map_seq {A} (g : nat -> A) (k : nat) :
  enumerate (map g (seq 0 k)) = map (fun j => (j, g j)) (seq 0 k).
Proof.
  unfold enumerate. rewrite length_map, length_seq.
  generalize 0%nat as s. induction k as [|k IH]; intros s; cbn.
  - reflexivity.
  - now rewrite IH.
Qed.

Lemma row_fit (x : list Q) (g : nat -> Q) (k : nat) :
  map (fun jv => nth (fst jv) x 0 * snd jv) (enumerate (map g (seq 0 k)))
  = map (fun j => nth j x 0 * g j) (seq 0 k).
Proof. now rewrite enumerate_map_seq, map_map. Qed.

(** The fitted value of observation [i], in the terms of the model. *)
Lemma fitted_nth (Xs : list (list Q)) (ys : list Q) (v : Lad.Vars) (i : nat) :
  (i < List.length Xs)%nat ->
  nth i (fitted Xs ys v) 0
  = sum (map (fun j => Lad.X (Lad.bind Xs ys) i j * Lad.m v j)
             (Lad.J (Lad.bind Xs ys)))
    + Lad.b v.
Proof.
  intros Hi. destruct (bind_sets Xs ys) as (_ & HJ & _ & HX).
  unfold fitted, y_fit, m_m, m_b. rewrite HJ.
  set (k := snd (Lad.shape Xs)).
  rewrite (map_ext _ (fun x => sum (map (fun j => nth j x 0 * Lad.m v j)
                                        (seq 0 k)) + Lad.b v))
    by (intros x; now rewrite row_fit).
  rewrite (nth_indep _ 0 ((fun x => sum (map (fun j => nth j x 0 * Lad.m v j)
                                              (seq 0 k)) + Lad.b v) []))
    by (now rewrite length_map).
  rewrite (map_nth (fun x => sum (map (fun j => nth j x 0 * Lad.m v j)
                                      (seq 0 k)) + Lad.b v)).
  reflexivity.
Qed.

Lemma feasible_residual (Xs : list (list Q)) (ys : list Q) (v : Lad.Vars)
      (i : nat) :
  LP.feasible (Lad.model (Lad.bind Xs ys)) v ->
  (i < List.length Xs)%nat ->
  0 <= Lad.ep v i /\ 0 <= Lad.em v i /\
  residual Xs ys v i == Lad.ep v i - Lad.em v i.
Proof.
  intros (Hp & Hm & _ & Hr) Hi.
  destruct (bind_sets Xs ys) as (HI & _ & Hy & _).
  rewrite HI, Forall_forall in Hp, Hm, Hr.
  assert (Hin : In i (seq 0 (List.length Xs))) by (apply in_seq; lia).
  specialize (Hp i Hin). specialize (Hm i Hin). specialize (Hr i Hin).
  unfold Lad.residuals in Hr. rewrite Hy in Hr.
  unfold residual. rewrite (fitted_nth Xs ys v i Hi).
  repeat split; try assumption. rewrite Hr. ring.
Qed.

Lemma residual_slopes (Xs : list (list Q)) (ys : list Q) (u v : Lad.Vars)
      (i : nat) :
  (i < List.length Xs)%nat ->
  Lad.m u = Lad.m v -> Lad.b u = Lad.b v ->
  residual Xs ys u i = residual Xs ys v i.
Proof.
  intros Hi Hm Hb. unfold residual.
  rewrite !(fitted_nth Xs ys _ i Hi), Hm, Hb. reflexivity.
Qed.

Lemma split_errors_feasible (Xs : list (list Q)) (ys : list Q)
      (slope : nat -> Q) (intercept : Q) :
  (forall j, In j (Lad.J (Lad.bind Xs ys)) -> 0 <= slope j) ->
  LP.feasible (Lad.model (Lad.bind Xs ys))
              (split_errors Xs ys slope intercept).
Proof.
  intros Hs. destruct (bind_sets Xs ys) as (HI & _ & Hy & _).
  cbn [LP.feasible Lad.model]. rewrite HI, !Forall_forall.
  split; [|split; [|split]].
  - intros i _. cbn [split_errors Lad.ep]. apply Q.le_max_r.
  - intros i _. cbn [split_errors Lad.em]. apply Q.le_max_r.
  - intros j Hj. cbn [split_errors Lad.m]. now apply Hs.
  - intros i Hi. apply in_seq in Hi.
    unfold Lad.residuals. rewrite Hy.
    cbn [split_errors Lad.ep Lad.em Lad.m Lad.b].
    set (v0 := {| Lad.ep := fun _ => 0; Lad.em := fun _ => 0;
                  Lad.m := slope; Lad.b := intercept |}).
    assert (Hres : residual Xs ys v0 i
                   == nth i ys 0
                      - sum (map (fun j => Lad.X (Lad.bind Xs ys) i j * slope j)
                                 (Lad.J (Lad.bind Xs ys)))
                      - intercept).
    { unfold residual. rewrite (fitted_nth Xs ys v0 i) by lia.
      cbn [v0 Lad.m Lad.b]. ring. }
    rewrite <- Hres.
    destruct (Q.max_spec (residual Xs ys v0 i) 0) as [[H1 E1]|[H1 E1]];
      destruct (Q.max_spec (- residual Xs ys v0 i) 0) as [[H2 E2]|[H2 E2]];
      rewrite E1, E2; lra.
Qed.

Lemma split_errors_objective (Xs : list (list Q)) (ys : list Q)
      (slope : nat -> Q) (intercept : Q) :
  Lad.sum_of_abs_errors (Lad.bind Xs ys)
                        (split_errors Xs ys slope intercept)
  == abs_error Xs ys (split_errors Xs ys slope intercept).
Proof.
  destruct (bind_sets Xs ys) as (HI & _).
  unfold Lad.sum_of_abs_errors, abs_error. rewrite HI.
  apply sum_map_ext. intros i Hi. apply in_seq in Hi.
  cbn [split_errors Lad.ep Lad.em].
  set (v0 := {| Lad.ep := fun _ => 0; Lad.em := fun _ => 0;
                Lad.m := slope; Lad.b := intercept |}).
  rewrite (residual_slopes Xs ys (split_errors Xs ys slope intercept) v0 i)
    by (try reflexivity; lia).
  set (e := residual Xs ys v0 i).
  apply (Qabs_case e (fun a => Qmax e 0 + Qmax (- e) 0 == a)); intros He;
    destruct (Q.max_spec e 0) as [[H1 E1]|[H1 E1]];
    destruct (Q.max_spec (- e) 0) as [[H2 E2]|[H2 E2]];
    rewrite E1, E2; lra.
Qed.

Lemma objective_bounds_abs_error (Xs : list (list Q)) (ys : list Q)
      (v : Lad.Vars) :
  LP.feasible (Lad.model (Lad.bind Xs ys)) v ->
  abs_error Xs ys v <= Lad.sum_of_abs_errors (Lad.bind Xs ys) v.
Proof.
  intros Fv. destruct (bind_sets Xs ys) as (HI & _).
  unfold Lad.sum_of_abs_errors, abs_error. rewrite HI.
  apply sum_map_le. intros i Hi. apply in_seq in Hi.
  destruct (feasible_residual Xs ys v i Fv) as (Hp & Hm & Hr); [lia|].
  apply (Qabs_case (residual Xs ys v i)
                   (fun a => a <= Lad.ep v i + Lad.em v i)); intros; lra.
Qed.

End LadFit.

(* ------------------------------------------------------------------ *)
(** ** Further properties of the notebooks *)

(** Two families ordered point-wise with equal sums are equal point-wise. *)
Lemma sum_map_le_eq {A} (g h : A -> Q) (l : list A) :
  (forall a, In a l -> g a <= h a) ->
  Series.sum (map g l) == Series.sum (map h l) ->
  forall a, In a l -> g a == h a.
Proof.
  induction l as [|a0 l IH]; intros Hle Hsum a Ha; [destruct Ha|].
  cbn [map] in Hsum. rewrite !Series.sum_cons in Hsum.
  assert (H0 : g a0 <= h a0) by (apply Hle; now left).
  assert (Hl : Series.sum (map g l) <= Series.sum (map h l))
    by (apply Series.sum_map_le; intros; apply Hle; now right).
  destruct Ha as [<-|Ha].
  - lra.
  - apply IH; [intros; apply Hle; now right | lra | exact Ha].
Qed.

(** X1.  At every optimal solution of the model bound by
    [lad_regression(X, y)], the objective equals the sum of the absolute
    residuals [|y - y_fit|] of the fitted values computed by the
    notebook, and no fit with non-negative slopes has a smaller sum of
    absolute residuals. *)
Theorem lad_objective_is_abs_error :
  forall (Xs : list (list Q)) (ys : list Q) (v : Lad.Vars),
    LP.optimal (Lad.model (Lad.bind Xs ys)) v ->
    Lad.sum_of_abs_errors (Lad.bind Xs ys) v == LadFit.abs_error Xs ys v /\
    forall u : Lad.Vars,
      (forall j, In j (Lad.J (Lad.bind Xs ys)) -> 0 <= Lad.m u j) ->
      LadFit.abs_error Xs ys v <= LadFit.abs_error Xs ys u.
Proof.
  intros Xs ys v [Fv Hv].
  assert (Hsplit : forall u : Lad.Vars,
             (forall j, In j (Lad.J (Lad.bind Xs ys)) -> 0 <= Lad.m u j) ->
             Lad.sum_of_abs_errors (Lad.bind Xs ys) v
             <= LadFit.abs_error Xs ys u).
  { intros u Hu.
    pose proof (Hv _ (LadFit.split_errors_feasible Xs ys (Lad.m u) (Lad.b u)
                        Hu)) as H.
    cbn [LP.at_least_as_good LP.sense LP.objective Lad.model] in H.
    rewrite LadFit.split_errors_objective in H.
    assert (Heq : LadFit.abs_error Xs ys
                    (LadFit.split_errors Xs ys (Lad.m u) (Lad.b u))
                  == LadFit.abs_error Xs ys u).
    { unfold LadFit.abs_error. apply Series.sum_map_ext.
      intros i Hi. apply in_seq in Hi.
      rewrite (LadFit.residual_slopes Xs ys
                 (LadFit.split_errors Xs ys (Lad.m u) (Lad.b u)) u i)
        by (try reflexivity; lia).
      reflexivity. }
    rewrite Heq in H. exact H. }
  pose proof (LadFit.objective_bounds_abs_error Xs ys v Fv) as Hge.
  assert (Hle : Lad.sum_of_abs_errors (Lad.bind Xs ys) v
                <= LadFit.abs_error Xs ys v).
  { apply Hsplit. intros j Hj. exact (Lad.slopes_nonneg _ _ Fv j Hj). }
  split; [lra|].
  intros u Hu. specialize (Hsplit u Hu). lra.
Qed.

(** The statement on the two points of the falling line. *)
Lemma lad_objective_falling :
  Lad.sum_of_abs_errors (Lad.bind Lad.falling_X Lad.falling_y) Lad.falling_fit
  == LadFit.abs_error Lad.falling_X Lad.falling_y Lad.falling_fit.
Proof.
  exact (proj1 (lad_objective_is_abs_error Lad.falling_X Lad.falling_y
                  Lad.falling_fit Lad.falling_fit_optimal)).
Defined.

(** X2.  At every optimal solution of the model of [lad_regression],
    the two error variables of each observation are the positive and the
    negative part of its residual [y - y_fit]: at most one of them is
    non-zero, and [ep + em] is the absolute residual. *)
Theorem lad_errors_split_residual :
  forall (Xs : list (list Q)) (ys : list Q) (v : Lad.Vars) (i : nat),
    LP.optimal (Lad.model (Lad.bind Xs ys)) v ->
    (i < List.length Xs)%nat ->
    Lad.ep v i == Qmax (LadFit.residual Xs ys v i) 0 /\
    Lad.em v i == Qmax (- LadFit.residual Xs ys v i) 0 /\
    Lad.ep v i + Lad.em v i == Qabs (LadFit.residual Xs ys v i) /\
    (Lad.ep v i == 0 \/ Lad.em v i == 0).
Proof.
  intros Xs ys v i Hv Hi.
  assert (Hopt := Hv). destruct Hv as [Fv Hv].
  (* objective = absolute error, hence term by term *)
  assert (Hsum : Series.sum (map (fun i => Qabs (LadFit.residual Xs ys v i))
                                 (seq 0 (List.length Xs)))
                 == Series.sum (map (fun i => Lad.ep v i + Lad.em v i)
                                    (seq 0 (List.length Xs)))).
  { pose proof (LadFit.objective_bounds_abs_error Xs ys v Fv) as Hge.
    pose proof (Hv _ (LadFit.split_errors_feasible Xs ys (Lad.m v) (Lad.b v)
                        (Lad.slopes_nonneg _ _ Fv))) as Hle.
    cbn [LP.at_least_as_good LP.sense LP.objective Lad.model] in Hle.
    rewrite LadFit.split_errors_objective in Hle.
    assert (Heq : LadFit.abs_error Xs ys
                    (LadFit.split_errors Xs ys (Lad.m v) (Lad.b v))
                  == LadFit.abs_error Xs ys v).
    { unfold LadFit.abs_error. apply Series.sum_map_ext.
      intros k Hk. apply in_seq in Hk.
      rewrite (LadFit.residual_slopes Xs ys
                 (LadFit.split_errors Xs ys (Lad.m v) (Lad.b v)) v k)
        by (try reflexivity; lia).
      reflexivity. }
    rewrite Heq in Hle.
    unfold LadFit.abs_error, Lad.sum_of_abs_errors in *.
    destruct (LadFit.bind_sets Xs ys) as (HI & _). rewrite HI in *.
    apply Qle_antisym; assumption. }
  assert (Hterm : Qabs (LadFit.residual Xs ys v i)
                  == Lad.ep v i + Lad.em v i).
  { apply (sum_map_le_eq (fun i => Qabs (LadFit.residual Xs ys v i))
                         (fun i => Lad.ep v i + Lad.em v i)
                         (seq 0 (List.length Xs))).
    - intros k Hk. apply in_seq in Hk.
      destruct (LadFit.feasible_residual Xs ys v k Fv) as (Hp & Hm & Hr);
        [lia|].
      apply (Qabs_case (LadFit.residual Xs ys v k)
                       (fun a => a <= Lad.ep v k + Lad.em v k)); intros; lra.
    - exact Hsum.
    - apply in_seq. lia. }
  destruct (LadFit.feasible_residual Xs ys v i Fv Hi) as (Hp & Hm & Hr).
  set (e := LadFit.residual Xs ys v i) in *.
  assert (Hcase : (0 <= e /\ Qabs e == e) \/ (e <= 0 /\ Qabs e == - e)).
  { apply (Qabs_case e (fun a => (0 <= e /\ a == e) \/ (e <= 0 /\ a == - e)));
      intros He; [left | right]; split; try assumption; reflexivity. }
  rewrite Hterm.
  destruct (Q.max_spec e 0) as [[H1 E1]|[H1 E1]];
    destruct (Q.max_spec (- e) 0) as [[H2 E2]|[H2 E2]];
    rewrite E1, E2;
    destruct Hcase as [[Hs Ha]|[Hs Ha]]; rewrite Ha in Hterm;
    (split; [lra | split; [lra | split; [lra|]]]);
    first [left; lra | right; lra].
Qed.

(** The split on the second point of the falling line, one unit below
    the fitted value. *)
Lemma lad_errors_falling :
  Lad.ep Lad.falling_fit 1%nat
  == Qmax (LadFit.residual Lad.falling_X Lad.falling_y Lad.falling_fit 1) 0 /\
  Lad.em Lad.falling_fit 1%nat
  == Qmax (- LadFit.residual Lad.falling_X Lad.falling_y Lad.falling_fit 1) 0
  /\
  Lad.ep Lad.falling_fit 1%nat + Lad.em Lad.falling_fit 1%nat
  == Qabs (LadFit.residual Lad.falling_X Lad.falling_y Lad.falling_fit 1) /\
  (Lad.ep Lad.falling_fit 1%nat == 0 \/ Lad.em Lad.falling_fit 1%nat == 0).
Proof.
  apply (lad_errors_split_residual Lad.falling_X Lad.falling_y
           Lad.falling_fit 1%nat Lad.falling_fit_optimal).
  cbn. lia.
Defined.

(** X3.  The model of [lad_regression] is feasible for every data set,
    also the empty one, and its objective is never negative: the fit with
    all slopes and the intercept zero, its errors split by sign, is
    feasible. *)
Theorem lad_feasible_and_bounded :
  forall (Xs : list (list Q)) (ys : list Q),
    LP.feasible (Lad.model (Lad.bind Xs ys))
                (LadFit.split_errors Xs ys (fun _ => 0) 0) /\
    (forall v, LP.feasible (Lad.model (Lad.bind Xs ys)) v ->
               0 <= Lad.sum_of_abs_errors (Lad.bind Xs ys) v) /\
    (Xs = [] -> forall v, Lad.sum_of_abs_errors (Lad.bind Xs ys) v == 0).
Proof.
  intros Xs ys. split; [|split].
  - apply LadFit.split_errors_feasible. intros j _. lra.
  - intros v (Hp & Hm & _). unfold Lad.sum_of_abs_errors.
    apply Series.sum_map_nonneg. intros i Hi.
    rewrite Forall_forall in Hp, Hm.
    specialize (Hp i Hi). specialize (Hm i Hi). lra.
  - intros -> v. reflexivity.
Qed.

(** X4.  Weak duality, as the notebook derives it: the profit of every
    feasible production plan of the BIM model is at most the objective
    of every feasible point of [bim_dual.mod]; hence a feasible pair with
    equal objective values is optimal for both models. *)
Theorem bim_weak_duality :
  forall (x : Bim.Vars) (y : Bim.Dual.Vars),
    LP.feasible Bim.model x ->
    LP.feasible Bim.Dual.model y ->
    Bim.profit x <= Bim.Dual.obj y /\
    (Bim.profit x == Bim.Dual.obj y ->
     LP.optimal Bim.model x /\ LP.optimal Bim.Dual.model y).
Proof.
  assert (Hweak : forall x y, LP.feasible Bim.model x ->
                              LP.feasible Bim.Dual.model y ->
                              Bim.profit x <= Bim.Dual.obj y).
  { intros [x1 x2] [y1 y2 y3 y4] Fx Fy.
    cbv [LP.feasible Bim.model Bim.Dual.model Bim.silicon Bim.germanium
         Bim.plastic Bim.copper Bim.Dual.x1 Bim.Dual.x2 Bim.profit
         Bim.Dual.obj Bim.x1 Bim.x2 Bim.Dual.y1 Bim.Dual.y2 Bim.Dual.y3
         Bim.Dual.y4] in *.
    nra. }
  intros x y Fx Fy. split; [now apply Hweak|].
  intros Heq. split; split; try assumption.
  - intros x' Fx'. cbn [LP.at_least_as_good LP.sense LP.objective Bim.model].
    rewrite Heq. now apply Hweak.
  - intros y' Fy'.
    cbn [LP.at_least_as_good LP.sense LP.objective Bim.Dual.model].
    rewrite <- Heq. now apply Hweak.
Qed.

(** Weak duality at the printed primal and dual solutions. *)
Lemma bim_weak_duality_printed :
  Bim.profit Bim.plan <= Bim.Dual.obj Bim.Dual.multipliers.
Proof.
  exact (proj1 (bim_weak_duality Bim.plan Bim.Dual.multipliers
                  (proj1 Bim.plan_optimal) (proj1 Bim.multipliers_optimal))).
Defined.

(* ------------------------------------------------------------------ *)
(** ** BIM production variants: costs subtracted, and revenue over cost *)

Module BimVariants.

(** *** [BIM_with_revenues_minus_costs.mod]

    [var revenue = 12 * x1 + 9 * x2;]
    [var variable_cost = 7/6 * x1 + 5/6 * x2;] *)
Definition revenue (v : Bim.Vars) : Q := 12 * Bim.x1 v + 9 * Bim.x2 v.
Definition variable_cost (v : Bim.Vars) : Q :=
  7 / 6 * Bim.x1 v + 5 / 6 * Bim.x2 v.

(** [param fixed_cost default 100;] *)
Definition default_fixed_cost : Q := 100.

(** [maximize profit: revenue - variable_cost - fixed_cost;] with the
    constraints of the BIM model. *)
Definition minus_costs (fixed_cost : Q) : LP.Model Bim.Vars :=
  {| LP.sense := LP.maximize;
     LP.objective := fun v => revenue v - variable_cost v - fixed_cost;
     LP.feasible := LP.feasible Bim.model |}.

(** The cost printed by the cell:
    [variable_cost.value() + fixed_cost.value()]. *)
Definition cost (fixed_cost : Q) (v : Bim.Vars) : Q :=
  variable_cost v + fixed_cost.

(** Revenue over cost of a production plan. *)
Definition efficiency (fixed_cost : Q) (v : Bim.Vars) : Q :=
  revenue v / cost fixed_cost v.

(** *** [BIM_with_revenues_over_costs.mod] *)
Module OverCosts.

(** [var y1 >= 0; var y2 >= 0; var t >= 0;] *)
Record Vars := {
  y1 : Q;
  y2 : Q;
  t : Q
}.

(** [var revenue = 12 * y1 + 9 * y2;]
    [var variable_cost = 7/6 * y1 + 5/6 * y2;] *)
Definition revenue (v : Vars) : Q := 12 * y1 v + 9 * y2 v.
Definition variable_cost (v : Vars) : Q := 7 / 6 * y1 v + 5 / 6 * y2 v.

Definition silicon (v : Vars) : Prop := y1 v <= 1000 * t v.
Definition germanium (v : Vars) : Prop := y2 v <= 1500 * t v.
Definition plastic (v : Vars) : Prop := y1 v + y2 v <= 1750 * t v.
Definition copper (v : Vars) : Prop := 4 * y1 v + 2 * y2 v <= 4800 * t v.

(** [s.t. frac: variable_cost + fixed_cost * t == 1;] *)
Definition frac (fixed_cost : Q) (v : Vars) : Prop :=
  variable_cost v + fixed_cost * t v == 1.

(** [maximize profit: revenue;] *)
Definition model (fixed_cost : Q) : LP.Model Vars :=
  {| LP.sense := LP.maximize;
     LP.objective := revenue;
     LP.feasible := fun v =>
       (0 <= y1 v /\ 0 <= y2 v /\ 0 <= t v) /\
       silicon v /\ germanium v /\ plastic v /\ copper v /\
       frac fixed_cost v |}.

(** What the cell prints after the solve: [x = (y1 / t, y2 / t)],
    [value = profit / (variable_cost + fixed_cost * t)],
    [revenue / t] and [variable_cost / t + fixed_cost]. *)
Definition printed_plan (v : Vars) : Bim.Vars :=
  {| Bim.x1 := y1 v / t v; Bim.x2 := y2 v / t v |}.

Definition printed_value (fixed_cost : Q) (v : Vars) : Q :=
  revenue v / (variable_cost v + fixed_cost * t v).

Definition printed_revenue (v : Vars) : Q := revenue v / t v.

Definition printed_cost (fixed_cost : Q) (v : Vars) : Q :=
  variable_cost v / t v + fixed_cost.

End OverCosts.

(** A production plan scaled into the variables of the second model. *)
Definition scaled (fixed_cost : Q) (x : Bim.Vars) : OverCosts.Vars :=
  {| OverCosts.y1 := Bim.x1 x / cost fixed_cost x;
     OverCosts.y2 := Bim.x2 x / cost fixed_cost x;
     OverCosts.t := 1 / cost fixed_cost x |}.

(** The plan printed for the second model. *)
Definition efficient_plan : Bim.Vars := {| Bim.x1 := 250; Bim.x2 := 1500 |}.

Lemma minus_costs_unique_optimum (fixed_cost : Q) :
  LP.unique_optimum Bim.same (minus_costs fixed_cost) Bim.plan.
Proof.
  split.
  - exact (proj1 Bim.plan_optimal).
  - intros [b1 b2] Fb Hb.
    cbv [LP.feasible LP.objective LP.sense LP.at_least_as_good minus_costs
         Bim.model Bim.silicon Bim.germanium Bim.plastic Bim.copper
         revenue variable_cost Bim.plan Bim.same Bim.x1 Bim.x2] in *.
    change (7 / 6) with (7 # 6) in *. change (5 / 6) with (5 # 6) in *.
    lra.
Qed.

Lemma minus_costs_plan_optimal (fixed_cost : Q) :
  LP.optimal (minus_costs fixed_cost) Bim.plan.
Proof.
  split.
  - exact (proj1 Bim.plan_optimal).
  - intros [b1 b2] Fb.
    cbv [LP.feasible LP.objective LP.sense LP.at_least_as_good minus_costs
         Bim.model Bim.silicon Bim.germanium Bim.plastic Bim.copper
         revenue variable_cost Bim.plan Bim.x1 Bim.x2] in *.
    change (7 / 6) with (7 # 6) in *. change (5 / 6) with (5 # 6) in *.
    lra.
Qed.

(** Optimality depends on the values of the variables only. *)
Lemma same_optimal (M : LP.Model Bim.Vars) (u v : Bim.Vars) :
  (forall a b, Bim.same a b -> LP.objective M a == LP.objective M b) ->
  LP.feasible M = LP.feasible Bim.model ->
  Bim.same u v -> LP.optimal M v -> LP.optimal M u.
Proof.
  intros Hobj Hfeas [H1 H2] [Fv Hv]. split.
  - rewrite Hfeas in *.
    cbv [LP.feasible Bim.model Bim.silicon Bim.germanium Bim.plastic
         Bim.copper] in *.
    rewrite H1, H2. exact Fv.
  - intros b Fb. specialize (Hv b Fb).
    pose proof (Hobj u v (conj H1 H2)) as Huv.
    destruct (LP.sense M); cbn [LP.at_least_as_good] in *; lra.
Qed.

End BimVariants.

(** Dividing by a positive number keeps the order. *)
Lemma Qdiv_le_compat_pos (a b c : Q) : 0 < c -> a <= b -> a / c <= b / c.
Proof.
  intros Hc Hab. apply Qle_shift_div_l; [exact Hc|].
  assert (H : a / c * c == a) by (field; lra). rewrite H. exact Hab.
Qed.

Lemma over_costs_t_positive (fixed_cost : Q) (v : BimVariants.OverCosts.Vars) :
  LP.feasible (BimVariants.OverCosts.model fixed_cost) v ->
  0 < BimVariants.OverCosts.t v.
Proof.
  destruct v as [y1 y2 t].
  cbv [LP.feasible BimVariants.OverCosts.model BimVariants.OverCosts.silicon
       BimVariants.OverCosts.germanium BimVariants.OverCosts.plastic
       BimVariants.OverCosts.copper BimVariants.OverCosts.frac
       BimVariants.OverCosts.variable_cost BimVariants.OverCosts.y1
       BimVariants.OverCosts.y2 BimVariants.OverCosts.t].
  change (7 / 6) with (7 # 6). change (5 / 6) with (5 # 6).
  intros ((H1 & H2 & Ht) & Hs & Hg & _ & _ & Hfrac).
  destruct (Qlt_le_dec 0 t) as [Hpos|Hneg]; [exact Hpos|].
  exfalso.
  assert (Ht0 : t == 0) by lra.
  assert (Hft : fixed_cost * t == 0) by (rewrite Ht0; ring).
  lra.
Qed.

Lemma printed_plan_cost (fixed_cost : Q) (v : BimVariants.OverCosts.Vars) :
  LP.feasible (BimVariants.OverCosts.model fixed_cost) v ->
  BimVariants.cost fixed_cost (BimVariants.OverCosts.printed_plan v)
  == 1 / BimVariants.OverCosts.t v.
Proof.
  intros Fv. pose proof (over_costs_t_positive fixed_cost v Fv) as Ht.
  destruct Fv as (_ & _ & _ & _ & _ & Hfrac).
  destruct v as [y1 y2 t].
  cbv [BimVariants.cost BimVariants.variable_cost
       BimVariants.OverCosts.printed_plan BimVariants.OverCosts.frac
       BimVariants.OverCosts.variable_cost BimVariants.OverCosts.y1
       BimVariants.OverCosts.y2 BimVariants.OverCosts.t Bim.x1 Bim.x2] in *.
  assert (H : 7 / 6 * (y1 / t) + 5 / 6 * (y2 / t) + fixed_cost
              == (7 / 6 * y1 + 5 / 6 * y2 + fixed_cost * t) / t)
    by (field; lra).
  rewrite H, Hfrac. reflexivity.
Qed.

Lemma printed_plan_feasible (fixed_cost : Q) (v : BimVariants.OverCosts.Vars) :
  LP.feasible (BimVariants.OverCosts.model fixed_cost) v ->
  LP.feasible Bim.model (BimVariants.OverCosts.printed_plan v).
Proof.
  intros Fv. pose proof (over_costs_t_positive fixed_cost v Fv) as Ht.
  destruct v as [y1 y2 t].
  cbv [LP.feasible BimVariants.OverCosts.model BimVariants.OverCosts.silicon
       BimVariants.OverCosts.germanium BimVariants.OverCosts.plastic
       BimVariants.OverCosts.copper BimVariants.OverCosts.printed_plan
       Bim.model Bim.silicon Bim.germanium Bim.plastic Bim.copper
       BimVariants.OverCosts.y1 BimVariants.OverCosts.y2
       BimVariants.OverCosts.t Bim.x1 Bim.x2] in *.
  destruct Fv as ((H1 & H2 & _) & Hs & Hg & Hp & Hc & _).
  assert (E1 : y1 / t * t == y1) by (field; lra).
  assert (E2 : y2 / t * t == y2) by (field; lra).
  assert (P1 : forall a b, a * t <= b * t -> a <= b)
    by (intros a b; now apply Qmult_le_r).
  repeat split; apply P1.
  - rewrite E1. lra.
  - rewrite E2. lra.
  - rewrite E1. exact Hs.
  - rewrite E2. exact Hg.
  - rewrite Qmult_plus_distr_l, E1, E2. exact Hp.
  - assert (E : (4 * (y1 / t) + 2 * (y2 / t)) * t
                == 4 * (y1 / t * t) + 2 * (y2 / t * t)) by ring.
    rewrite E, E1, E2. exact Hc.
Qed.

Lemma printed_plan_efficiency (fixed_cost : Q)
      (v : BimVariants.OverCosts.Vars) :
  LP.feasible (BimVariants.OverCosts.model fixed_cost) v ->
  BimVariants.efficiency fixed_cost (BimVariants.OverCosts.printed_plan v)
  == BimVariants.OverCosts.revenue v.
Proof.
  intros Fv. pose proof (over_costs_t_positive fixed_cost v Fv) as Ht.
  unfold BimVariants.efficiency.
  rewrite (printed_plan_cost fixed_cost v Fv).
  destruct v as [y1 y2 t].
  cbv [BimVariants.revenue BimVariants.OverCosts.revenue
       BimVariants.OverCosts.printed_plan BimVariants.OverCosts.y1
       BimVariants.OverCosts.y2 BimVariants.OverCosts.t Bim.x1 Bim.x2] in *.
  field. lra.
Qed.

Lemma scaled_feasible (fixed_cost : Q) (x : Bim.Vars) :
  LP.feasible Bim.model x ->
  0 < BimVariants.cost fixed_cost x ->
  LP.feasible (BimVariants.OverCosts.model fixed_cost)
              (BimVariants.scaled fixed_cost x).
Proof.
  intros Fx Hc.
  unfold BimVariants.scaled. set (k := BimVariants.cost fixed_cost x) in *.
  assert (Hk : BimVariants.variable_cost x + fixed_cost == k) by reflexivity.
  destruct x as [x1 x2].
  cbv [LP.feasible BimVariants.OverCosts.model BimVariants.OverCosts.silicon
       BimVariants.OverCosts.germanium BimVariants.OverCosts.plastic
       BimVariants.OverCosts.copper BimVariants.OverCosts.frac
       BimVariants.OverCosts.variable_cost BimVariants.variable_cost
       Bim.model Bim.silicon Bim.germanium Bim.plastic Bim.copper
       BimVariants.OverCosts.y1 BimVariants.OverCosts.y2
       BimVariants.OverCosts.t Bim.x1 Bim.x2] in *.
  destruct Fx as ((H1 & H2) & Hs & Hg & Hp & Hcu).
  assert (D : forall a b, a <= b -> a / k <= b / k)
    by (intros a b; now apply Qdiv_le_compat_pos).
  split; [|split; [|split; [|split; [|split]]]].
  - repeat split.
    + pose proof (D _ _ H1) as H. assert (E : 0 / k == 0) by (field; lra).
      rewrite E in H. exact H.
    + pose proof (D _ _ H2) as H. assert (E : 0 / k == 0) by (field; lra).
      rewrite E in H. exact H.
    + apply Qlt_le_weak. assert (E : 1 / k == / k) by (field; lra).
      rewrite E. now apply Qinv_lt_0_compat.
  - pose proof (D _ _ Hs) as H.
    assert (E : 1000 * (1 / k) == 1000 / k) by (field; lra).
    rewrite E. exact H.
  - pose proof (D _ _ Hg) as H.
    assert (E : 1500 * (1 / k) == 1500 / k) by (field; lra).
    rewrite E. exact H.
  - pose proof (D _ _ Hp) as H.
    assert (E : 1750 * (1 / k) == 1750 / k) by (field; lra).
    assert (E' : x1 / k + x2 / k == (x1 + x2) / k) by (field; lra).
    rewrite E, E'. exact H.
  - pose proof (D _ _ Hcu) as H.
    assert (E : 4800 * (1 / k) == 4800 / k) by (field; lra).
    assert (E' : 4 * (x1 / k) + 2 * (x2 / k) == (4 * x1 + 2 * x2) / k)
      by (field; lra).
    rewrite E, E'. exact H.
  - assert (E : 7 / 6 * (x1 / k) + 5 / 6 * (x2 / k) + fixed_cost * (1 / k)
                == (7 / 6 * x1 + 5 / 6 * x2 + fixed_cost) / k)
      by (field; lra).
    rewrite E, Hk. field. lra.
Qed.

Lemma scaled_revenue (fixed_cost : Q) (x : Bim.Vars) :
  0 < BimVariants.cost fixed_cost x ->
  BimVariants.OverCosts.revenue (BimVariants.scaled fixed_cost x)
  == BimVariants.efficiency fixed_cost x.
Proof.
  intros Hc.
  unfold BimVariants.scaled, BimVariants.efficiency.
  set (k := BimVariants.cost fixed_cost x) in *.
  destruct x as [x1 x2].
  cbv [BimVariants.OverCosts.revenue BimVariants.revenue
       BimVariants.OverCosts.y1 BimVariants.OverCosts.y2 Bim.x1 Bim.x2].
  field. lra.
Qed.

(** X5.  Whatever the fixed cost, the model that subtracts the costs has
    the same optimal solutions as the BIM model: the plan (650, 1100),
    with revenue 17700, variable cost 1675 and objective
    17700 - 1675 - fixed_cost (15925 for the default fixed cost 100). *)
Theorem minus_costs_same_plan :
  forall (fixed_cost : Q) (v : Bim.Vars),
    (LP.optimal (BimVariants.minus_costs fixed_cost) v <->
     LP.optimal Bim.model v) /\
    (LP.optimal (BimVariants.minus_costs fixed_cost) v ->
     Bim.same v Bim.plan /\
     BimVariants.revenue v == 17700 /\
     BimVariants.variable_cost v == 1675 /\
     LP.objective (BimVariants.minus_costs fixed_cost) v
     == 17700 - 1675 - fixed_cost) /\
    LP.objective (BimVariants.minus_costs BimVariants.default_fixed_cost)
                 Bim.plan == 15925.
Proof.
  intros fixed_cost v.
  assert (Hobj1 : forall a b, Bim.same a b ->
                    LP.objective (BimVariants.minus_costs fixed_cost) a
                    == LP.objective (BimVariants.minus_costs fixed_cost) b).
  { intros [a1 a2] [b1 b2] [H1 H2].
    cbv [LP.objective BimVariants.minus_costs BimVariants.revenue
         BimVariants.variable_cost Bim.x1 Bim.x2] in *.
    rewrite H1, H2. reflexivity. }
  assert (Hobj2 : forall a b, Bim.same a b ->
                    LP.objective Bim.model a == LP.objective Bim.model b).
  { intros [a1 a2] [b1 b2] [H1 H2].
    cbv [LP.objective Bim.model Bim.profit Bim.x1 Bim.x2] in *.
    rewrite H1, H2. reflexivity. }
  split; [|split].
  - split; intros Hv.
    + apply (BimVariants.same_optimal Bim.model v Bim.plan Hobj2 eq_refl);
        [|exact Bim.plan_optimal].
      exact (LP.unique_optimum_only Bim.same _ Bim.plan v
               (BimVariants.minus_costs_unique_optimum fixed_cost) Hv).
    + apply (BimVariants.same_optimal (BimVariants.minus_costs fixed_cost)
               v Bim.plan Hobj1 eq_refl);
        [|exact (BimVariants.minus_costs_plan_optimal fixed_cost)].
      exact (LP.unique_optimum_only Bim.same _ Bim.plan v
               Bim.plan_unique_optimum Hv).
  - intros Hv.
    pose proof (LP.unique_optimum_only Bim.same _ Bim.plan v
                  (BimVariants.minus_costs_unique_optimum fixed_cost) Hv)
      as Hsame.
    split; [exact Hsame|]. destruct Hsame as [H1 H2].
    destruct v as [v1 v2].
    cbv [LP.objective BimVariants.minus_costs BimVariants.revenue
         BimVariants.variable_cost Bim.plan Bim.x1 Bim.x2] in *.
    change (7 / 6) with (7 # 6). change (5 / 6) with (5 # 6).
    repeat split; lra.
  - vm_compute. reflexivity.
Qed.

(** The cost-subtracting model at the printed plan. *)
Lemma minus_costs_printed :
  Bim.same Bim.plan Bim.plan /\
  BimVariants.revenue Bim.plan == 17700 /\
  BimVariants.variable_cost Bim.plan == 1675 /\
  LP.objective (BimVariants.minus_costs 100) Bim.plan == 17700 - 1675 - 100.
Proof.
  exact (proj1 (proj2 (minus_costs_same_plan 100 Bim.plan))
               (BimVariants.minus_costs_plan_optimal 100)).
Defined.

(** What the printing cell computes from a feasible point. *)
Lemma printed_value_objective (fixed_cost : Q)
      (v : BimVariants.OverCosts.Vars) :
  LP.feasible (BimVariants.OverCosts.model fixed_cost) v ->
  BimVariants.OverCosts.printed_value fixed_cost v
  == BimVariants.OverCosts.revenue v.
Proof.
  intros Fv. destruct Fv as (_ & _ & _ & _ & _ & Hfrac).
  unfold BimVariants.OverCosts.printed_value.
  unfold BimVariants.OverCosts.frac in Hfrac. rewrite Hfrac.
  field.
Qed.

Lemma printed_revenue_plan (v : BimVariants.OverCosts.Vars) :
  0 < BimVariants.OverCosts.t v ->
  BimVariants.OverCosts.printed_revenue v
  == BimVariants.revenue (BimVariants.OverCosts.printed_plan v).
Proof.
  intros Ht. destruct v as [y1 y2 t].
  cbv [BimVariants.OverCosts.printed_revenue BimVariants.OverCosts.revenue
       BimVariants.revenue BimVariants.OverCosts.printed_plan
       BimVariants.OverCosts.y1 BimVariants.OverCosts.y2
       BimVariants.OverCosts.t Bim.x1 Bim.x2] in *.
  field. lra.
Qed.

Lemma printed_cost_plan (fixed_cost : Q) (v : BimVariants.OverCosts.Vars) :
  0 < BimVariants.OverCosts.t v ->
  BimVariants.OverCosts.printed_cost fixed_cost v
  == BimVariants.cost fixed_cost (BimVariants.OverCosts.printed_plan v).
Proof.
  intros Ht. destruct v as [y1 y2 t].
  cbv [BimVariants.OverCosts.printed_cost BimVariants.cost
       BimVariants.OverCosts.variable_cost BimVariants.variable_cost
       BimVariants.OverCosts.printed_plan
       BimVariants.OverCosts.y1 BimVariants.OverCosts.y2
       BimVariants.OverCosts.t Bim.x1 Bim.x2] in *.
  field. lra.
Qed.

(** X6.  At every feasible point of the revenue-over-cost model the
    auxiliary variable [t] is positive, so the divisions of the printing
    cell are defined; the printed plan [(y1 / t, y2 / t)] satisfies the
    constraints of the BIM model, the printed value equals the objective
    [revenue], and this is the revenue-to-cost ratio of the printed plan;
    the printed revenue and cost are the revenue and cost of that plan. *)
Theorem over_costs_printed_plan :
  forall (fixed_cost : Q) (v : BimVariants.OverCosts.Vars),
    LP.feasible (BimVariants.OverCosts.model fixed_cost) v ->
    0 < BimVariants.OverCosts.t v /\
    LP.feasible Bim.model (BimVariants.OverCosts.printed_plan v) /\
    BimVariants.OverCosts.printed_value fixed_cost v
    == BimVariants.OverCosts.revenue v /\
    BimVariants.OverCosts.revenue v
    == BimVariants.efficiency fixed_cost
         (BimVariants.OverCosts.printed_plan v) /\
    BimVariants.OverCosts.printed_revenue v
    == BimVariants.revenue (BimVariants.OverCosts.printed_plan v) /\
    BimVariants.OverCosts.printed_cost fixed_cost v
    == BimVariants.cost fixed_cost (BimVariants.OverCosts.printed_plan v).
Proof.
  intros fixed_cost v Fv.
  pose proof (over_costs_t_positive fixed_cost v Fv) as Ht.
  split; [exact Ht|].
  split; [exact (printed_plan_feasible fixed_cost v Fv)|].
  split; [exact (printed_value_objective fixed_cost v Fv)|].
  split; [symmetry; exact (printed_plan_efficiency fixed_cost v Fv)|].
  split; [exact (printed_revenue_plan v Ht)|].
  exact (printed_cost_plan fixed_cost v Ht).
Qed.

Lemma efficient_plan_cost :
  0 < BimVariants.cost 100 BimVariants.efficient_plan /\
  LP.feasible Bim.model BimVariants.efficient_plan.
Proof.
  cbv [BimVariants.cost BimVariants.variable_cost BimVariants.efficient_plan
       LP.feasible Bim.model Bim.silicon Bim.germanium Bim.plastic
       Bim.copper Bim.x1 Bim.x2].
  change (7 / 6) with (7 # 6). change (5 / 6) with (5 # 6). lra.
Qed.

(** The printing cell on the scaled plan (250, 1500). *)
Lemma over_costs_printed_efficient_plan :
  0 < BimVariants.OverCosts.t (BimVariants.scaled 100
                                 BimVariants.efficient_plan).
Proof.
  exact (proj1 (over_costs_printed_plan 100
                  (BimVariants.scaled 100 BimVariants.efficient_plan)
                  (scaled_feasible 100 BimVariants.efficient_plan
                     (proj2 efficient_plan_cost)
                     (proj1 efficient_plan_cost)))).
Defined.

(** X7.  The plan printed from an optimal solution of the
    revenue-over-cost model has the largest revenue-to-cost ratio among
    all plans that satisfy the BIM constraints and have a positive cost:
    solving the linear reformulation maximizes the fraction. *)
Theorem over_costs_maximizes_efficiency :
  forall (fixed_cost : Q) (v : BimVariants.OverCosts.Vars) (x : Bim.Vars),
    LP.optimal (BimVariants.OverCosts.model fixed_cost) v ->
    LP.feasible Bim.model x ->
    0 < BimVariants.cost fixed_cost x ->
    BimVariants.efficiency fixed_cost x
    <= BimVariants.efficiency fixed_cost
         (BimVariants.OverCosts.printed_plan v).
Proof.
  intros fixed_cost v x [Fv Hv] Fx Hc.
  specialize (Hv _ (scaled_feasible fixed_cost x Fx Hc)).
  cbn [LP.at_least_as_good LP.sense LP.objective BimVariants.OverCosts.model]
    in Hv.
  rewrite (scaled_revenue fixed_cost x Hc) in Hv.
  rewrite (printed_plan_efficiency fixed_cost v Fv). exact Hv.
Qed.

(** With the default fixed cost no plan is more efficient than
    (250, 1500), and only that plan reaches its ratio 1980/197. *)
Lemma efficient_plan_bound (x : Bim.Vars) :
  LP.feasible Bim.model x ->
  0 < BimVariants.cost 100 x /\
  BimVariants.efficiency 100 x <= 1980 # 197 /\
  (BimVariants.efficiency 100 x == 1980 # 197 ->
   Bim.same x BimVariants.efficient_plan).
Proof.
  intros Fx. destruct x as [x1 x2].
  cbv [LP.feasible Bim.model Bim.silicon Bim.germanium Bim.plastic Bim.copper
       BimVariants.efficiency BimVariants.cost BimVariants.revenue
       BimVariants.variable_cost BimVariants.efficient_plan Bim.same
       Bim.x1 Bim.x2] in *.
  change (7 / 6) with (7 # 6). change (5 / 6) with (5 # 6).
  set (k := (7 # 6) * x1 + (5 # 6) * x2 + 100).
  assert (Hk : 0 < k) by (unfold k; lra).
  split; [exact Hk|]. split.
  - apply Qle_shift_div_r; [exact Hk|]. unfold k. lra.
  - intros Heq.
    assert (H : 12 * x1 + 9 * x2 == (1980 # 197) * k).
    { rewrite <- Heq. field. lra. }
    unfold k in H. split; lra.
Qed.

Lemma scaled_efficient_plan_optimal :
  LP.optimal (BimVariants.OverCosts.model 100)
             (BimVariants.scaled 100 BimVariants.efficient_plan).
Proof.
  destruct efficient_plan_cost as [Hc Fe].
  split; [exact (scaled_feasible 100 _ Fe Hc)|].
  intros b Fb.
  cbn [LP.at_least_as_good LP.sense LP.objective BimVariants.OverCosts.model].
  rewrite (scaled_revenue 100 _ Hc).
  rewrite <- (printed_plan_efficiency 100 b Fb).
  destruct (efficient_plan_bound _ (printed_plan_feasible 100 b Fb))
    as (_ & Hle & _).
  assert (He : BimVariants.efficiency 100 BimVariants.efficient_plan
               == 1980 # 197) by (vm_compute; reflexivity).
  rewrite He. exact Hle.
Qed.

(** The reformulation at its printed optimum, compared with the plan
    that maximizes revenue minus cost. *)
Lemma over_costs_beats_profit_plan :
  BimVariants.efficiency 100 Bim.plan
  <= BimVariants.efficiency 100
       (BimVariants.OverCosts.printed_plan
          (BimVariants.scaled 100 BimVariants.efficient_plan)).
Proof.
  apply (over_costs_maximizes_efficiency 100
           (BimVariants.scaled 100 BimVariants.efficient_plan) Bim.plan
           scaled_efficient_plan_optimal (proj1 Bim.plan_optimal)).
  vm_compute. reflexivity.
Defined.

(** X8.  With the default fixed cost 100, every optimal solution of the
    revenue-over-cost model prints the plan (250, 1500), with revenue
    16500, cost 9850/6 and ratio 1980/197; an optimal solution exists,
    and the ratio 17700/1775 of the plan (650, 1100) that maximizes
    revenue minus cost is strictly smaller. *)
Theorem over_costs_default_optimum :
  (exists v, LP.optimal (BimVariants.OverCosts.model 100) v) /\
  (forall v : BimVariants.OverCosts.Vars,
      LP.optimal (BimVariants.OverCosts.model 100) v ->
      Bim.same (BimVariants.OverCosts.printed_plan v)
               BimVariants.efficient_plan /\
      BimVariants.OverCosts.printed_value 100 v == 1980 # 197 /\
      BimVariants.OverCosts.printed_revenue v == 16500 /\
      BimVariants.OverCosts.printed_cost 100 v == 9850 # 6) /\
  BimVariants.efficiency 100 Bim.plan == 17700 / 1775 /\
  BimVariants.efficiency 100 Bim.plan < 1980 # 197.
Proof.
  split; [exists (BimVariants.scaled 100 BimVariants.efficient_plan);
          exact scaled_efficient_plan_optimal|].
  split; [|split; vm_compute; reflexivity].
  intros v Hv.
  pose proof (LP.optimal_objective_unique _ _ _ Hv
                scaled_efficient_plan_optimal) as Hobj.
  cbn [LP.objective BimVariants.OverCosts.model] in Hobj.
  rewrite (scaled_revenue 100 _ (proj1 efficient_plan_cost)) in Hobj.
  assert (He : BimVariants.efficiency 100 BimVariants.efficient_plan
               == 1980 # 197) by (vm_compute; reflexivity).
  rewrite He in Hobj.
  destruct Hv as [Fv _].
  pose proof (over_costs_t_positive 100 v Fv) as Ht.
  pose proof (printed_plan_feasible 100 v Fv) as Fp.
  pose proof (printed_value_objective 100 v Fv) as Hval.
  pose proof (printed_plan_efficiency 100 v Fv) as Heff. symmetry in Heff.
  pose proof (printed_revenue_plan v Ht) as Hrev.
  pose proof (printed_cost_plan 100 v Ht) as Hcost.
  destruct (efficient_plan_bound _ Fp) as (_ & _ & Huniq).
  assert (Hsame : Bim.same (BimVariants.OverCosts.printed_plan v)
                           BimVariants.efficient_plan)
    by (apply Huniq; rewrite <- Heff; exact Hobj).
  split; [exact Hsame|]. split; [now rewrite Hval|].
  rewrite Hrev, Hcost. destruct Hsame as [H1 H2].
  cbv [BimVariants.revenue BimVariants.cost BimVariants.variable_cost
       BimVariants.efficient_plan Bim.x1 Bim.x2] in *.
  rewrite H1, H2.
  change (7 / 6) with (7 # 6). change (5 / 6) with (5 # 6).
  split; lra.
Qed.

(** The default optimum at the scaled plan (250, 1500). *)
Lemma over_costs_default_printed :
  Bim.same (BimVariants.OverCosts.printed_plan
              (BimVariants.scaled 100 BimVariants.efficient_plan))
           BimVariants.efficient_plan.
Proof.
  exact (proj1 (proj1 (proj2 over_costs_default_optimum)
                  (BimVariants.scaled 100 BimVariants.efficient_plan)
                  scaled_efficient_plan_optimal)).
Defined.

(* ------------------------------------------------------------------ *)
(** ** BIM with uncertain prices: [bim_maxmin.mod] and [BIM_maxmin(costs)] *)

Module BimMaxmin.

(** [var x1 >= 0; var x2 >= 0; var z;] *)
Record Vars := {
  x1 : Q;
  x2 : Q;
  z : Q
}.

(** The profit of a plan under one price pair [(c1, c2)]. *)
Definition profit_under (v : Vars) (c : Q * Q) : Q :=
  fst c * x1 v + snd c * x2 v.

(** [s.t. maxmin {(c1,c2) in costs}: z <= c1 * x1 + c2 * x2;] *)
Definition maxmin (costs : list (Q * Q)) (v : Vars) : Prop :=
  Forall (fun c => z v <= profit_under v c) costs.

Definition silicon (v : Vars) : Prop := x1 v <= 1000.
Definition germanium (v : Vars) : Prop := x2 v <= 1500.
Definition plastic (v : Vars) : Prop := x1 v + x2 v <= 1750.
Definition copper (v : Vars) : Prop := 4 * x1 v + 2 * x2 v <= 4800.

(** [BIM_maxmin(costs)]: the model with [ampl.set["costs"] = costs];
    [maximize profit: z;] *)
Definition BIM_maxmin (costs : list (Q * Q)) : LP.Model Vars :=
  {| LP.sense := LP.maximize;
     LP.objective := z;
     LP.feasible := fun v =>
       (0 <= x1 v /\ 0 <= x2 v) /\
       maxmin costs v /\
       silicon v /\ germanium v /\ plastic v /\ copper v |}.

(** The smallest element of a list of numbers ([0] for the empty list). *)
Definition lowest (l : list Q) : Q :=
  match l with
  | [] => 0
  | a :: l' => fold_left Qmin l' a
  end.

(** The lowest profit of a plan over the price pairs. *)
Definition lowest_profit (costs : list (Q * Q)) (v : Vars) : Q :=
  lowest (map (profit_under v) costs).

(** The plan of [v] with [z] set to another value. *)
Definition with_z (v : Vars) (z' : Q) : Vars :=
  {| x1 := x1 v; x2 := x2 v; z := z' |}.

(** The price pairs of the notebook and the plan it prints. *)
Definition prices : list (Q * Q) := [(12, 9); (11, 10); (8, 11)].
Definition plan : Vars := {| x1 := 1750 / 3; x2 := 3500 / 3; z := 17500 |}.

Lemma fold_min_le (l : list Q) (a : Q) :
  fold_left Qmin l a <= a /\ forall b, In b l -> fold_left Qmin l a <= b.
Proof.
  revert a. induction l as [|c l IH]; intros a; cbn [fold_left].
  - split; [apply Qle_refl | intros b []].
  - destruct (IH (Qmin a c)) as [H1 H2]. split.
    + eapply Qle_trans; [exact H1 | apply Q.le_min_l].
    + intros b [<-|Hb].
      * eapply Qle_trans; [exact H1 | apply Q.le_min_r].
      * now apply H2.
Qed.

Lemma fold_min_in (l : list Q) (a : Q) :
  fold_left Qmin l a == a \/ exists b, In b l /\ fold_left Qmin l a == b.
Proof.
  revert a. induction l as [|c l IH]; intros a; cbn [fold_left].
  - left. reflexivity.
  - destruct (IH (Qmin a c)) as [H|(b & Hb & H)].
    + destruct (Q.min_spec a c) as [[_ E]|[_ E]].
      * left. exact (Qeq_trans _ _ _ H E).
      * right. exists c. split; [now left | exact (Qeq_trans _ _ _ H E)].
    + right. exists b. split; [now right | exact H].
Qed.

Lemma lowest_le (l : list Q) (b : Q) : In b l -> lowest l <= b.
Proof.
  destruct l as [|a l]; [intros []|]. cbn [lowest].
  destruct (fold_min_le l a) as [H1 H2].
  intros [<-|Hb]; [exact H1 | now apply H2].
Qed.

Lemma lowest_in (l : list Q) :
  l <> [] -> exists b, In b l /\ lowest l == b.
Proof.
  destruct l as [|a l]; [congruence|]. intros _. cbn [lowest].
  destruct (fold_min_in l a) as [H|(b & Hb & H)].
  - exists a. split; [now left | exact H].
  - exists b. split; [now right | exact H].
Qed.

Lemma lowest_glb (l : list Q) (q : Q) :
  l <> [] -> (forall b, In b l -> q <= b) -> q <= lowest l.
Proof.
  intros Hne Hq. destruct (lowest_in l Hne) as (b & Hb & E).
  rewrite E. now apply Hq.
Qed.

Lemma with_z_feasible (costs : list (Q * Q)) (v : Vars) :
  LP.feasible (BIM_maxmin costs) v ->
  LP.feasible (BIM_maxmin costs) (with_z v (lowest_profit costs v)).
Proof.
  intros (Hx & Hm & Hrest). split; [exact Hx|]. split; [|exact Hrest].
  unfold maxmin in *. rewrite Forall_forall. intros c Hc.
  cbn [with_z z]. unfold lowest_profit.
  apply lowest_le. change (profit_under (with_z v _) c)
    with (profit_under v c). now apply in_map.
Qed.

Lemma z_le_lowest_profit (costs : list (Q * Q)) (v : Vars) :
  costs <> [] ->
  LP.feasible (BIM_maxmin costs) v -> z v <= lowest_profit costs v.
Proof.
  intros Hne (_ & Hm & _). unfold lowest_profit.
  apply lowest_glb.
  - destruct costs; [congruence | discriminate].
  - intros b Hb. apply in_map_iff in Hb. destruct Hb as (c & <- & Hc).
    unfold maxmin in Hm. rewrite Forall_forall in Hm. now apply Hm.
Qed.

Lemma maxmin_plan_optimal : LP.optimal (BIM_maxmin prices) plan.
Proof.
  split.
  - cbv [LP.feasible BIM_maxmin maxmin silicon germanium plastic copper
         prices plan profit_under x1 x2 z fst snd].
    change (1750 / 3) with (1750 # 3). change (3500 / 3) with (3500 # 3).
    repeat split; repeat constructor; lra.
  - intros [b1 b2 bz] (Hx & Hm & Hs & Hg & Hp & Hc).
    cbv [LP.at_least_as_good LP.sense LP.objective BIM_maxmin plan z].
    unfold maxmin, prices in Hm.
    rewrite !Forall_cons_iff in Hm.
    cbv [silicon germanium plastic copper profit_under x1 x2 z fst snd] in *.
    lra.
Qed.

End BimMaxmin.

(** X9.  For every non-empty list of price pairs, at every optimal
    solution of [BIM_maxmin(costs)] the variable [z] equals the lowest
    profit of the returned plan over the price pairs, it is the profit
    under one of them, and no plan satisfying the constraints has a
    larger lowest profit. *)
Theorem maxmin_is_lowest_profit :
  forall (costs : list (Q * Q)) (v : BimMaxmin.Vars),
    costs <> [] ->
    LP.optimal (BimMaxmin.BIM_maxmin costs) v ->
    BimMaxmin.z v == BimMaxmin.lowest_profit costs v /\
    (exists c, In c costs /\ BimMaxmin.z v == BimMaxmin.profit_under v c) /\
    forall u, LP.feasible (BimMaxmin.BIM_maxmin costs) u ->
              BimMaxmin.lowest_profit costs u
              <= BimMaxmin.lowest_profit costs v.
Proof.
  intros costs v Hne [Fv Hv].
  pose proof (BimMaxmin.z_le_lowest_profit costs v Hne Fv) as Hle.
  pose proof (Hv _ (BimMaxmin.with_z_feasible costs v Fv)) as Hge.
  cbn [LP.at_least_as_good LP.sense LP.objective BimMaxmin.BIM_maxmin
       BimMaxmin.with_z BimMaxmin.z] in Hge.
  assert (Heq : BimMaxmin.z v == BimMaxmin.lowest_profit costs v) by lra.
  split; [exact Heq|]. split.
  - destruct (BimMaxmin.lowest_in (map (BimMaxmin.profit_under v) costs))
      as (b & Hb & E).
    + destruct costs; [congruence | discriminate].
    + apply in_map_iff in Hb. destruct Hb as (c & <- & Hc).
      exists c. split; [exact Hc|]. rewrite Heq. exact E.
  - intros u Fu.
    pose proof (Hv _ (BimMaxmin.with_z_feasible costs u Fu)) as Hu.
    cbn [LP.at_least_as_good LP.sense LP.objective BimMaxmin.BIM_maxmin
         BimMaxmin.with_z BimMaxmin.z] in Hu.
    lra.
Qed.

(** The statement for the three price pairs of the notebook: the printed
    plan (583.3, 1166.7) has lowest profit 17500. *)
Lemma maxmin_printed_plan :
  BimMaxmin.z BimMaxmin.plan
  == BimMaxmin.lowest_profit BimMaxmin.prices BimMaxmin.plan.
Proof.
  refine (proj1 (maxmin_is_lowest_profit BimMaxmin.prices BimMaxmin.plan
                   _ BimMaxmin.maxmin_plan_optimal)).
  discriminate.
Defined.

(** X10.  [BIM_maxmin([])], with no price pair, is unbounded: every value
    of [z] is feasible with the zero plan, so no optimal solution
    exists. *)
Theorem maxmin_without_prices_unbounded :
  (forall bound : Q,
      exists v, LP.feasible (BimMaxmin.BIM_maxmin []) v /\
                bound < BimMaxmin.z v) /\
  forall v, ~ LP.optimal (BimMaxmin.BIM_maxmin []) v.
Proof.
  assert (Hfeas : forall q, LP.feasible (BimMaxmin.BIM_maxmin [])
                    {| BimMaxmin.x1 := 0; BimMaxmin.x2 := 0;
                       BimMaxmin.z := q |}).
  { intros q.
    cbv [LP.feasible BimMaxmin.BIM_maxmin BimMaxmin.maxmin BimMaxmin.silicon
         BimMaxmin.germanium BimMaxmin.plastic BimMaxmin.copper
         BimMaxmin.x1 BimMaxmin.x2].
    repeat split; try constructor; lra. }
  split.
  - intros bound. eexists. split; [apply (Hfeas (bound + 1))|].
    cbn [BimMaxmin.z]. lra.
  - intros v [_ Hv]. specialize (Hv _ (Hfeas (BimMaxmin.z v + 1))).
    cbn [LP.at_least_as_good LP.sense LP.objective BimMaxmin.BIM_maxmin
         BimMaxmin.z] in Hv.
    lra.
Qed.

(* ------------------------------------------------------------------ *)
(** ** Pop-up shop: what the optimal solutions look like *)

Lemma row_profit_at_demand (pr : PopUpShop.Prices) (dem : Q) :
  PopUpShop.row_profit pr dem dem
  == (PopUpShop.r pr - PopUpShop.c pr) * dem.
Proof.
  unfold PopUpShop.row_profit.
  rewrite (Q.min_l dem dem (Qle_refl dem)). ring.
Qed.

Lemma weights_in_S (sc : PopUpShop.dict PopUpShop.Scenario) (s : string)
      (P : Q -> Q -> Prop) :
  NoDup (Dict.keys sc) ->
  (forall k v, In (k, v) sc ->
               P (PopUpShop.probability v) (PopUpShop.demand v)) ->
  In s (PopUpShop.S (PopUpShop.set_data (PopUpShop.from_dict_T sc))) ->
  P (PopUpShop.p (PopUpShop.set_data (PopUpShop.from_dict_T sc)) s)
    (PopUpShop.d (PopUpShop.set_data (PopUpShop.from_dict_T sc)) s).
Proof.
  intros Hnd HP Hs. destruct (PopUpShop.in_S_row sc s Hs) as [v Hin].
  rewrite (PopUpShop.p_row sc s v Hnd Hin), (PopUpShop.d_row sc s v Hnd Hin).
  now apply (HP s).
Qed.

Lemma hindsight_plan_feasible (pr : PopUpShop.Prices)
      (sc : PopUpShop.dict PopUpShop.Scenario) :
  NoDup (Dict.keys sc) ->
  (forall k v, In (k, v) sc -> 0 <= PopUpShop.demand v) ->
  LP.feasible
    (PopUpShop.PopEvpi.model pr (PopUpShop.set_data (PopUpShop.from_dict_T sc)))
    (PopUpShop.hindsight_plan pr
       (PopUpShop.set_data (PopUpShop.from_dict_T sc))).
Proof.
  intros Hnd Hd. apply PopUpShop.PopEvpi_feasible_iff. intros s Hs.
  pose proof (weights_in_S sc s (fun _ dem => 0 <= dem) Hnd
                (fun k v Hin => Hd k v Hin) Hs) as Hds.
  cbn [PopUpShop.hindsight_plan PopUpShop.PopEvpi.x PopUpShop.PopEvpi.y
       PopUpShop.PopEvpi.f].
  unfold PopUpShop.row_profit.
  rewrite (Q.min_l _ _ (Qle_refl _)).
  repeat split; try assumption; try apply Qle_refl; try ring.
Qed.

(** No feasible point of [pop_evpi.mod] earns more in a scenario than
    selling exactly the demand. *)
Lemma evpi_term_bound (pr : PopUpShop.Prices) (dat : PopUpShop.Data)
      (b : PopUpShop.PopEvpi.Vars) (s : string) :
  PopUpShop.w pr <= PopUpShop.c pr -> PopUpShop.c pr <= PopUpShop.r pr ->
  LP.feasible (PopUpShop.PopEvpi.model pr dat) b ->
  In s (PopUpShop.S dat) ->
  PopUpShop.PopEvpi.f b s
  <= (PopUpShop.r pr - PopUpShop.c pr) * PopUpShop.d dat s.
Proof.
  intros Hwc Hcr Fb Hs.
  rewrite PopUpShop.PopEvpi_feasible_iff in Fb.
  destruct (Fb s Hs) as (Hx & Hy & Hf & Ho & Hd). rewrite Hf.
  assert (H1 : 0 <= (PopUpShop.c pr - PopUpShop.w pr)
                    * (PopUpShop.PopEvpi.x b s - PopUpShop.PopEvpi.y b s))
    by (apply Qmult_le_0_compat; lra).
  assert (H2 : 0 <= (PopUpShop.r pr - PopUpShop.c pr)
                    * (PopUpShop.d dat s - PopUpShop.PopEvpi.y b s))
    by (apply Qmult_le_0_compat; lra).
  lra.
Qed.

Lemma margin_sum (pr : PopUpShop.Prices)
      (sc : PopUpShop.dict PopUpShop.Scenario) :
  NoDup (Dict.keys sc) ->
  Series.sum
    (map (fun s =>
            PopUpShop.p (PopUpShop.set_data (PopUpShop.from_dict_T sc)) s
            * ((PopUpShop.r pr - PopUpShop.c pr)
               * PopUpShop.d (PopUpShop.set_data (PopUpShop.from_dict_T sc)) s))
         (PopUpShop.S (PopUpShop.set_data (PopUpShop.from_dict_T sc))))
  == (PopUpShop.r pr - PopUpShop.c pr)
     * PopUpShop.expected_demand (PopUpShop.from_dict_T sc).
Proof.
  intros Hnd.
  rewrite (PopUpShop.weighted_sum_rows sc
             (fun s => (PopUpShop.r pr - PopUpShop.c pr)
                       * PopUpShop.d (PopUpShop.set_data
                                        (PopUpShop.from_dict_T sc)) s) Hnd).
  rewrite PopUpShop.expected_demand_rows, <- Series.sum_map_scale.
  apply Series.sum_map_ext. intros [k v] Hin. cbn [fst snd].
  rewrite (PopUpShop.d_row sc k v Hnd Hin). ring.
Qed.

(** X11.  When the salvage value does not exceed the cost, the cost does
    not exceed the price, and weights and demands are non-negative,
    ordering exactly the demand of each scenario is an optimal solution
    of [pop_evpi.mod], and the optimal value (EVPI) is the unit margin
    [r - c] times the expected demand computed by the scenario cell. *)
Theorem evpi_is_margin_times_expected_demand :
  forall (pr : PopUpShop.Prices) (items : list (string * PopUpShop.Scenario)),
    let sc := Dict.literal items in
    let df := PopUpShop.from_dict_T sc in
    let dat := PopUpShop.set_data df in
    PopUpShop.w pr <= PopUpShop.c pr ->
    PopUpShop.c pr <= PopUpShop.r pr ->
    (forall k v, In (k, v) sc ->
                 0 <= PopUpShop.probability v /\ 0 <= PopUpShop.demand v) ->
    LP.optimal (PopUpShop.PopEvpi.model pr dat)
               (PopUpShop.hindsight_plan pr dat) /\
    LP.optimal_value (PopUpShop.PopEvpi.model pr dat)
      ((PopUpShop.r pr - PopUpShop.c pr) * PopUpShop.expected_demand df).
Proof.
  intros pr items sc df dat Hwc Hcr Hpd.
  assert (Hnd : NoDup (Dict.keys sc)) by apply Dict.NoDup_keys_literal.
  assert (Fh : LP.feasible (PopUpShop.PopEvpi.model pr dat)
                           (PopUpShop.hindsight_plan pr dat))
    by (apply hindsight_plan_feasible; [exact Hnd | intros k v H;
        exact (proj2 (Hpd k v H))]).
  pose proof (margin_sum pr sc Hnd) as Hmargin. fold df dat in Hmargin.
  assert (Hbound : forall b, LP.feasible (PopUpShop.PopEvpi.model pr dat) b ->
             PopUpShop.PopEvpi.EV dat b
             <= (PopUpShop.r pr - PopUpShop.c pr)
                * PopUpShop.expected_demand df).
  { intros b Fb. rewrite PopUpShop.PopEvpi_EV_sum, <- Hmargin.
    apply Series.sum_map_le. intros s Hs.
    pose proof (evpi_term_bound pr dat b s Hwc Hcr Fb Hs) as Hterm.
    pose proof (weights_in_S sc s (fun p _ => 0 <= p) Hnd
                  (fun k v Hin => proj1 (Hpd k v Hin)) Hs) as Hp.
    fold df dat in Hp.
    rewrite !(Qmult_comm (PopUpShop.p dat s)).
    apply Qmult_le_compat_r; assumption. }
  assert (Hval : PopUpShop.PopEvpi.EV dat (PopUpShop.hindsight_plan pr dat)
                 == (PopUpShop.r pr - PopUpShop.c pr)
                    * PopUpShop.expected_demand df).
  { rewrite PopUpShop.PopEvpi_EV_sum, <- Hmargin.
    apply Series.sum_map_ext. intros s Hs.
    cbn [PopUpShop.hindsight_plan PopUpShop.PopEvpi.f].
    rewrite row_profit_at_demand. reflexivity. }
  assert (Hopt : LP.optimal (PopUpShop.PopEvpi.model pr dat)
                            (PopUpShop.hindsight_plan pr dat)).
  { split; [exact Fh|]. intros b Fb.
    cbn [LP.at_least_as_good LP.sense LP.objective PopUpShop.PopEvpi.model].
    rewrite Hval. now apply Hbound. }
  split; [exact Hopt|].
  exists (PopUpShop.hindsight_plan pr dat). split; [exact Hopt | exact Hval].
Qed.

Lemma popup_weights_demands (k : string) (v : PopUpShop.Scenario) :
  In (k, v) (Dict.literal PopUpShop.scenarios_items) ->
  0 < PopUpShop.probability v /\ 0 <= PopUpShop.demand v.
Proof.
  change (Dict.literal PopUpShop.scenarios_items)
    with PopUpShop.scenarios_items.
  intros [H|[H|[H|[]]]]; inversion H; subst; cbn; split; lra.
Qed.

(** On the pop-up shop data EVPI is 28 times the expected demand 365. *)
Lemma evpi_popup_margin :
  LP.optimal_value
    (PopUpShop.PopEvpi.model PopUpShop.prices PopUpShop.popup_data)
    ((PopUpShop.r PopUpShop.prices - PopUpShop.c PopUpShop.prices)
     * PopUpShop.expected_demand PopUpShop.popup_df).
Proof.
  refine (proj2 (evpi_is_margin_times_expected_demand PopUpShop.prices
                   PopUpShop.scenarios_items _ _ _)).
  - cbn. lra.
  - cbn. lra.
  - intros k v Hin. destruct (popup_weights_demands k v Hin) as [Hp Hd].
    split; lra.
Defined.

(** The expected profit of ordering [x v] and selling what the demand
    allows is at least the objective at [v]. *)
Lemma plan_term_bound (pr : PopUpShop.Prices) (dat : PopUpShop.Data)
      (v : PopUpShop.Pop.Vars) (s : string) :
  PopUpShop.w pr <= PopUpShop.r pr ->
  LP.feasible (PopUpShop.Pop.model pr dat) v ->
  In s (PopUpShop.S dat) ->
  PopUpShop.Pop.y v s <= Qmin (PopUpShop.d dat s) (PopUpShop.Pop.x v) /\
  PopUpShop.Pop.f v s
  <= PopUpShop.row_profit pr (PopUpShop.Pop.x v) (PopUpShop.d dat s) /\
  PopUpShop.row_profit pr (PopUpShop.Pop.x v) (PopUpShop.d dat s)
  - PopUpShop.Pop.f v s
  == (PopUpShop.r pr - PopUpShop.w pr)
     * (Qmin (PopUpShop.d dat s) (PopUpShop.Pop.x v) - PopUpShop.Pop.y v s).
Proof.
  intros Hwr Fv Hs. rewrite PopUpShop.Pop_feasible_iff in Fv.
  destruct Fv as [Hx Fv]. destruct (Fv s Hs) as (Hy & Hf & Ho & Hd).
  assert (Hmin : PopUpShop.Pop.y v s
                 <= Qmin (PopUpShop.d dat s) (PopUpShop.Pop.x v))
    by (apply Q.min_glb; assumption).
  assert (Hdiff : PopUpShop.row_profit pr (PopUpShop.Pop.x v)
                                       (PopUpShop.d dat s)
                  - PopUpShop.Pop.f v s
                  == (PopUpShop.r pr - PopUpShop.w pr)
                     * (Qmin (PopUpShop.d dat s) (PopUpShop.Pop.x v)
                        - PopUpShop.Pop.y v s))
    by (unfold PopUpShop.row_profit; rewrite Hf; ring).
  split; [exact Hmin|]. split; [|exact Hdiff].
  assert (H : 0 <= (PopUpShop.r pr - PopUpShop.w pr)
                   * (Qmin (PopUpShop.d dat s) (PopUpShop.Pop.x v)
                      - PopUpShop.Pop.y v s))
    by (apply Qmult_le_0_compat; lra).
  lra.
Qed.

(** X12.  When the price exceeds the salvage value and every weight is
    positive, every optimal solution of [pop.mod] sells in each scenario
    the lesser of demand and order, [y_s = min(d_s, x)], as the narrative
    defines the sales, and its profit variables are the scenario profits
    of that order; the plan that orders [x] and sells [min(d_s, x)] is
    optimal as well. *)
Theorem optimal_sales_are_min :
  forall (pr : PopUpShop.Prices) (items : list (string * PopUpShop.Scenario))
         (v : PopUpShop.Pop.Vars),
    let sc := Dict.literal items in
    let dat := PopUpShop.set_data (PopUpShop.from_dict_T sc) in
    PopUpShop.w pr < PopUpShop.r pr ->
    (forall k a, In (k, a) sc -> 0 < PopUpShop.probability a) ->
    LP.optimal (PopUpShop.Pop.model pr dat) v ->
    (forall s, In s (PopUpShop.S dat) ->
               PopUpShop.Pop.y v s
               == Qmin (PopUpShop.d dat s) (PopUpShop.Pop.x v) /\
               PopUpShop.Pop.f v s
               == PopUpShop.row_profit pr (PopUpShop.Pop.x v)
                                       (PopUpShop.d dat s)) /\
    LP.optimal (PopUpShop.Pop.model pr dat)
               (PopUpShop.plan pr dat (PopUpShop.Pop.x v)).
Proof.
  intros pr items v sc dat Hwr Hpos [Fv Hv].
  assert (Hnd : NoDup (Dict.keys sc)) by apply Dict.NoDup_keys_literal.
  assert (Hwr' : PopUpShop.w pr <= PopUpShop.r pr) by lra.
  assert (Hx : 0 <= PopUpShop.Pop.x v)
    by (apply PopUpShop.Pop_feasible_iff in Fv; tauto).
  assert (Fp : LP.feasible (PopUpShop.Pop.model pr dat)
                           (PopUpShop.plan pr dat (PopUpShop.Pop.x v))).
  { apply PopUpShop.plan_feasible; [exact Hnd | exact Hx |].
    exact (PopUpShop.demand_nonneg_of_feasible pr sc v Hnd Fv). }
  assert (Hp : forall s, In s (PopUpShop.S dat) -> 0 < PopUpShop.p dat s).
  { intros s Hs.
    exact (weights_in_S sc s (fun p _ => 0 < p) Hnd
             (fun k a Hin => Hpos k a Hin) Hs). }
  assert (Hterm : forall s, In s (PopUpShop.S dat) ->
             PopUpShop.p dat s * PopUpShop.Pop.f v s
             <= PopUpShop.p dat s
                * PopUpShop.Pop.f (PopUpShop.plan pr dat (PopUpShop.Pop.x v)) s).
  { intros s Hs. cbn [PopUpShop.plan PopUpShop.Pop.f].
    destruct (plan_term_bound pr dat v s Hwr' Fv Hs) as (_ & Hf & _).
    rewrite !(Qmult_comm (PopUpShop.p dat s)).
    apply Qmult_le_compat_r; [exact Hf|]. specialize (Hp s Hs). lra. }
  assert (Hsum : PopUpShop.Pop.EV dat v
                 == PopUpShop.Pop.EV dat
                      (PopUpShop.plan pr dat (PopUpShop.Pop.x v))).
  { apply Qle_antisym.
    - rewrite !PopUpShop.Pop_EV_sum. now apply Series.sum_map_le.
    - exact (Hv _ Fp). }
  split.
  - intros s Hs.
    rewrite !PopUpShop.Pop_EV_sum in Hsum.
    pose proof (sum_map_le_eq _ _ _ Hterm Hsum s Hs) as Heq.
    cbn [PopUpShop.plan PopUpShop.Pop.f] in Heq.
    destruct (plan_term_bound pr dat v s Hwr' Fv Hs) as (Hy & Hf & Hdiff).
    specialize (Hp s Hs).
    assert (Hfeq : PopUpShop.Pop.f v s
                   == PopUpShop.row_profit pr (PopUpShop.Pop.x v)
                                           (PopUpShop.d dat s)).
    { apply (Qmult_inj_l _ _ (PopUpShop.p dat s)); [lra | exact Heq]. }
    split; [|exact Hfeq].
    rewrite Hfeq in Hdiff.
    assert (H0 : (PopUpShop.r pr - PopUpShop.w pr)
                 * (Qmin (PopUpShop.d dat s) (PopUpShop.Pop.x v)
                    - PopUpShop.Pop.y v s) == 0) by (rewrite <- Hdiff; ring).
    apply Qmult_integral in H0. destruct H0 as [H0|H0]; lra.
  - split; [exact Fp|]. intros b Fb. specialize (Hv b Fb).
    cbn [LP.at_least_as_good LP.sense LP.objective PopUpShop.Pop.model] in *.
    rewrite <- Hsum. exact Hv.
Qed.

(** The optimal sales of the pop-up shop in poor weather: the demand,
    200, the lesser of demand and order. *)
Lemma optimal_sales_popup :
  PopUpShop.Pop.y PopUpShop.evss_plan "poor weather"
  == Qmin (PopUpShop.d PopUpShop.popup_data "poor weather")
          (PopUpShop.Pop.x PopUpShop.evss_plan).
Proof.
  refine (proj1 (proj1 (optimal_sales_are_min PopUpShop.prices
                          PopUpShop.scenarios_items PopUpShop.evss_plan
                          _ _ PopUpShop.evss_plan_optimal)
                   "poor weather"%string _)).
  - cbn. lra.
  - intros k a Hin. exact (proj1 (popup_weights_demands k a Hin)).
  - right. right. left. reflexivity.
Defined.

(** X13.  [pop.mod] and [pop_evpi.mod] have a feasible point exactly
    when no scenario has a negative demand; with no scenario at all both
    are feasible. *)
Theorem pop_feasible_iff_demands_nonneg :
  forall (pr : PopUpShop.Prices) (items : list (string * PopUpShop.Scenario)),
    let sc := Dict.literal items in
    let dat := PopUpShop.set_data (PopUpShop.from_dict_T sc) in
    ((exists v, LP.feasible (PopUpShop.Pop.model pr dat) v) <->
     (forall k a, In (k, a) sc -> 0 <= PopUpShop.demand a)) /\
    ((exists v, LP.feasible (PopUpShop.PopEvpi.model pr dat) v) <->
     (forall k a, In (k, a) sc -> 0 <= PopUpShop.demand a)).
Proof.
  intros pr items sc dat.
  assert (Hnd : NoDup (Dict.keys sc)) by apply Dict.NoDup_keys_literal.
  split; split.
  - intros [v Fv]. exact (PopUpShop.demand_nonneg_of_feasible pr sc v Hnd Fv).
  - intros Hd. exists (PopUpShop.plan pr dat 0).
    apply PopUpShop.plan_feasible; [exact Hnd | lra | exact Hd].
  - intros [v Fv] k a Hin.
    rewrite PopUpShop.PopEvpi_feasible_iff in Fv.
    destruct (Fv k (PopUpShop.row_in_S sc k a Hin)) as (_ & Hy & _ & _ & Hd).
    unfold dat in Hd. rewrite (PopUpShop.d_row sc k a Hnd Hin) in Hd. lra.
  - intros Hd. exists (PopUpShop.hindsight_plan pr dat).
    now apply hindsight_plan_feasible.
Qed.

(* ------------------------------------------------------------------ *)
(** ** Economic dispatch: the constraints of [opf_ldr.mod], the data
       bound by [OPF_participationfactors] and the reporting helpers *)

Module OpfModel.
Import Series.

(** One row of [nodes_df], indexed by [node_id]; the columns are the
    parameters of the model indexed over [V]. *)
Record NodeRow := {
  node_id : Z;
  row_p_min : Q;
  row_p_max : Q;
  row_d : Q;
  row_is_generator : Q;
  row_energy_type : string;
  row_c : Q
}.

(** One row of [edges_df], indexed by [(node_id1, node_id2)]. *)
Record EdgeRow := {
  edge_id : Z * Z;
  row_b : Q;
  row_f_max : Q
}.

(** [network = {"nodes": nodes_df, "edges": edges_df}] *)
Record Network := {
  nodes_df : list NodeRow;
  edges_df : list EdgeRow
}.

(** A column of [nodes_df] read by label, as [ampl.set_data] binds it. *)
Definition node_column {A} (df : list NodeRow) (g : NodeRow -> A)
           (default : A) (i : Z) : A :=
  match find (fun row => Z.eqb (node_id row) i) df with
  | Some row => g row
  | None => default
  end.

Definition pair_eqb (e e' : Z * Z) : bool :=
  (Z.eqb (fst e) (fst e') && Z.eqb (snd e) (snd e'))%bool.

Definition edge_column (df : list EdgeRow) (g : EdgeRow -> Q) (e : Z * Z)
  : Q :=
  match find (fun row => pair_eqb (edge_id row) e) df with
  | Some row => g row
  | None => 0
  end.

(** [nodes_df[nodes_df["energy_type"].isin(types)].index] *)
Definition index_where (df : list NodeRow) (types : list string) : list Z :=
  map node_id
      (filter (fun row => existsb (String.eqb (row_energy_type row)) types)
              df).

(** The sets and parameters of [opf_ldr.mod]; [base] holds those the
    objective reads. *)
Record Data := {
  base : Opf.Data;
  E : list (Z * Z);
  SWH : list Z;
  CG : list Z;
  NG : list Z;
  uniformparticipationfactors : Q;
  p_min : Z -> Q;
  p_max : Z -> Q;
  d : Z -> Q;
  total_imbalance : nat -> Q;
  b : Z * Z -> Q;
  f_max : Z * Z -> Q;
  imbalances : nat -> Z -> Q
}.

Definition V (dat : Data) : list Z := Opf.V (Opf.nodes (base dat)).
Definition T (dat : Data) : list nat := Opf.T (base dat).

(** A Python dictionary with keys of type [K], in insertion order;
    [d[k] = v] replaces the value of a present key in place. *)
Fixpoint dict_set {K A} (eqb : K -> K -> bool) (k : K) (a : A)
         (dct : list (K * A)) : list (K * A) :=
  match dct with
  | [] => [(k, a)]
  | (k', a') :: dct' =>
      if eqb k k' then (k, a) :: dct' else (k', a') :: dict_set eqb k a dct'
  end.

Fixpoint dict_get {K A} (eqb : K -> K -> bool) (k : K) (dct : list (K * A))
  : option A :=
  match dct with
  | [] => None
  | (k', a') :: dct' => if eqb k k' then Some a' else dict_get eqb k dct'
  end.

Definition key_eqb (a b : nat * Z) : bool :=
  (Nat.eqb (fst a) (fst b) && Z.eqb (snd a) (snd b))%bool.

(** [temp = {}]
    [for i, j in enumerate(imbalances):]
    [    for k, v in j.items(): temp[i, k] = v] *)
Definition store_scenario (acc : list ((nat * Z) * Q))
           (ij : nat * Opf.Imbalance) : list ((nat * Z) * Q) :=
  fold_left (fun acc' kv => dict_set key_eqb (fst ij, fst kv) (snd kv) acc')
            (snd ij) acc.

Definition temp (imbs : list Opf.Imbalance) : list ((nat * Z) * Q) :=
  fold_left store_scenario (combine (seq 0 (List.length imbs)) imbs) [].

(** [param imbalances{T, V}] as bound by [ampl.param["imbalances"] = temp]. *)
Definition imbalance_of (imbs : list Opf.Imbalance) (t : nat) (k : Z) : Q :=
  match dict_get key_eqb (t, k) (temp imbs) with
  | Some a => a
  | None => 0
  end.

(** [OPF_participationfactors(network, imbalances, totalimbalances,
    abstotalimbalances, uniformparticipationfactors)]: the data bound to
    the model before the solve. *)
Definition OPF_participationfactors (network : Network)
           (imbs : list Opf.Imbalance) (totalimbalances : nat -> Q)
           (abstotalimbalances : nat -> Q) (uniform : bool) : Data :=
  let df := nodes_df network in
  let edf := edges_df network in
  {| base := Opf.bind
               {| Opf.V := map node_id df;
                  Opf.is_generator := node_column df row_is_generator 0;
                  Opf.energy_type := node_column df row_energy_type ""%string;
                  Opf.c := node_column df row_c 0 |}
               imbs abstotalimbalances;
     E := map edge_id edf;
     SWH := index_where df ["wind"; "solar"; "hydro"]%string;
     CG := index_where df ["coal"; "gas"]%string;
     NG := index_where df [""%string];
     uniformparticipationfactors := if uniform then 1 else 0;
     p_min := node_column df row_p_min 0;
     p_max := node_column df row_p_max 0;
     d := node_column df row_d 0;
     total_imbalance := totalimbalances;
     b := edge_column edf row_b;
     f_max := edge_column edf row_f_max;
     imbalances := imbalance_of imbs |}.

(** [var p{i in V} >= p_min[i], <= p_max[i]; var r{V, T} >= 0;
     var alpha{V} >= 0, <= 1; var theta{V, T}; var f{E, T};] *)
Record Vars := {
  p : Z -> Q;
  r : Z -> nat -> Q;
  alpha : Z -> Q;
  theta : Z -> nat -> Q;
  f : Z * Z -> nat -> Q
}.

(** The variables the objective reads. *)
Definition objective_vars (v : Vars) : Opf.Vars :=
  {| Opf.p := p v; Opf.alpha := alpha v |}.

Definition bounds (dat : Data) (v : Vars) : Prop :=
  Forall (fun i => p_min dat i <= p v i /\ p v i <= p_max dat i) (V dat) /\
  Forall (fun i => Forall (fun t => 0 <= r v i t) (T dat)) (V dat) /\
  Forall (fun i => 0 <= alpha v i /\ alpha v i <= 1) (V dat).

(** [s.t. windsolarhydro_nopartecipationfactors {i in SWH}: alpha[i] = 0;] *)
Definition windsolarhydro_nopartecipationfactors (dat : Data) (v : Vars)
  : Prop :=
  Forall (fun i => alpha v i == 0) (SWH dat).

(** [s.t. load_nopartecipationfactors {i in NG}: alpha[i] = 0;] *)
Definition load_nopartecipationfactors (dat : Data) (v : Vars) : Prop :=
  Forall (fun i => alpha v i == 0) (NG dat).

(** [s.t. sum_one: sum{i in V} alpha[i] = 1;] *)
Definition sum_one (dat : Data) (v : Vars) : Prop :=
  sum (map (alpha v) (V dat)) == 1.

(** [s.t. uniformparticipationfactors_check {i in CG}:
       uniformparticipationfactors == 1 ==> alpha[i] = 1 / card(CG);] *)
Definition uniformparticipationfactors_check (dat : Data) (v : Vars)
  : Prop :=
  Forall (fun i => uniformparticipationfactors dat == 1 ->
                   alpha v i
                   == 1 / inject_Z (Z.of_nat (List.length (CG dat))))
         (CG dat).

(** [s.t. power_withrecourse {i in V, t in T}:
       r[i, t] = p[i] - alpha[i] * total_imbalance[t];] *)
Definition power_withrecourse (dat : Data) (v : Vars) : Prop :=
  Forall (fun i =>
            Forall (fun t => r v i t
                             == p v i - alpha v i * total_imbalance dat t)
                   (T dat)) (V dat).

(** [s.t. generation_upper_bound_withrecourse {i in CG, t in T}:
       r[i, t] <= p_max[i];] and the lower bound [r[i, t] >= p_min[i]]. *)
Definition generation_bounds_withrecourse (dat : Data) (v : Vars) : Prop :=
  Forall (fun i =>
            Forall (fun t => r v i t <= p_max dat i /\ p_min dat i <= r v i t)
                   (T dat)) (CG dat).

(** [sum{(j, i) in E} f[j, i, t]] and [sum{(i, j) in E} f[i, j, t]] for
    a fixed node [i]. *)
Definition inflow (dat : Data) (v : Vars) (i : Z) (t : nat) : Q :=
  sum (map (fun e => f v e t) (filter (fun e => Z.eqb (snd e) i) (E dat))).

Definition outflow (dat : Data) (v : Vars) (i : Z) (t : nat) : Q :=
  sum (map (fun e => f v e t) (filter (fun e => Z.eqb (fst e) i) (E dat))).

(** [s.t. flow_conservation {i in V, t in T}:
       sum{(j, i) in E} f[j, i, t] - sum{(i, j) in E} f[i, j, t]
       == r[i, t] + imbalances[t, i] - d[i];] *)
Definition flow_conservation (dat : Data) (v : Vars) : Prop :=
  Forall (fun i =>
            Forall (fun t => inflow dat v i t - outflow dat v i t
                             == r v i t + imbalances dat t i - d dat i)
                   (T dat)) (V dat).

(** [s.t. susceptance {(i, j) in E, t in T}:
       f[i, j, t] = b[i, j] * (theta[i, t] - theta[j, t]);] *)
Definition susceptance (dat : Data) (v : Vars) : Prop :=
  Forall (fun e =>
            Forall (fun t => f v e t
                             == b dat e * (theta v (fst e) t
                                           - theta v (snd e) t))
                   (T dat)) (E dat).

(** [s.t. flows_upper_bound {(i, j) in E, t in T}: f[i, j, t] <= f_max[i, j];]
    and [s.t. flows_lower_bound ...: -f[i, j, t] <= f_max[i, j];] *)
Definition flows_bounds (dat : Data) (v : Vars) : Prop :=
  Forall (fun e =>
            Forall (fun t => f v e t <= f_max dat e /\ - f v e t <= f_max dat e)
                   (T dat)) (E dat).

Definition feasible (dat : Data) (v : Vars) : Prop :=
  bounds dat v /\
  windsolarhydro_nopartecipationfactors dat v /\
  load_nopartecipationfactors dat v /\
  sum_one dat v /\
  uniformparticipationfactors_check dat v /\
  power_withrecourse dat v /\
  generation_bounds_withrecourse dat v /\
  flow_conservation dat v /\
  susceptance dat v /\
  flows_bounds dat v.

(** [minimize obj: ...], the objective of the model. *)
Definition obj (dat : Data) (v : Vars) : option Q :=
  Opf.obj (base dat) (objective_vars v).

End OpfModel.

Lemma key_eqb_eq (a b : nat * Z) : OpfModel.key_eqb a b = true <-> a = b.
Proof.
  destruct a as [a1 a2], b as [b1 b2]. unfold OpfModel.key_eqb. cbn [fst snd].
  rewrite andb_true_iff, Nat.eqb_eq, Z.eqb_eq.
  split; [intros [-> ->]; reflexivity | intros H; inversion H; auto].
Qed.

Lemma dict_get_set {K A} (eqb : K -> K -> bool) (k k' : K) (a : A)
      (dct : list (K * A)) :
  (forall x y, eqb x y = true <-> x = y) ->
  OpfModel.dict_get eqb k' (OpfModel.dict_set eqb k a dct)
  = if eqb k' k then Some a else OpfModel.dict_get eqb k' dct.
Proof.
  intros Heqb.
  assert (Hrefl : forall x, eqb x x = true) by (intros x; now apply Heqb).
  induction dct as [|[k0 a0] dct IH]; cbn [OpfModel.dict_set OpfModel.dict_get].
  - reflexivity.
  - destruct (eqb k k0) eqn:Ek; cbn [OpfModel.dict_get].
    + apply Heqb in Ek. subst k0. now destruct (eqb k' k).
    + rewrite IH.
      destruct (eqb k' k0) eqn:Ek0; [|reflexivity].
      apply Heqb in Ek0. subst k0.
      destruct (eqb k' k) eqn:Ek'; [|reflexivity].
      apply Heqb in Ek'. subst k'. rewrite Hrefl in Ek. discriminate.
Qed.

Lemma dict_get_not_in {A} (k : Z) (j : list (Z * A)) :
  ~ In k (map fst j) -> OpfModel.dict_get Z.eqb k j = None.
Proof.
  induction j as [|[k0 a0] j IH]; cbn [OpfModel.dict_get map fst];
    intros Hn; [reflexivity|].
  destruct (Z.eqb_spec k k0) as [->|Hne].
  - exfalso. apply Hn. now left.
  - apply IH. intros Hin. apply Hn. now right.
Qed.

(** Storing one scenario: its keys now read the scenario, the others
    are unchanged. *)
Lemma store_scenario_get (i t : nat) (k : Z) (j : Opf.Imbalance)
      (acc : list ((nat * Z) * Q)) :
  NoDup (map fst j) ->
  OpfModel.dict_get OpfModel.key_eqb (t, k)
                    (OpfModel.store_scenario acc (i, j))
  = if Nat.eqb t i
    then match OpfModel.dict_get Z.eqb k j with
         | Some a => Some a
         | None => OpfModel.dict_get OpfModel.key_eqb (t, k) acc
         end
    else OpfModel.dict_get OpfModel.key_eqb (t, k) acc.
Proof.
  unfold OpfModel.store_scenario. cbn [fst snd].
  revert acc. induction j as [|[k0 a0] j IH]; intros acc Hnd; cbn [fold_left].
  - cbn [OpfModel.dict_get]. now destruct (Nat.eqb t i).
  - inversion Hnd as [|? ? Hnotin Hnd']; subst.
    rewrite (IH _ Hnd'). cbn [fst snd OpfModel.dict_get].
    rewrite (dict_get_set OpfModel.key_eqb (i, k0) (t, k) a0 acc key_eqb_eq).
    unfold OpfModel.key_eqb at 1 3. cbn [fst snd].
    destruct (Nat.eqb_spec t i) as [->|Hti]; cbn [andb]; [|reflexivity].
    destruct (Z.eqb_spec k k0) as [->|Hk]; [|reflexivity].
    now rewrite (dict_get_not_in k0 j Hnotin).
Qed.

Lemma temp_from_get (imbs : list Opf.Imbalance) (s t : nat) (k : Z)
      (acc : list ((nat * Z) * Q)) :
  Forall (fun j => NoDup (map fst j)) imbs ->
  OpfModel.dict_get OpfModel.key_eqb (t, k)
    (fold_left OpfModel.store_scenario
               (combine (seq s (List.length imbs)) imbs) acc)
  = match (if Nat.leb s t then nth_error imbs (t - s) else None) with
    | Some j => match OpfModel.dict_get Z.eqb k j with
                | Some a => Some a
                | None => OpfModel.dict_get OpfModel.key_eqb (t, k) acc
                end
    | None => OpfModel.dict_get OpfModel.key_eqb (t, k) acc
    end.
Proof.
  revert s acc. induction imbs as [|j imbs IH]; intros s acc Hnd;
    cbn [List.length seq combine fold_left].
  - destruct (Nat.leb s t); [|reflexivity]. now destruct (t - s)%nat.
  - inversion Hnd as [|? ? Hj Hrest]; subst.
    rewrite (IH (Datatypes.S s) _ Hrest), (store_scenario_get s t k j acc Hj).
    destruct (Nat.leb_spec s t) as [Hle|Hgt].
    + destruct (Nat.eqb_spec t s) as [->|Hne].
      * replace (Nat.leb (Datatypes.S s) s) with false
          by (symmetry; apply Nat.leb_gt; lia).
        rewrite Nat.sub_diag. reflexivity.
      * replace (Nat.leb (Datatypes.S s) t) with true
          by (symmetry; apply Nat.leb_le; lia).
        replace (t - s)%nat with (Datatypes.S (t - Datatypes.S s)) by lia.
        reflexivity.
    + replace (Nat.leb (Datatypes.S s) t) with false
        by (symmetry; apply Nat.leb_gt; lia).
      destruct (Nat.eqb_spec t s) as [->|Hne]; [lia | reflexivity].
Qed.

(** X14.  The loop of [OPF_participationfactors] that flattens the list
    of scenario dictionaries into [temp] loses and invents nothing: the
    key [(t, k)] is present exactly when scenario [t] exists and has the
    key [k], and then holds the value of [imbalances[t][k]]. *)
Theorem temp_holds_every_imbalance :
  forall (imbs : list Opf.Imbalance) (t : nat) (k : Z),
    Forall (fun j => NoDup (map fst j)) imbs ->
    OpfModel.dict_get OpfModel.key_eqb (t, k) (OpfModel.temp imbs)
    = match nth_error imbs t with
      | Some j => OpfModel.dict_get Z.eqb k j
      | None => None
      end.
Proof.
  intros imbs t k Hnd. unfold OpfModel.temp.
  rewrite (temp_from_get imbs 0 t k [] Hnd).
  cbn [Nat.leb OpfModel.dict_get]. rewrite Nat.sub_0_r.
  destruct (nth_error imbs t) as [j|]; [|reflexivity].
  now destruct (OpfModel.dict_get Z.eqb k j).
Qed.

(** Two sampled scenarios over the nodes 0 (gas), 1 (wind) and 2 (load). *)
Definition sampled : list Opf.Imbalance :=
  [ [(0%Z, 0); (1%Z, 1 # 2); (2%Z, 0)];
    [(0%Z, 0); (1%Z, - (1 # 4)); (2%Z, 0)] ].

Lemma sampled_dicts : Forall (fun j => NoDup (map fst j)) sampled.
Proof.
  repeat constructor; cbn; intuition discriminate.
Qed.

(** The wind imbalance of the second scenario, read back from [temp]. *)
Lemma temp_sampled_wind :
  OpfModel.dict_get OpfModel.key_eqb (1%nat, 1%Z) (OpfModel.temp sampled)
  = match nth_error sampled 1 with
    | Some j => OpfModel.dict_get Z.eqb 1%Z j
    | None => None
    end.
Proof.
  exact (temp_holds_every_imbalance sampled 1%nat 1%Z sampled_dicts).
Defined.

(** A sum split by a test on its indices. *)
Lemma sum_filter_split {A} (g : A -> Q) (test : A -> bool) (l : list A) :
  Series.sum (map g l)
  == Series.sum (map g (filter test l))
     + Series.sum (map g (filter (fun a => negb (test a)) l)).
Proof.
  induction l as [|a l IH]; cbn [map filter].
  - rewrite Series.sum_nil. lra.
  - rewrite Series.sum_cons, IH.
    destruct (test a); cbn [negb map]; rewrite Series.sum_cons; lra.
Qed.

Lemma sum_map_zero {A} (g : A -> Q) (l : list A) :
  (forall a, In a l -> g a == 0) -> Series.sum (map g l) == 0.
Proof.
  intros Hg. rewrite (Series.sum_map_ext g (fun _ => 0) l Hg). clear Hg.
  induction l as [|a l IH]; cbn [map].
  - apply Series.sum_nil.
  - rewrite Series.sum_cons, IH. lra.
Qed.

Lemma sum_map_minus {A} (g h : A -> Q) (l : list A) :
  Series.sum (map (fun a => g a - h a) l)
  == Series.sum (map g l) - Series.sum (map h l).
Proof.
  induction l as [|a l IH]; cbn [map].
  - rewrite !Series.sum_nil. lra.
  - rewrite !Series.sum_cons, IH. lra.
Qed.

(** A value counted at the one node it belongs to. *)
Lemma sum_indicator (a : Z) (k : Q) (l : list Z) :
  NoDup l -> In a l ->
  Series.sum (map (fun i => if Z.eqb a i then k else 0) l) == k.
Proof.
  induction l as [|i l IH]; intros Hnd Hin; [destruct Hin|].
  inversion Hnd as [|? ? Hnotin Hnd']; subst.
  cbn [map]. rewrite Series.sum_cons.
  destruct Hin as [->|Hin].
  - rewrite Z.eqb_refl.
    rewrite (sum_map_zero (fun i => if Z.eqb a i then k else 0) l).
    + lra.
    + intros j Hj. destruct (Z.eqb_spec a j) as [->|_];
        [contradiction | reflexivity].
  - destruct (Z.eqb_spec a i) as [->|_]; [contradiction|].
    rewrite (IH Hnd' Hin). lra.
Qed.

(** Summing, over the nodes, the edges that start (or end) at the node
    counts every edge once. *)
Lemma sum_by_endpoint (sel : Z * Z -> Z) (g : Z * Z -> Q)
      (nodes : list Z) (edges : list (Z * Z)) :
  NoDup nodes ->
  (forall e, In e edges -> In (sel e) nodes) ->
  Series.sum
    (map (fun i => Series.sum
                     (map g (filter (fun e => Z.eqb (sel e) i) edges)))
         nodes)
  == Series.sum (map g edges).
Proof.
  intros Hnd. induction edges as [|e edges IH]; intros Hin.
  - cbn [filter map]. rewrite Series.sum_nil.
    apply sum_map_zero. intros; apply Series.sum_nil.
  - cbn [map]. rewrite Series.sum_cons.
    rewrite <- IH by (intros e' He'; apply Hin; now right).
    rewrite <- (sum_indicator (sel e) (g e) nodes Hnd)
      by (apply Hin; now left).
    rewrite <- Series.sum_map_plus.
    apply Series.sum_map_ext. intros i _. cbn [filter].
    destruct (Z.eqb (sel e) i); cbn [map].
    + rewrite Series.sum_cons. reflexivity.
    + lra.
Qed.

Lemma feasible_at (dat : OpfModel.Data) (v : OpfModel.Vars) (i : Z) (t : nat) :
  OpfModel.feasible dat v ->
  In i (OpfModel.V dat) -> In t (OpfModel.T dat) ->
  OpfModel.r v i t
  == OpfModel.p v i - OpfModel.alpha v i * OpfModel.total_imbalance dat t /\
  OpfModel.inflow dat v i t - OpfModel.outflow dat v i t
  == OpfModel.r v i t + OpfModel.imbalances dat t i - OpfModel.d dat i.
Proof.
  intros (_ & _ & _ & _ & _ & Hpow & _ & Hflow & _) Hi Ht.
  unfold OpfModel.power_withrecourse, OpfModel.flow_conservation in *.
  rewrite Forall_forall in Hpow, Hflow.
  specialize (Hpow i Hi). specialize (Hflow i Hi).
  rewrite Forall_forall in Hpow, Hflow. split; auto.
Qed.

(** The recourse actions absorb the total imbalance, and the flows
    cancel over the network. *)
Lemma power_balance (dat : OpfModel.Data) (v : OpfModel.Vars) (t : nat) :
  NoDup (OpfModel.V dat) ->
  (forall e, In e (OpfModel.E dat) ->
             In (fst e) (OpfModel.V dat) /\ In (snd e) (OpfModel.V dat)) ->
  OpfModel.feasible dat v ->
  In t (OpfModel.T dat) ->
  Series.sum (map (fun i => OpfModel.r v i t) (OpfModel.V dat))
  == Series.sum (map (OpfModel.p v) (OpfModel.V dat))
     - OpfModel.total_imbalance dat t /\
  Series.sum (map (fun i => OpfModel.r v i t) (OpfModel.V dat))
  + Series.sum (map (OpfModel.imbalances dat t) (OpfModel.V dat))
  == Series.sum (map (OpfModel.d dat) (OpfModel.V dat)).
Proof.
  intros Hnd HE Fv Ht.
  assert (Hone : Series.sum (map (OpfModel.alpha v) (OpfModel.V dat)) == 1)
    by (destruct Fv as (_ & _ & _ & H & _); exact H).
  assert (Hpower :
            Series.sum (map (fun i => OpfModel.r v i t) (OpfModel.V dat))
            == Series.sum (map (OpfModel.p v) (OpfModel.V dat))
               - OpfModel.total_imbalance dat t).
  { rewrite (Series.sum_map_ext
               (fun i => OpfModel.r v i t)
               (fun i => OpfModel.p v i
                         - OpfModel.total_imbalance dat t * OpfModel.alpha v i)
               (OpfModel.V dat)).
    - rewrite sum_map_minus, Series.sum_map_scale, Hone. ring.
    - intros i Hi. destruct (feasible_at dat v i t Fv Hi Ht) as [H _].
      rewrite H. ring. }
  assert (Hflow :
            Series.sum (map (fun i => OpfModel.r v i t) (OpfModel.V dat))
            + Series.sum (map (OpfModel.imbalances dat t) (OpfModel.V dat))
            == Series.sum (map (OpfModel.d dat) (OpfModel.V dat))).
  { assert (Hzero :
              Series.sum (map (fun i => OpfModel.inflow dat v i t
                                        - OpfModel.outflow dat v i t)
                              (OpfModel.V dat)) == 0).
    { rewrite sum_map_minus. unfold OpfModel.inflow, OpfModel.outflow.
      rewrite (sum_by_endpoint snd (fun e => OpfModel.f v e t)
                               (OpfModel.V dat) (OpfModel.E dat) Hnd)
        by (intros e He; exact (proj2 (HE e He))).
      rewrite (sum_by_endpoint fst (fun e => OpfModel.f v e t)
                               (OpfModel.V dat) (OpfModel.E dat) Hnd)
        by (intros e He; exact (proj1 (HE e He))).
      ring. }
    rewrite (Series.sum_map_ext
               (fun i => OpfModel.inflow dat v i t - OpfModel.outflow dat v i t)
               (fun i => (OpfModel.r v i t + OpfModel.imbalances dat t i)
                         - OpfModel.d dat i)
               (OpfModel.V dat)) in Hzero
      by (intros i Hi; exact (proj2 (feasible_at dat v i t Fv Hi Ht))).
    rewrite sum_map_minus, Series.sum_map_plus in Hzero. lra. }
  split; [exact Hpower | exact Hflow].
Qed.


(** X15.  In every feasible point of [opf_ldr.mod], in every scenario,
    the recourse actions absorb exactly the total imbalance: the
    productions after recourse sum to the scheduled productions minus
    [total_imbalance[t]]; and, the edges joining nodes of the network,
    production after recourse plus the imbalances equals the total
    demand.  When [total_imbalance[t]] is the sum of the imbalances of
    the scenario, the scheduled production therefore equals the total
    demand. *)
Theorem recourse_keeps_power_balance :
  forall (dat : OpfModel.Data) (v : OpfModel.Vars) (t : nat),
    NoDup (OpfModel.V dat) ->
    (forall e, In e (OpfModel.E dat) ->
               In (fst e) (OpfModel.V dat) /\ In (snd e) (OpfModel.V dat)) ->
    OpfModel.feasible dat v ->
    In t (OpfModel.T dat) ->
    Series.sum (map (fun i => OpfModel.r v i t) (OpfModel.V dat))
    == Series.sum (map (OpfModel.p v) (OpfModel.V dat))
       - OpfModel.total_imbalance dat t /\
    Series.sum (map (fun i => OpfModel.r v i t) (OpfModel.V dat))
    + Series.sum (map (OpfModel.imbalances dat t) (OpfModel.V dat))
    == Series.sum (map (OpfModel.d dat) (OpfModel.V dat)) /\
    (OpfModel.total_imbalance dat t
     == Series.sum (map (OpfModel.imbalances dat t) (OpfModel.V dat)) ->
     Series.sum (map (OpfModel.p v) (OpfModel.V dat))
     == Series.sum (map (OpfModel.d dat) (OpfModel.V dat))).
Proof.
  intros dat v t Hnd HE Fv Ht.
  destruct (power_balance dat v t Hnd HE Fv Ht) as [Hpower Hflow].
  split; [exact Hpower|]. split; [exact Hflow|].
  intros Htot. rewrite <- Htot in Hflow. lra.
Qed.

(** A network of three nodes: a gas generator (0) and a wind farm (1),
    each joined by a line to a load (2). *)
Definition small_nodes : list OpfModel.NodeRow :=
  [ {| OpfModel.node_id := 0; OpfModel.row_p_min := 0;
       OpfModel.row_p_max := 10; OpfModel.row_d := 0;
       OpfModel.row_is_generator := 1;
       OpfModel.row_energy_type := "gas"; OpfModel.row_c := 2 |};
    {| OpfModel.node_id := 1; OpfModel.row_p_min := 1;
       OpfModel.row_p_max := 1; OpfModel.row_d := 0;
       OpfModel.row_is_generator := 1;
       OpfModel.row_energy_type := "wind"; OpfModel.row_c := 0 |};
    {| OpfModel.node_id := 2; OpfModel.row_p_min := 0;
       OpfModel.row_p_max := 0; OpfModel.row_d := 3;
       OpfModel.row_is_generator := 0;
       OpfModel.row_energy_type := ""; OpfModel.row_c := 0 |} ].

Definition small_network : OpfModel.Network :=
  {| OpfModel.nodes_df := small_nodes;
     OpfModel.edges_df :=
       [ {| OpfModel.edge_id := (0%Z, 2%Z); OpfModel.row_b := 1;
            OpfModel.row_f_max := 5 |};
         {| OpfModel.edge_id := (1%Z, 2%Z); OpfModel.row_b := 1;
            OpfModel.row_f_max := 5 |} ] |}.

(** The model data of the small network on the two sampled scenarios. *)
Definition small_data : OpfModel.Data :=
  OpfModel.OPF_participationfactors
    small_network sampled (Opf.totalimbalances sampled)
    (Opf.abstotalimbalances sampled) false.

(** The gas generator schedules 2 and absorbs the whole imbalance. *)
Definition small_dispatch : OpfModel.Vars :=
  let p := fun i : Z => if Z.eqb i 0 then 2 else if Z.eqb i 1 then 1 else 0 in
  let alpha := fun i : Z => if Z.eqb i 0 then 1 else 0 in
  let r := fun (i : Z) (t : nat) =>
             p i - alpha i * Opf.totalimbalances sampled t in
  let flow := fun (e : Z * Z) (t : nat) =>
                - (r (fst e) t + OpfModel.imbalance_of sampled t (fst e)) in
  {| OpfModel.p := p;
     OpfModel.r := r;
     OpfModel.alpha := alpha;
     OpfModel.theta := fun i t => if Z.eqb i 2 then 0 else flow (i, 2%Z) t;
     OpfModel.f := flow |}.

Ltac decide_rational :=
  repeat match goal with
         | |- _ /\ _ => split
         | |- Forall _ _ => constructor
         | |- _ == _ => vm_compute; reflexivity
         | |- _ <= _ => vm_compute; discriminate
         | |- _ -> _ => intro
         end.

Lemma small_dispatch_feasible : OpfModel.feasible small_data small_dispatch.
Proof.
  unfold OpfModel.feasible, OpfModel.bounds,
    OpfModel.windsolarhydro_nopartecipationfactors,
    OpfModel.load_nopartecipationfactors, OpfModel.sum_one,
    OpfModel.uniformparticipationfactors_check, OpfModel.power_withrecourse,
    OpfModel.generation_bounds_withrecourse, OpfModel.flow_conservation,
    OpfModel.susceptance, OpfModel.flows_bounds.
  cbn [small_data OpfModel.OPF_participationfactors OpfModel.V OpfModel.T
       OpfModel.base OpfModel.E OpfModel.SWH OpfModel.CG OpfModel.NG
       Opf.bind Opf.nodes Opf.V Opf.T OpfModel.nodes_df OpfModel.edges_df
       small_network small_nodes map OpfModel.node_id OpfModel.edge_id
       OpfModel.index_where filter existsb String.eqb Ascii.eqb Bool.eqb
       OpfModel.row_energy_type orb sampled List.length seq].
  decide_rational.
  all: try (exfalso; revert H; vm_compute; discriminate).
Qed.

Lemma small_network_labels : NoDup (OpfModel.V small_data).
Proof. repeat constructor; cbn; intuition discriminate. Qed.

Lemma small_network_edges :
  forall e, In e (OpfModel.E small_data) ->
            In (fst e) (OpfModel.V small_data) /\
            In (snd e) (OpfModel.V small_data).
Proof.
  intros e [<-|[<-|[]]]; cbn; intuition.
Qed.

(** In the first sampled scenario of the small network the gas generator
    gives up the half unit the wind farm produces in excess. *)
Lemma recourse_small_network :
  Series.sum (map (fun i => OpfModel.r small_dispatch i 0%nat)
                  (OpfModel.V small_data))
  == Series.sum (map (OpfModel.p small_dispatch) (OpfModel.V small_data))
     - OpfModel.total_imbalance small_data 0%nat /\
  Series.sum (map (fun i => OpfModel.r small_dispatch i 0%nat)
                  (OpfModel.V small_data))
  + Series.sum (map (OpfModel.imbalances small_data 0%nat)
                    (OpfModel.V small_data))
  == Series.sum (map (OpfModel.d small_data) (OpfModel.V small_data)) /\
  (OpfModel.total_imbalance small_data 0%nat
   == Series.sum (map (OpfModel.imbalances small_data 0%nat)
                      (OpfModel.V small_data)) ->
   Series.sum (map (OpfModel.p small_dispatch) (OpfModel.V small_data))
   == Series.sum (map (OpfModel.d small_data) (OpfModel.V small_data))).
Proof.
  apply (recourse_keeps_power_balance small_data small_dispatch 0%nat).
  - exact small_network_labels.
  - exact small_network_edges.
  - exact small_dispatch_feasible.
  - cbn. now left.
Defined.

(** A column read by label returns the cell of the row with that label. *)
Lemma node_column_row {A} (df : list OpfModel.NodeRow)
      (g : OpfModel.NodeRow -> A) (default : A) (row : OpfModel.NodeRow) :
  NoDup (map OpfModel.node_id df) -> In row df ->
  OpfModel.node_column df g default (OpfModel.node_id row) = g row.
Proof.
  unfold OpfModel.node_column.
  induction df as [|row0 df IH]; intros Hnd Hin; [destruct Hin|].
  cbn [map] in Hnd. inversion Hnd as [|? ? Hnotin Hnd']; subst.
  cbn [find]. destruct Hin as [->|Hin].
  - now rewrite Z.eqb_refl.
  - destruct (Z.eqb_spec (OpfModel.node_id row0) (OpfModel.node_id row))
      as [Heq|_].
    + exfalso. apply Hnotin. rewrite Heq. now apply in_map.
    + now apply IH.
Qed.

Lemma sum_node_column (df : list OpfModel.NodeRow)
      (g : OpfModel.NodeRow -> Q) :
  NoDup (map OpfModel.node_id df) ->
  Series.sum (map (OpfModel.node_column df g 0) (map OpfModel.node_id df))
  == Series.sum (map g df).
Proof.
  intros Hnd. rewrite map_map. apply Series.sum_map_ext.
  intros row Hrow. now rewrite (node_column_row df g 0 row Hnd Hrow).
Qed.

(** The values of a dictionary, read key by key. *)
Lemma sum_values_by_key (j : Opf.Imbalance) :
  NoDup (map fst j) ->
  Series.sum (map snd j)
  == Series.sum (map (fun k => match OpfModel.dict_get Z.eqb k j with
                               | Some a => a
                               | None => 0
                               end) (map fst j)).
Proof.
  induction j as [|[k0 a0] j IH]; intros Hnd; [reflexivity|].
  cbn [map fst snd] in *. inversion Hnd as [|? ? Hnotin Hnd']; subst.
  rewrite !Series.sum_cons. cbn [OpfModel.dict_get]. rewrite Z.eqb_refl.
  rewrite (IH Hnd'). apply Qplus_inj_l.
  apply Series.sum_map_ext. intros k Hk.
  destruct (Z.eqb_spec k k0) as [->|_]; [contradiction | reflexivity].
Qed.

Lemma imbalance_of_nth (imbs : list Opf.Imbalance) (t : nat) (k : Z)
      (j : Opf.Imbalance) :
  Forall (fun j => NoDup (map fst j)) imbs ->
  nth_error imbs t = Some j ->
  OpfModel.imbalance_of imbs t k
  = match OpfModel.dict_get Z.eqb k j with Some a => a | None => 0 end.
Proof.
  intros Hnd Hj. unfold OpfModel.imbalance_of, OpfModel.temp.
  rewrite (temp_from_get imbs 0 t k [] Hnd).
  cbn [Nat.leb OpfModel.dict_get]. rewrite Nat.sub_0_r, Hj.
  now destruct (OpfModel.dict_get Z.eqb k j).
Qed.

(** [totalimbalances[t]] is the sum over the nodes of the imbalances the
    model is given for scenario [t], when the scenario has one entry per
    node. *)
Lemma totalimbalances_by_node (imbs : list Opf.Imbalance) (t : nat)
      (labels : list Z) :
  NoDup labels ->
  Forall (fun j => map fst j = labels) imbs ->
  (t < List.length imbs)%nat ->
  Opf.totalimbalances imbs t
  == Series.sum (map (OpfModel.imbalance_of imbs t) labels).
Proof.
  intros Hnd Hkeys Ht.
  assert (Hdicts : Forall (fun j => NoDup (map fst j)) imbs).
  { rewrite Forall_forall in *. intros j Hj. now rewrite (Hkeys j Hj). }
  destruct (nth_error imbs t) as [j|] eqn:Hj;
    [|apply nth_error_None in Hj; lia].
  unfold Opf.totalimbalances.
  rewrite (nth_error_nth imbs t [] Hj).
  assert (Hin : In j imbs) by (eapply nth_error_In; eauto).
  rewrite Forall_forall in Hkeys, Hdicts.
  rewrite (sum_values_by_key j (Hdicts j Hin)), (Hkeys j Hin).
  apply Series.sum_map_ext. intros k _.
  symmetry. rewrite (imbalance_of_nth imbs t k j); [reflexivity| |exact Hj].
  now rewrite Forall_forall.
Qed.

(** X16.  With the data as the notebook binds it (every scenario a
    dictionary with one entry per node of [nodes_df], the totals computed
    by [totalimbalances], at least one scenario, unique node labels and
    edges between nodes of the table), every feasible point schedules
    exactly the total of the demand column, whatever the imbalances. *)
Theorem scheduled_production_meets_demand :
  forall (network : OpfModel.Network) (imbs : list Opf.Imbalance)
         (abstotal : nat -> Q) (uniform : bool) (v : OpfModel.Vars),
    let df := OpfModel.nodes_df network in
    let dat := OpfModel.OPF_participationfactors
                 network imbs (Opf.totalimbalances imbs) abstotal uniform in
    NoDup (map OpfModel.node_id df) ->
    (forall row, In row (OpfModel.edges_df network) ->
                 In (fst (OpfModel.edge_id row)) (map OpfModel.node_id df) /\
                 In (snd (OpfModel.edge_id row)) (map OpfModel.node_id df)) ->
    Forall (fun j => map fst j = map OpfModel.node_id df) imbs ->
    imbs <> [] ->
    OpfModel.feasible dat v ->
    Series.sum (map (fun row => OpfModel.p v (OpfModel.node_id row)) df)
    == Series.sum (map OpfModel.row_d df).
Proof.
  intros network imbs abstotal uniform v df dat Hnd Hedges Hkeys Hne Fv.
  assert (Ht : In 0%nat (OpfModel.T dat)).
  { cbn. destruct imbs as [|j imbs]; [congruence|]. cbn. now left. }
  assert (HE : forall e, In e (OpfModel.E dat) ->
                         In (fst e) (OpfModel.V dat) /\
                         In (snd e) (OpfModel.V dat)).
  { intros e He. cbn in He. apply in_map_iff in He.
    destruct He as (row & <- & Hrow). exact (Hedges row Hrow). }
  destruct (power_balance dat v 0%nat Hnd HE Fv Ht) as [Hpower Hflow].
  assert (Htot : OpfModel.total_imbalance dat 0%nat
                 == Series.sum (map (OpfModel.imbalances dat 0%nat)
                                    (OpfModel.V dat))).
  { cbn [dat OpfModel.OPF_participationfactors OpfModel.total_imbalance
         OpfModel.imbalances OpfModel.V OpfModel.base Opf.bind Opf.nodes
         Opf.V].
    apply totalimbalances_by_node; auto.
    destruct imbs; [congruence | cbn; lia]. }
  rewrite <- Htot in Hflow.
  assert (Hbal : Series.sum (map (OpfModel.p v) (OpfModel.V dat))
                 == Series.sum (map (OpfModel.d dat) (OpfModel.V dat)))
    by lra.
  rewrite <- (sum_node_column df OpfModel.row_d Hnd).
  rewrite <- (map_map OpfModel.node_id (OpfModel.p v) df).
  exact Hbal.
Qed.

(** The small network schedules the three units its load asks for. *)
Lemma scheduled_production_small_network :
  Series.sum (map (fun row => OpfModel.p small_dispatch (OpfModel.node_id row))
                  small_nodes)
  == Series.sum (map OpfModel.row_d small_nodes).
Proof.
  apply (scheduled_production_meets_demand
           small_network sampled (Opf.abstotalimbalances sampled) false
           small_dispatch).
  - exact small_network_labels.
  - intros row [<-|[<-|[]]]; cbn; intuition.
  - repeat constructor.
  - discriminate.
  - exact small_dispatch_feasible.
Defined.

(** The energy types [OPF_participationfactors] sorts the nodes by. *)
Definition known_energy_types : list string :=
  ["coal"; "gas"; "wind"; "solar"; "hydro"; ""]%string.

Lemma index_where_in (df : list OpfModel.NodeRow) (types : list string)
      (row : OpfModel.NodeRow) :
  In row df -> In (OpfModel.row_energy_type row) types ->
  In (OpfModel.node_id row) (OpfModel.index_where df types).
Proof.
  intros Hrow Htype. unfold OpfModel.index_where.
  apply in_map. apply filter_In. split; [exact Hrow|].
  apply existsb_exists. exists (OpfModel.row_energy_type row).
  split; [exact Htype | apply String.eqb_refl].
Qed.

(** The constraints on [SWH] and [NG] leave a participation factor only
    to coal and gas generators, when the table has no other energy
    type. *)
Lemma nonconventional_alpha_zero (network : OpfModel.Network)
      (imbs : list Opf.Imbalance) (tot abst : nat -> Q) (uniform : bool)
      (v : OpfModel.Vars) (row : OpfModel.NodeRow) :
  OpfModel.feasible
    (OpfModel.OPF_participationfactors network imbs tot abst uniform) v ->
  In row (OpfModel.nodes_df network) ->
  In (OpfModel.row_energy_type row) known_energy_types ->
  ~ In (OpfModel.row_energy_type row) ["coal"; "gas"]%string ->
  OpfModel.alpha v (OpfModel.node_id row) == 0.
Proof.
  intros (_ & Hswh & Hng & _) Hrow Htypes Hnot.
  unfold OpfModel.windsolarhydro_nopartecipationfactors,
    OpfModel.load_nopartecipationfactors in *.
  rewrite Forall_forall in Hswh, Hng.
  unfold known_energy_types in Htypes.
  destruct Htypes as [E|[E|Hrest]];
    [exfalso; apply Hnot; rewrite <- E; cbn; tauto ..|].
  assert (Hcase : In (OpfModel.row_energy_type row)
                     ["wind"; "solar"; "hydro"]%string \/
                  In (OpfModel.row_energy_type row) [""%string])
    by (cbn in *; tauto).
  destruct Hcase as [Hw|Hl].
  - apply Hswh. now apply index_where_in.
  - apply Hng. now apply index_where_in.
Qed.

(** X17.  When every node of [nodes_df] has one of the energy types
    [OPF_participationfactors] sorts by, a feasible point gives a
    participation factor only to coal and gas generators: the factor of
    every other node is zero, the factors of the nodes of [CG] sum to
    one, so that [CG] cannot be empty, and with
    [uniformparticipationfactors=True] every node of [CG] has the factor
    [1 / card(CG)]. *)
Theorem participation_only_conventional :
  forall (network : OpfModel.Network) (imbs : list Opf.Imbalance)
         (totalimbalances abstotalimbalances : nat -> Q) (uniform : bool)
         (v : OpfModel.Vars),
    let df := OpfModel.nodes_df network in
    let dat := OpfModel.OPF_participationfactors
                 network imbs totalimbalances abstotalimbalances uniform in
    (forall row, In row df ->
                 In (OpfModel.row_energy_type row) known_energy_types) ->
    OpfModel.feasible dat v ->
    (forall row, In row df ->
                 ~ In (OpfModel.row_energy_type row) ["coal"; "gas"]%string ->
                 OpfModel.alpha v (OpfModel.node_id row) == 0) /\
    Series.sum (map (OpfModel.alpha v) (OpfModel.CG dat)) == 1 /\
    OpfModel.CG dat <> [] /\
    (uniform = true ->
     forall i, In i (OpfModel.CG dat) ->
               OpfModel.alpha v i
               == 1 / inject_Z (Z.of_nat (List.length (OpfModel.CG dat)))).
Proof.
  intros network imbs tot abst uniform v df dat Htypes Fv.
  assert (Hzero : forall row,
             In row df ->
             ~ In (OpfModel.row_energy_type row) ["coal"; "gas"]%string ->
             OpfModel.alpha v (OpfModel.node_id row) == 0).
  { intros row Hrow Hnot.
    exact (nonconventional_alpha_zero network imbs tot abst uniform v row
                                      Fv Hrow (Htypes row Hrow) Hnot). }
  destruct Fv as (_ & _ & _ & Hone & Huni & _).
  unfold OpfModel.sum_one, OpfModel.uniformparticipationfactors_check in *.
  rewrite Forall_forall in Huni.
  assert (Hcg : Series.sum (map (OpfModel.alpha v) (OpfModel.CG dat)) == 1).
  { set (g := fun row => OpfModel.alpha v (OpfModel.node_id row)).
    set (test := fun row =>
                   existsb (String.eqb (OpfModel.row_energy_type row))
                           ["coal"; "gas"]%string).
    assert (Hall : Series.sum (map g df) == 1).
    { unfold g. rewrite <- (map_map OpfModel.node_id (OpfModel.alpha v) df).
      exact Hone. }
    assert (Hrest : Series.sum
                      (map g (filter (fun a => negb (test a)) df)) == 0).
    { apply sum_map_zero. intros row Hrow.
      apply filter_In in Hrow. destruct Hrow as [Hrow Hneg].
      apply Hzero; [exact Hrow|]. intros Hin.
      apply negb_true_iff in Hneg.
      assert (Hex : test row = true).
      { apply existsb_exists. exists (OpfModel.row_energy_type row).
        split; [exact Hin | apply String.eqb_refl]. }
      congruence. }
    assert (Hconv : Series.sum (map (OpfModel.alpha v) (OpfModel.CG dat))
                    == Series.sum (map g (filter test df))).
    { cbn [dat OpfModel.OPF_participationfactors OpfModel.CG].
      unfold OpfModel.index_where. rewrite map_map. reflexivity. }
    pose proof (sum_filter_split g test df) as Hsplit.
    rewrite Hconv. lra. }
  split; [exact Hzero|]. split; [exact Hcg|]. split.
  - intros Hempty. rewrite Hempty in Hcg. cbn [map] in Hcg.
    rewrite Series.sum_nil in Hcg. lra.
  - intros -> i Hi. apply (Huni i Hi). reflexivity.
Qed.

(** In the small network only the gas generator takes part in the
    recourse. *)
Lemma participation_small_network :
  (forall row, In row small_nodes ->
               ~ In (OpfModel.row_energy_type row) ["coal"; "gas"]%string ->
               OpfModel.alpha small_dispatch (OpfModel.node_id row) == 0) /\
  Series.sum (map (OpfModel.alpha small_dispatch) (OpfModel.CG small_data))
  == 1 /\
  OpfModel.CG small_data <> [] /\
  (false = true ->
   forall i, In i (OpfModel.CG small_data) ->
             OpfModel.alpha small_dispatch i
             == 1 / inject_Z (Z.of_nat (List.length (OpfModel.CG small_data)))).
Proof.
  apply (participation_only_conventional
           small_network sampled (Opf.totalimbalances sampled)
           (Opf.abstotalimbalances sampled) false small_dispatch).
  - intros row [<-|[<-|[<-|[]]]]; cbn; tauto.
  - exact small_dispatch_feasible.
Defined.

(* ------------------------------------------------------------------ *)
(** ** Economic dispatch: the reporting helpers of the notebook *)

Module OpfReport.
Import Series.

(** [l[i]] on a Python list and [df.iloc[i]] on a table: a negative
    index counts from the end, an index outside the list is an
    [IndexError]. *)
Definition py_index {A} (l : list A) (i : Z) : option A :=
  let n := Z.of_nat (List.length l) in
  if (0 <=? i)%Z then nth_error l (Z.to_nat i)
  else if (- n <=? i)%Z then nth_error l (Z.to_nat (n + i))
  else None.

(** [range(T)] *)
Definition range (T : Z) : list Z := map Z.of_nat (seq 0 (Z.to_nat T)).

(** [sum(g(x) for x in xs)]: the terms are evaluated and added from the
    left, starting from 0; the first exception ends the sum. *)
Fixpoint py_sum_from {X} (g : X -> Outcome Q) (xs : list X) (acc : Q)
  : Outcome Q :=
  match xs with
  | [] => Returned acc
  | x :: xs' =>
      match g x with
      | Returned a => py_sum_from g xs' (acc + a)
      | Raised exn => Raised exn
      end
  end.

Definition py_sum {X} (g : X -> Outcome Q) (xs : list X) : Outcome Q :=
  py_sum_from g xs 0.

(** [abstotalimbalances = {t: abs(totalimbalances[t])
                           for t in range(len(totalimbalances))}] *)
Definition abstotalimbalances_dict (imbs : list Opf.Imbalance)
  : list (Z * Q) :=
  map (fun t => (Z.of_nat t, Opf.abstotalimbalances imbs t))
      (seq 0 (List.length imbs)).

(** [get_firststagecost(model)] *)
Definition get_firststagecost (dat : OpfModel.Data) (v : OpfModel.Vars) : Q :=
  Opf.first_stage (OpfModel.base dat) (OpfModel.objective_vars v).

(** [2 * df.iloc[i]["c"] * q_alpha[i] * abstotalimbalances[t]] *)
Definition term (df : list OpfModel.NodeRow) (q_alpha : list Q)
           (abstotalimbalances : list (Z * Q)) (t i : Z) : Outcome Q :=
  match py_index df i with
  | None => Raised "IndexError"
  | Some row =>
      match py_index q_alpha i with
      | None => Raised "IndexError"
      | Some a =>
          match OpfModel.dict_get Z.eqb t abstotalimbalances with
          | None => Raised "KeyError"
          | Some ab => Returned (2 * OpfModel.row_c row * a * ab)
          end
      end
  end.

(** [get_averagerecoursecost(model, df, T, abstotalimbalances)]; the
    model is the data it was given and the values of its variables. *)
Definition get_averagerecoursecost (dat : OpfModel.Data) (v : OpfModel.Vars)
           (df : list OpfModel.NodeRow) (T : Z)
           (abstotalimbalances : list (Z * Q)) : Outcome Q :=
  let q_alpha := map (OpfModel.alpha v) (OpfModel.V dat) in
  if (T =? 0)%Z then Raised "ZeroDivisionError"
  else
    match py_sum (fun t => py_sum (term df q_alpha abstotalimbalances t)
                                  (map OpfModel.node_id df))
                 (range T) with
    | Returned total => Returned (1 / inject_Z T * total)
    | Raised exn => Raised exn
    end.

End OpfReport.

(** A sum whose terms all evaluate is the sum of their values. *)
Lemma py_sum_from_returns {X Y} (emb : Y -> X) (g : X -> Outcome Q)
      (h : Y -> Q) (ys : list Y) (acc : Q) :
  (forall y, In y ys -> g (emb y) = Returned (h y)) ->
  OpfReport.py_sum_from g (map emb ys) acc
  = Returned (fold_left Qplus (map h ys) acc).
Proof.
  revert acc. induction ys as [|y ys IH]; intros acc Hg;
    cbn [map OpfReport.py_sum_from fold_left]; [reflexivity|].
  rewrite (Hg y) by now left.
  apply IH. intros y' Hy'. apply Hg. now right.
Qed.

Lemma py_sum_returns {X Y} (emb : Y -> X) (g : X -> Outcome Q)
      (h : Y -> Q) (ys : list Y) :
  (forall y, In y ys -> g (emb y) = Returned (h y)) ->
  OpfReport.py_sum g (map emb ys) = Returned (Series.sum (map h ys)).
Proof.
  intros Hg. unfold OpfReport.py_sum, Series.sum.
  now apply py_sum_from_returns.
Qed.

(** A sum ends in the exception of its first term that raises one. *)
Lemma py_sum_from_raises {X} (g : X -> Outcome Q) (xs ys : list X) (x : X)
      (exn : string) (acc : Q) :
  (forall x', In x' xs -> exists a, g x' = Returned a) ->
  g x = Raised exn ->
  OpfReport.py_sum_from g (xs ++ x :: ys) acc = Raised exn.
Proof.
  revert acc. induction xs as [|x0 xs IH]; intros acc Hxs Hx;
    cbn [app OpfReport.py_sum_from].
  - now rewrite Hx.
  - destruct (Hxs x0) as [a Ha]; [now left|]. rewrite Ha.
    apply IH; [|exact Hx]. intros x' Hx'. apply Hxs. now right.
Qed.

Lemma py_index_position {A} (l : list A) (k : nat) :
  OpfReport.py_index l (Z.of_nat k) = nth_error l k.
Proof.
  unfold OpfReport.py_index.
  destruct (Z.leb_spec 0 (Z.of_nat k)) as [_|H]; [|lia].
  now rewrite Nat2Z.id.
Qed.

(** When the labels of a table are the positions of its rows, every row
    is found at the position its label names. *)
Lemma labels_are_positions (df : list OpfModel.NodeRow)
      (row : OpfModel.NodeRow) :
  map OpfModel.node_id df = map Z.of_nat (seq 0 (List.length df)) ->
  In row df ->
  exists k, OpfModel.node_id row = Z.of_nat k /\ nth_error df k = Some row.
Proof.
  intros Hlabels Hrow.
  destruct (In_nth_error df row Hrow) as [k Hk].
  exists k. split; [|exact Hk].
  assert (Hlt : (k < List.length df)%nat)
    by (apply nth_error_Some; congruence).
  pose proof (map_nth_error OpfModel.node_id k df Hk) as H1.
  rewrite Hlabels in H1.
  assert (H2 : nth_error (seq 0 (List.length df)) k = Some k).
  { rewrite nth_error_nth' with (d := 0%nat) by (now rewrite length_seq).
    now rewrite seq_nth. }
  rewrite (map_nth_error Z.of_nat k (seq 0 (List.length df)) H2) in H1.
  now inversion H1.
Qed.

Lemma positions_NoDup (df : list OpfModel.NodeRow) :
  map OpfModel.node_id df = map Z.of_nat (seq 0 (List.length df)) ->
  NoDup (map OpfModel.node_id df).
Proof.
  intros ->. apply NoDup_map_NoDup_ForallPairs; [|apply seq_NoDup].
  intros a b _ _. apply Nat2Z.inj.
Qed.

Lemma abstotalimbalances_dict_get (imbs : list Opf.Imbalance) (t : nat) :
  (t < List.length imbs)%nat ->
  OpfModel.dict_get Z.eqb (Z.of_nat t) (OpfReport.abstotalimbalances_dict imbs)
  = Some (Opf.abstotalimbalances imbs t).
Proof.
  unfold OpfReport.abstotalimbalances_dict.
  generalize (Opf.abstotalimbalances imbs) as g.
  generalize (List.length imbs) as n. intros n g.
  assert (H : forall s, (s <= t < s + n)%nat ->
                        OpfModel.dict_get
                          Z.eqb (Z.of_nat t)
                          (map (fun t0 => (Z.of_nat t0, g t0)) (seq s n))
                        = Some (g t)).
  { induction n as [|n IH]; intros s Hs; [lia|].
    cbn [seq map OpfModel.dict_get].
    destruct (Z.eqb_spec (Z.of_nat t) (Z.of_nat s)) as [E|E].
    - apply Nat2Z.inj in E. now subst.
    - apply IH. assert (t <> s) by congruence. lia. }
  intros Ht. apply H. lia.
Qed.

Lemma abstotalimbalances_dict_missing (imbs : list Opf.Imbalance) (t : Z) :
  (Z.of_nat (List.length imbs) <= t)%Z ->
  OpfModel.dict_get Z.eqb t (OpfReport.abstotalimbalances_dict imbs) = None.
Proof.
  intros Ht. apply dict_get_not_in.
  unfold OpfReport.abstotalimbalances_dict. rewrite map_map. cbn [fst].
  intros Hin. apply in_map_iff in Hin. destruct Hin as (s & <- & Hs).
  apply in_seq in Hs. lia.
Qed.

(** One term of the sum of [get_averagerecoursecost], at the label of a
    row of the table. *)
Lemma term_at_row (df : list OpfModel.NodeRow) (alpha : Z -> Q)
      (abstotal : list (Z * Q)) (t : Z) (ab : Q) (row : OpfModel.NodeRow) :
  map OpfModel.node_id df = map Z.of_nat (seq 0 (List.length df)) ->
  In row df ->
  OpfModel.dict_get Z.eqb t abstotal = Some ab ->
  OpfReport.term df (map alpha (map OpfModel.node_id df)) abstotal t
                 (OpfModel.node_id row)
  = Returned (2 * OpfModel.row_c row * alpha (OpfModel.node_id row) * ab).
Proof.
  intros Hlabels Hrow Hab.
  destruct (labels_are_positions df row Hlabels Hrow) as (k & Hid & Hk).
  assert (Hq : nth_error (map alpha (map OpfModel.node_id df)) k
               = Some (alpha (OpfModel.node_id row)))
    by (apply map_nth_error; apply map_nth_error; exact Hk).
  assert (Hq' : OpfReport.py_index (map alpha (map OpfModel.node_id df))
                                   (OpfModel.node_id row)
                = Some (alpha (OpfModel.node_id row)))
    by (rewrite <- Hq, Hid; apply py_index_position).
  assert (Hrow' : OpfReport.py_index df (OpfModel.node_id row) = Some row)
    by (rewrite <- Hk, Hid; apply py_index_position).
  unfold OpfReport.term. now rewrite Hrow', Hq', Hab.
Qed.

(** The recourse cost of one scenario, read row by row of the table:
    only the coal and gas generators contribute. *)
Lemma scenario_cost_by_row (network : OpfModel.Network)
      (imbs : list Opf.Imbalance) (tot abst : nat -> Q) (uniform : bool)
      (v : OpfModel.Vars) (t : nat) :
  NoDup (map OpfModel.node_id (OpfModel.nodes_df network)) ->
  (forall row, In row (OpfModel.nodes_df network) ->
               ~ In (OpfModel.row_energy_type row) ["coal"; "gas"]%string ->
               OpfModel.alpha v (OpfModel.node_id row) == 0) ->
  Opf.scenario_cost
    (OpfModel.base
       (OpfModel.OPF_participationfactors network imbs tot abst uniform))
    (OpfModel.objective_vars v) t
  == Series.sum
       (map (fun row => 2 * OpfModel.row_c row
                        * OpfModel.alpha v (OpfModel.node_id row) * abst t)
            (OpfModel.nodes_df network)).
Proof.
  intros Hnd Hzero. set (df := OpfModel.nodes_df network) in *.
  unfold Opf.scenario_cost, Opf.conventional.
  cbn [OpfModel.OPF_participationfactors OpfModel.base Opf.bind Opf.nodes
       Opf.V Opf.c Opf.energy_type Opf.abs_total_imbalance
       OpfModel.objective_vars Opf.alpha].
  fold df.
  set (hV := fun i => 2 * OpfModel.node_column df OpfModel.row_c 0 i
                      * OpfModel.alpha v i * abst t).
  set (testV := fun i =>
                  (String.eqb (OpfModel.node_column
                                 df OpfModel.row_energy_type ""%string i)
                              "coal"
                   || String.eqb (OpfModel.node_column
                                    df OpfModel.row_energy_type ""%string i)
                                 "gas")%bool).
  pose proof (sum_filter_split hV testV (map OpfModel.node_id df)) as Hsplit.
  assert (Hrest : Series.sum
                    (map hV (filter (fun a => negb (testV a))
                                    (map OpfModel.node_id df))) == 0).
  { apply sum_map_zero. intros i Hi. apply filter_In in Hi.
    destruct Hi as [Hi Hneg]. apply in_map_iff in Hi.
    destruct Hi as (row & <- & Hrow).
    apply negb_true_iff in Hneg. unfold testV in Hneg.
    rewrite (node_column_row df OpfModel.row_energy_type ""%string row
                             Hnd Hrow) in Hneg.
    apply orb_false_iff in Hneg. destruct Hneg as [Hc Hg].
    apply String.eqb_neq in Hc, Hg.
    unfold hV. rewrite (Hzero row Hrow).
    - ring.
    - intros [E|[E|[]]]; congruence. }
  assert (Hall : Series.sum (map hV (map OpfModel.node_id df))
                 == Series.sum
                      (map (fun row =>
                              2 * OpfModel.row_c row
                              * OpfModel.alpha v (OpfModel.node_id row)
                              * abst t) df)).
  { rewrite map_map. apply Series.sum_map_ext. intros row Hrow. unfold hV.
    now rewrite (node_column_row df OpfModel.row_c 0 row Hnd Hrow). }
  rewrite <- Hall, Hsplit, Hrest. ring.
Qed.

(** X18.  When the labels of [nodes_df] are the positions of its rows,
    [T] is the number of sampled scenarios (at least one) and only coal
    and gas generators have a participation factor, the value returned by
    [get_averagerecoursecost(m, nodes_df, T, abstotalimbalances)] is the
    recourse term of the objective of the model, so that the first-stage
    cost of [get_firststagecost] and the average recourse cost add up to
    the objective value printed as the total cost. *)
Theorem report_costs_add_up :
  forall (network : OpfModel.Network) (imbs : list Opf.Imbalance)
         (uniform : bool) (v : OpfModel.Vars),
    let df := OpfModel.nodes_df network in
    let dat := OpfModel.OPF_participationfactors
                 network imbs (Opf.totalimbalances imbs)
                 (Opf.abstotalimbalances imbs) uniform in
    map OpfModel.node_id df = map Z.of_nat (seq 0 (List.length df)) ->
    imbs <> [] ->
    (forall row, In row df ->
                 ~ In (OpfModel.row_energy_type row) ["coal"; "gas"]%string ->
                 OpfModel.alpha v (OpfModel.node_id row) == 0) ->
    exists cost total,
      OpfReport.get_averagerecoursecost
        dat v df (Z.of_nat (List.length imbs))
        (OpfReport.abstotalimbalances_dict imbs) = Returned cost /\
      cost == Opf.weight (OpfModel.base dat)
              * Opf.second_stage_total (OpfModel.base dat)
                                       (OpfModel.objective_vars v) /\
      OpfModel.obj dat v = Some total /\
      total == OpfReport.get_firststagecost dat v + cost.
Proof.
  intros network imbs uniform v df dat Hlabels Hne Hzero.
  pose proof (positions_NoDup df Hlabels) as Hnd.
  set (H := fun t : nat =>
              Series.sum
                (map (fun row => 2 * OpfModel.row_c row
                                 * OpfModel.alpha v (OpfModel.node_id row)
                                 * Opf.abstotalimbalances imbs t) df)).
  assert (Hsum :
            OpfReport.py_sum
              (fun t => OpfReport.py_sum
                          (OpfReport.term
                             df (map (OpfModel.alpha v) (OpfModel.V dat))
                             (OpfReport.abstotalimbalances_dict imbs) t)
                          (map OpfModel.node_id df))
              (OpfReport.range (Z.of_nat (List.length imbs)))
            = Returned (Series.sum (map H (seq 0 (List.length imbs))))).
  { unfold OpfReport.range. rewrite Nat2Z.id.
    apply py_sum_returns. intros t Ht. apply in_seq in Ht.
    apply py_sum_returns. intros row Hrow.
    apply term_at_row; [exact Hlabels | exact Hrow |].
    apply abstotalimbalances_dict_get. lia. }
  assert (Hpos : 0 < Opf.nT (OpfModel.base dat))
    by (apply Opf.nT_positive; exact Hne).
  assert (HnT : Opf.nT (OpfModel.base dat)
                = inject_Z (Z.of_nat (List.length imbs)))
    by apply Opf.nT_bind.
  assert (Hsecond :
            Opf.second_stage_total (OpfModel.base dat)
                                   (OpfModel.objective_vars v)
            == Series.sum (map H (seq 0 (List.length imbs)))).
  { rewrite Opf.second_stage_by_scenario.
    apply Series.sum_map_ext. intros t _.
    apply (scenario_cost_by_row network imbs (Opf.totalimbalances imbs)
                                (Opf.abstotalimbalances imbs) uniform v t
                                Hnd Hzero). }
  exists (1 / inject_Z (Z.of_nat (List.length imbs))
          * Series.sum (map H (seq 0 (List.length imbs)))).
  exists (Opf.first_stage (OpfModel.base dat) (OpfModel.objective_vars v)
          + 1 / Opf.nT (OpfModel.base dat)
            * Opf.second_stage_total (OpfModel.base dat)
                                     (OpfModel.objective_vars v)).
  split; [|split; [|split]].
  - unfold OpfReport.get_averagerecoursecost.
    destruct (Z.eqb_spec (Z.of_nat (List.length imbs)) 0) as [E|_].
    + destruct imbs; [congruence | cbn in E; lia].
    + now rewrite Hsum.
  - unfold Opf.weight. rewrite HnT, Hsecond. reflexivity.
  - unfold OpfModel.obj, Opf.obj.
    destruct (Qeq_bool (Opf.nT (OpfModel.base dat)) 0) eqn:E; [|reflexivity].
    apply Qeq_bool_iff in E. rewrite E in Hpos. discriminate.
  - unfold OpfReport.get_firststagecost. rewrite HnT, Hsecond. reflexivity.
Qed.

(** The costs reported for the small network add up. *)
Lemma report_costs_small_network :
  exists cost total,
    OpfReport.get_averagerecoursecost
      small_data small_dispatch small_nodes 2
      (OpfReport.abstotalimbalances_dict sampled) = Returned cost /\
    cost == Opf.weight (OpfModel.base small_data)
            * Opf.second_stage_total (OpfModel.base small_data)
                                     (OpfModel.objective_vars small_dispatch) /\
    OpfModel.obj small_data small_dispatch = Some total /\
    total == OpfReport.get_firststagecost small_data small_dispatch + cost.
Proof.
  apply (report_costs_add_up small_network sampled false small_dispatch).
  - reflexivity.
  - discriminate.
  - intros row [<-|[<-|[<-|[]]]] Hnot; cbn in *;
      [exfalso; tauto | reflexivity | reflexivity].
Defined.

Lemma term_missing_key (df : list OpfModel.NodeRow) (alpha : Z -> Q)
      (abstotal : list (Z * Q)) (t : Z) (row : OpfModel.NodeRow) :
  map OpfModel.node_id df = map Z.of_nat (seq 0 (List.length df)) ->
  In row df ->
  OpfModel.dict_get Z.eqb t abstotal = None ->
  OpfReport.term df (map alpha (map OpfModel.node_id df)) abstotal t
                 (OpfModel.node_id row)
  = Raised "KeyError".
Proof.
  intros Hlabels Hrow Hab.
  destruct (labels_are_positions df row Hlabels Hrow) as (k & Hid & Hk).
  assert (Hq : nth_error (map alpha (map OpfModel.node_id df)) k
               = Some (alpha (OpfModel.node_id row)))
    by (apply map_nth_error; apply map_nth_error; exact Hk).
  assert (Hq' : OpfReport.py_index (map alpha (map OpfModel.node_id df))
                                   (OpfModel.node_id row)
                = Some (alpha (OpfModel.node_id row)))
    by (rewrite <- Hq, Hid; apply py_index_position).
  assert (Hrow' : OpfReport.py_index df (OpfModel.node_id row) = Some row)
    by (rewrite <- Hk, Hid; apply py_index_position).
  unfold OpfReport.term. now rewrite Hrow', Hq', Hab.
Qed.

Lemma py_index_outside {A} (l : list A) (i : Z) :
  (i < - Z.of_nat (List.length l) \/ Z.of_nat (List.length l) <= i)%Z ->
  OpfReport.py_index l i = None.
Proof.
  intros Hi. unfold OpfReport.py_index.
  destruct (Z.leb_spec 0 i) as [H0|H0].
  - apply nth_error_None. lia.
  - destruct (Z.leb_spec (- Z.of_nat (List.length l)) i) as [H1|H1];
      [lia | reflexivity].
Qed.

(** With the key of the scenario present, a sum of terms over labels one
    of which is no position of the table ends in an [IndexError]. *)
Lemma inner_sum_index_error (df : list OpfModel.NodeRow) (q_alpha : list Q)
      (abstotal : list (Z * Q)) (t : Z) (ab : Q) (labels : list Z) (i : Z)
      (acc : Q) :
  OpfModel.dict_get Z.eqb t abstotal = Some ab ->
  In i labels ->
  (i < - Z.of_nat (List.length df) \/ Z.of_nat (List.length df) <= i)%Z ->
  OpfReport.py_sum_from (OpfReport.term df q_alpha abstotal t) labels acc
  = Raised "IndexError".
Proof.
  intros Hab Hin Hout. revert acc.
  induction labels as [|x labels IH]; intros acc; [destruct Hin|].
  cbn [OpfReport.py_sum_from].
  destruct (OpfReport.term df q_alpha abstotal t x) as [a|exn] eqn:Hterm.
  - destruct Hin as [->|Hin]; [|now apply IH].
    unfold OpfReport.term in Hterm.
    rewrite (py_index_outside df i Hout) in Hterm. discriminate.
  - unfold OpfReport.term in Hterm. rewrite Hab in Hterm.
    destruct (OpfReport.py_index df x); [|congruence].
    destruct (OpfReport.py_index q_alpha x); congruence.
Qed.

(** X19.  [get_averagerecoursecost] ends in an exception when its
    arguments do not fit together: a [ZeroDivisionError] for [T = 0],
    whatever the other arguments; for [T > 0] an [IndexError] when a
    label of the table is not the position of one of its rows (the key
    [0] being in [abstotalimbalances]); and a [KeyError] when [T] is
    larger than the number of scenarios the dictionary was computed
    from, on a table that is not empty and labelled by position. *)
Theorem averagerecoursecost_raises :
  forall (dat : OpfModel.Data) (v : OpfModel.Vars)
         (df : list OpfModel.NodeRow) (T : Z) (abstotal : list (Z * Q)),
    (T = 0%Z ->
     OpfReport.get_averagerecoursecost dat v df T abstotal
     = Raised "ZeroDivisionError") /\
    ((0 < T)%Z ->
     (exists i ab,
         In i (map OpfModel.node_id df) /\
         (i < - Z.of_nat (List.length df) \/ Z.of_nat (List.length df) <= i)%Z /\
         OpfModel.dict_get Z.eqb 0%Z abstotal = Some ab) ->
     OpfReport.get_averagerecoursecost dat v df T abstotal
     = Raised "IndexError") /\
    (forall imbs : list Opf.Imbalance,
        abstotal = OpfReport.abstotalimbalances_dict imbs ->
        (Z.of_nat (List.length imbs) < T)%Z ->
        df <> [] ->
        map OpfModel.node_id df = map Z.of_nat (seq 0 (List.length df)) ->
        OpfModel.V dat = map OpfModel.node_id df ->
        OpfReport.get_averagerecoursecost dat v df T abstotal
        = Raised "KeyError").
Proof.
  intros dat v df T abstotal. split; [|split].
  - intros ->. reflexivity.
  - intros HT (i & ab & Hin & Hout & Hab).
    unfold OpfReport.get_averagerecoursecost.
    destruct (Z.eqb_spec T 0) as [E|_]; [lia|].
    unfold OpfReport.range.
    destruct (Z.to_nat T) as [|m] eqn:Em; [lia|].
    cbn [seq map]. unfold OpfReport.py_sum at 1.
    cbn [OpfReport.py_sum_from]. unfold OpfReport.py_sum at 1.
    change (Z.of_nat 0) with 0%Z.
    now rewrite (inner_sum_index_error
                   df _ abstotal 0%Z ab (map OpfModel.node_id df) i 0
                   Hab Hin Hout).
  - intros imbs -> HT Hne Hlabels HV.
    unfold OpfReport.get_averagerecoursecost.
    destruct (Z.eqb_spec T 0) as [E|_]; [lia|].
    rewrite HV. unfold OpfReport.range.
    set (n := List.length imbs) in *.
    replace (Z.to_nat T) with (n + Datatypes.S (Z.to_nat T - n - 1))%nat
      by lia.
    rewrite seq_app. cbn [seq]. rewrite map_app. cbn [map].
    unfold OpfReport.py_sum at 1.
    rewrite (py_sum_from_raises _ _ _ (Z.of_nat (0 + n)) "KeyError");
      [reflexivity | |].
    + intros t Ht. apply in_map_iff in Ht. destruct Ht as (t' & <- & Ht').
      apply in_seq in Ht'.
      eexists. apply (py_sum_returns OpfModel.node_id).
      intros row Hrow.
      apply term_at_row; [exact Hlabels | exact Hrow |].
      apply abstotalimbalances_dict_get. fold n. lia.
    + destruct df as [|row0 rest] eqn:Edf; [congruence|].
      rewrite <- Edf in *. unfold OpfReport.py_sum.
      assert (Hrow0 : In row0 df) by (rewrite Edf; now left).
      rewrite Edf at 3. cbn [map OpfReport.py_sum_from].
      rewrite (term_missing_key df (OpfModel.alpha v) _ _ row0 Hlabels Hrow0);
        [reflexivity|].
      apply abstotalimbalances_dict_missing. fold n. lia.
Qed.

(** The three exceptions on the small network: no scenario counted, a
    table whose labels start at 1, and one scenario too many. *)
Lemma averagerecoursecost_raises_small_network :
  OpfReport.get_averagerecoursecost
    small_data small_dispatch small_nodes 0
    (OpfReport.abstotalimbalances_dict sampled)
  = Raised "ZeroDivisionError" /\
  OpfReport.get_averagerecoursecost
    small_data small_dispatch (tl small_nodes) 2
    (OpfReport.abstotalimbalances_dict sampled)
  = Raised "IndexError" /\
  OpfReport.get_averagerecoursecost
    small_data small_dispatch small_nodes 3
    (OpfReport.abstotalimbalances_dict sampled)
  = Raised "KeyError".
Proof.
  split; [|split].
  - apply (averagerecoursecost_raises
             small_data small_dispatch small_nodes 0
             (OpfReport.abstotalimbalances_dict sampled)).
    reflexivity.
  - apply (averagerecoursecost_raises
             small_data small_dispatch (tl small_nodes) 2
             (OpfReport.abstotalimbalances_dict sampled)).
    + reflexivity.
    + exists 2%Z, (Opf.abstotalimbalances sampled 0).
      split; [cbn; tauto|]. split; [right; cbn; lia | reflexivity].
  - apply (averagerecoursecost_raises
             small_data small_dispatch small_nodes 3
             (OpfReport.abstotalimbalances_dict sampled)) with (imbs := sampled).
    + reflexivity.
    + cbn. lia.
    + discriminate.
    + reflexivity.
    + reflexivity.
Defined.

(** The value [get_averagerecoursecost] returns on a table labelled by
    position, for the participation factors of any model over the nodes
    of the table. *)
Lemma averagerecoursecost_value (dat : OpfModel.Data) (v : OpfModel.Vars)
      (df : list OpfModel.NodeRow) (imbs : list Opf.Imbalance) :
  OpfModel.V dat = map OpfModel.node_id df ->
  map OpfModel.node_id df = map Z.of_nat (seq 0 (List.length df)) ->
  imbs <> [] ->
  OpfReport.get_averagerecoursecost
    dat v df (Z.of_nat (List.length imbs))
    (OpfReport.abstotalimbalances_dict imbs)
  = Returned
      (1 / inject_Z (Z.of_nat (List.length imbs))
       * Series.sum
           (map (fun t =>
                   Series.sum
                     (map (fun row =>
                             2 * OpfModel.row_c row
                             * OpfModel.alpha v (OpfModel.node_id row)
                             * Opf.abstotalimbalances imbs t) df))
                (seq 0 (List.length imbs)))).
Proof.
  intros HV Hlabels Hne. unfold OpfReport.get_averagerecoursecost.
  destruct (Z.eqb_spec (Z.of_nat (List.length imbs)) 0) as [E|_];
    [destruct imbs; [congruence | cbn in E; lia]|].
  rewrite HV. unfold OpfReport.range. rewrite Nat2Z.id.
  rewrite (py_sum_returns
             Z.of_nat _
             (fun t =>
                Series.sum
                  (map (fun row =>
                          2 * OpfModel.row_c row
                          * OpfModel.alpha v (OpfModel.node_id row)
                          * Opf.abstotalimbalances imbs t) df))
             (seq 0 (List.length imbs))); [reflexivity|].
  intros t Ht. apply in_seq in Ht.
  apply py_sum_returns. intros row Hrow.
  apply term_at_row; [exact Hlabels | exact Hrow |].
  apply abstotalimbalances_dict_get. lia.
Qed.

(** With [uniformparticipationfactors=True] the participation factor of
    a node is fixed by the table alone. *)
Lemma uniform_alpha (network : OpfModel.Network) (imbs : list Opf.Imbalance)
      (tot abst : nat -> Q) (v : OpfModel.Vars) (row : OpfModel.NodeRow) :
  let dat := OpfModel.OPF_participationfactors network imbs tot abst true in
  OpfModel.feasible dat v ->
  In row (OpfModel.nodes_df network) ->
  In (OpfModel.row_energy_type row) known_energy_types ->
  OpfModel.alpha v (OpfModel.node_id row)
  == if in_dec string_dec (OpfModel.row_energy_type row)
               ["coal"; "gas"]%string
     then 1 / inject_Z
                (Z.of_nat
                   (List.length
                      (OpfModel.index_where (OpfModel.nodes_df network)
                                            ["coal"; "gas"]%string)))
     else 0.
Proof.
  intros dat Fv Hrow Htype.
  destruct (in_dec string_dec (OpfModel.row_energy_type row)
                   ["coal"; "gas"]%string) as [Hin|Hnot].
  - destruct Fv as (_ & _ & _ & _ & Huni & _).
    unfold OpfModel.uniformparticipationfactors_check in Huni.
    rewrite Forall_forall in Huni.
    apply (Huni (OpfModel.node_id row)); [|reflexivity].
    now apply index_where_in.
  - exact (nonconventional_alpha_zero network imbs tot abst true v row
                                      Fv Hrow Htype Hnot).
Qed.

(** X20.  With [uniformparticipationfactors=True] the average recourse
    cost reported by [get_averagerecoursecost] does not depend on the
    scenarios the model was solved on: for one table (labelled by
    position, with the energy types the function sorts by), any two
    feasible points of models built on different imbalances give the
    same cost for the same [T] and [abstotalimbalances], as the notebook
    prints for the nominal and the stochastic solve. *)
Theorem uniform_recourse_cost_fixed :
  forall (network : OpfModel.Network)
         (imbsA imbsB imbs : list Opf.Imbalance)
         (totA abstA totB abstB : nat -> Q) (vA vB : OpfModel.Vars),
    let df := OpfModel.nodes_df network in
    let datA := OpfModel.OPF_participationfactors
                  network imbsA totA abstA true in
    let datB := OpfModel.OPF_participationfactors
                  network imbsB totB abstB true in
    map OpfModel.node_id df = map Z.of_nat (seq 0 (List.length df)) ->
    (forall row, In row df ->
                 In (OpfModel.row_energy_type row) known_energy_types) ->
    imbs <> [] ->
    OpfModel.feasible datA vA ->
    OpfModel.feasible datB vB ->
    exists costA costB,
      OpfReport.get_averagerecoursecost
        datA vA df (Z.of_nat (List.length imbs))
        (OpfReport.abstotalimbalances_dict imbs) = Returned costA /\
      OpfReport.get_averagerecoursecost
        datB vB df (Z.of_nat (List.length imbs))
        (OpfReport.abstotalimbalances_dict imbs) = Returned costB /\
      costA == costB.
Proof.
  intros network imbsA imbsB imbs totA abstA totB abstB vA vB df datA datB
         Hlabels Htypes Hne FA FB.
  eexists. eexists.
  split; [apply (averagerecoursecost_value datA vA df imbs eq_refl Hlabels Hne)|].
  split; [apply (averagerecoursecost_value datB vB df imbs eq_refl Hlabels Hne)|].
  apply Qmult_comp; [reflexivity|].
  apply Series.sum_map_ext. intros t _.
  apply Series.sum_map_ext. intros row Hrow.
  rewrite (uniform_alpha network imbsA totA abstA vA row FA Hrow
                         (Htypes row Hrow)).
  rewrite (uniform_alpha network imbsB totB abstB vB row FB Hrow
                         (Htypes row Hrow)).
  reflexivity.
Qed.

(** [zeroimbalances = [{i: 0 for i in nodes_df.index}]] *)
Definition zeroimbalances (df : list OpfModel.NodeRow)
  : list Opf.Imbalance :=
  [map (fun row => (OpfModel.node_id row, 0)) df].

Lemma zero_totalimbalance (df : list OpfModel.NodeRow) (t : nat) :
  Opf.totalimbalances (zeroimbalances df) t == 0.
Proof.
  unfold Opf.totalimbalances, zeroimbalances.
  destruct t as [|[|t]]; cbn [nth]; try reflexivity.
  rewrite map_map. cbn [snd]. apply sum_map_zero. reflexivity.
Qed.

(** X21.  In the perfect-forecast case (one scenario without imbalance)
    the objective value of the model is the first-stage cost alone,
    whatever the participation factors, and in every feasible point the
    production after recourse is the scheduled production. *)
Theorem perfect_forecast_objective :
  forall (network : OpfModel.Network) (uniform : bool) (v : OpfModel.Vars),
    let zero := zeroimbalances (OpfModel.nodes_df network) in
    let dat := OpfModel.OPF_participationfactors
                 network zero (Opf.totalimbalances zero)
                 (Opf.abstotalimbalances zero) uniform in
    (exists total,
        OpfModel.obj dat v = Some total /\
        total == OpfReport.get_firststagecost dat v) /\
    (OpfModel.feasible dat v ->
     forall i, In i (OpfModel.V dat) ->
               Forall (fun t => OpfModel.r v i t == OpfModel.p v i)
                      (OpfModel.T dat)).
Proof.
  intros network uniform v zero dat. subst zero. split.
  - exists (Opf.first_stage (OpfModel.base dat) (OpfModel.objective_vars v)
            + 1 / Opf.nT (OpfModel.base dat)
              * Opf.second_stage_total (OpfModel.base dat)
                                       (OpfModel.objective_vars v)).
    split; [reflexivity|].
    unfold OpfReport.get_firststagecost.
    assert (Hsecond : Opf.second_stage_total (OpfModel.base dat)
                                             (OpfModel.objective_vars v)
                      == 0).
    { rewrite Opf.second_stage_by_scenario. apply sum_map_zero.
      intros t _. unfold Opf.scenario_cost. apply sum_map_zero.
      intros i _.
      cbn [dat OpfModel.OPF_participationfactors OpfModel.base Opf.bind
           Opf.abs_total_imbalance].
      unfold Opf.abstotalimbalances.
      rewrite (zero_totalimbalance (OpfModel.nodes_df network) t).
      change (Qabs 0) with 0. ring. }
    rewrite Hsecond. ring.
  - intros Fv i Hi. apply Forall_forall. intros t Ht.
    destruct (feasible_at dat v i t Fv Hi Ht) as [Hr _].
    rewrite Hr.
    cbn [dat OpfModel.OPF_participationfactors OpfModel.total_imbalance].
    rewrite (zero_totalimbalance (OpfModel.nodes_df network) t). ring.
Qed.

(** The small network with uniform participation factors, on the two
    sampled scenarios and in the perfect-forecast case. *)
Definition small_uniform_data : OpfModel.Data :=
  OpfModel.OPF_participationfactors
    small_network sampled (Opf.totalimbalances sampled)
    (Opf.abstotalimbalances sampled) true.

Definition small_nominal_data : OpfModel.Data :=
  OpfModel.OPF_participationfactors
    small_network (zeroimbalances small_nodes)
    (Opf.totalimbalances (zeroimbalances small_nodes))
    (Opf.abstotalimbalances (zeroimbalances small_nodes)) true.

(** The dispatch of the perfect-forecast case: the flows carry the
    scheduled production to the load. *)
Definition small_nominal_dispatch : OpfModel.Vars :=
  let p := fun i : Z => if Z.eqb i 0 then 2 else if Z.eqb i 1 then 1 else 0 in
  let flow := fun (e : Z * Z) (t : nat) => - p (fst e) in
  {| OpfModel.p := p;
     OpfModel.r := fun i t => p i;
     OpfModel.alpha := fun i => if Z.eqb i 0 then 1 else 0;
     OpfModel.theta := fun i t => if Z.eqb i 2 then 0 else flow (i, 2%Z) t;
     OpfModel.f := flow |}.

Ltac feasible_by_evaluation :=
  unfold OpfModel.feasible, OpfModel.bounds,
    OpfModel.windsolarhydro_nopartecipationfactors,
    OpfModel.load_nopartecipationfactors, OpfModel.sum_one,
    OpfModel.uniformparticipationfactors_check, OpfModel.power_withrecourse,
    OpfModel.generation_bounds_withrecourse, OpfModel.flow_conservation,
    OpfModel.susceptance, OpfModel.flows_bounds;
  cbn [small_uniform_data small_nominal_data zeroimbalances
       OpfModel.OPF_participationfactors OpfModel.V OpfModel.T
       OpfModel.base OpfModel.E OpfModel.SWH OpfModel.CG OpfModel.NG
       Opf.bind Opf.nodes Opf.V Opf.T OpfModel.nodes_df OpfModel.edges_df
       small_network small_nodes map OpfModel.node_id OpfModel.edge_id
       OpfModel.index_where filter existsb String.eqb Ascii.eqb Bool.eqb
       OpfModel.row_energy_type orb sampled List.length seq];
  decide_rational.

Lemma small_uniform_feasible :
  OpfModel.feasible small_uniform_data small_dispatch.
Proof. feasible_by_evaluation. Qed.

Lemma small_nominal_feasible :
  OpfModel.feasible small_nominal_data small_nominal_dispatch.
Proof. feasible_by_evaluation. Qed.

(** The nominal and the stochastic dispatch of the small network have
    the same average recourse cost on the two sampled scenarios. *)
Lemma uniform_recourse_cost_small_network :
  exists costA costB,
    OpfReport.get_averagerecoursecost
      small_nominal_data small_nominal_dispatch small_nodes 2
      (OpfReport.abstotalimbalances_dict sampled) = Returned costA /\
    OpfReport.get_averagerecoursecost
      small_uniform_data small_dispatch small_nodes 2
      (OpfReport.abstotalimbalances_dict sampled) = Returned costB /\
    costA == costB.
Proof.
  apply (uniform_recourse_cost_fixed
           small_network (zeroimbalances small_nodes) sampled sampled
           (Opf.totalimbalances (zeroimbalances small_nodes))
           (Opf.abstotalimbalances (zeroimbalances small_nodes))
           (Opf.totalimbalances sampled) (Opf.abstotalimbalances sampled)
           small_nominal_dispatch small_dispatch).
  - reflexivity.
  - intros row [<-|[<-|[<-|[]]]]; cbn; tauto.
  - discriminate.
  - exact small_nominal_feasible.
  - exact small_uniform_feasible.
Defined.
